(** * iheap: indexed binary heaps over caller-owned storage

    A shallow embedding of [iheap.h] and the properties of its six public
    operations ([push], [pop], [make], [sort], [update], [pop_key]) and two
    rebalance primitives ([detail::bubble_up], [detail::bubble_down]).

    Conventions of the embedding.
    - The caller's storage is a list of entries; a random-access iterator is
      the position (a [Z]) it points at, so [begin[i]] is position
      [begin + i].  Reading or writing a position outside the storage has no
      defined behaviour in the source and yields [Undef] here.
    - The indexer is a total function from keys to [int] cells; the call
      [indexer(k)] hands out the cell of [k], which the code reads and
      overwrites.  The sentinel for an absent key is [-1].
    - [b] and [e] stand for the iterators [begin] and [end] of the
      source.
    - Slot numbers are [int] in the source.  A value that does not fit the
      type (a narrowing of an iterator difference, or a signed overflow)
      yields [Undef].
    - A [while] or [for] loop is the iteration of its body, a step function,
      under a fuel budget; [OutOfFuel] is kept apart from [Undef] so that
      running to completion is a statement of its own.

    The properties of the heap are proved for a comparator that is a strict
    weak ordering ([strict_weak]) and for an active range that lies inside
    the storage and is short enough for the [int] slot arithmetic
    ([range_ok]); under these the operations are shown to return, never to
    reach [Undef]. *)

From Stdlib Require Import ZArith Lia Bool Permutation.
From stdpp Require Import base list functions.

Open Scope Z_scope.

Ltac Zify.zify_post_hook ::= Z.to_euclidean_division_equations.

(** ** Outcomes of a call *)

Inductive res (A : Type) : Type :=
| Ret (a : A)
| Undef
| OutOfFuel.

Arguments Ret {A} a.
Arguments Undef {A}.
Arguments OutOfFuel {A}.

Definition bind {A B : Type} (c : res A) (k : A -> res B) : res B :=
  match c with
  | Ret a => k a
  | Undef => Undef
  | OutOfFuel => OutOfFuel
  end.

Notation "x <- c ;; k" := (bind c (fun x => k))
  (at level 100, c at next level, right associativity).

(** Inversion of an equation [c = Ret _]: case analysis on the first call
    or test that [c] starts with. *)
Ltac bind_inv H :=
  match type of H with
  | bind ?c _ = _ =>
      let E := fresh "E" in
      destruct c eqn:E; cbn [bind] in H; try discriminate H
  | (if ?c then _ else _) = _ =>
      let E := fresh "E" in
      destruct c eqn:E; try discriminate H
  end.

(** A loop is the iteration of a step: [inl] carries the state of the next
    round, [inr] the value the loop leaves with. *)
Fixpoint loop {S R : Type} (step : S -> res (S + R)) (fuel : nat) (s : S)
  : res R :=
  match fuel with
  | O => OutOfFuel
  | Datatypes.S f =>
      r <- step s ;;
      match r with
      | inl s' => loop step f s'
      | inr v => Ret v
      end
  end.

(** The call [c] ran to completion: it returned, or left defined
    behaviour, but did not exhaust the loop budget of the model. *)
Definition completes {A : Type} (c : res A) : Prop := c <> OutOfFuel.

(** Two calls end the same way, with related results when they return. *)
Definition res_rel {A B : Type} (Q : A -> B -> Prop) (c : res A) (c' : res B)
  : Prop :=
  match c, c' with
  | Ret a, Ret a' => Q a a'
  | Undef, Undef => True
  | OutOfFuel, OutOfFuel => True
  | _, _ => False
  end.

(** ** The source's [int] *)

Definition INT_MIN : Z := -2147483648.
Definition INT_MAX : Z := 2147483647.

Definition int (z : Z) : res Z :=
  if (INT_MIN <=? z) && (z <=? INT_MAX) then Ret z else Undef.

(** The parent of slot [i], as the source writes it: [(i - 1) / 2] with the
    truncating division of C++. *)
Definition parent (i : Z) : Z := Z.quot (i - 1) 2.

Section IHeap.

Context {P K : Type} `{EqDecision K}.

Local Abbreviation Entry := (P * K)%type.

(** The comparator, [comp(a, b)]: entry [a] is dominated by entry [b]. *)
Variable comp : Entry -> Entry -> bool.

(** ** Storage and index *)

Record store : Type := Store {
  elems : list Entry;
  indexer : K -> Z
}.

Definition slot (it : Z) (s : store) : option Entry :=
  if 0 <=? it then elems s !! Z.to_nat it else None.

(** [*it] as an rvalue. *)
Definition deref (it : Z) (s : store) : res Entry :=
  match slot it s with
  | Some x => Ret x
  | None => Undef
  end.

(** [*it = x]. *)
Definition assign (it : Z) (x : Entry) (s : store) : res store :=
  if (0 <=? it) && (it <? Z.of_nat (length (elems s)))
  then Ret {| elems := <[Z.to_nat it := x]> (elems s); indexer := indexer s |}
  else Undef.

(** [swap( *it1, *it2)]: [tmp = *it1; *it1 = *it2; *it2 = tmp]. *)
Definition swap_at (it1 it2 : Z) (s : store) : res store :=
  tmp <- deref it1 s ;;
  y <- deref it2 s ;;
  s1 <- assign it1 y s ;;
  assign it2 tmp s1.

(** [indexer(k) = v]. *)
Definition cell_set (k : K) (v : Z) (s : store) : store :=
  {| elems := elems s; indexer := <[k := v]> (indexer s) |}.

(** [swap(indexer(k1), indexer(k2))]; the two cells are one when
    [k1 = k2]. *)
Definition cell_swap (k1 k2 : K) (s : store) : store :=
  let tmp := indexer s k1 in
  let s1 := cell_set k1 (indexer s k2) s in
  cell_set k2 tmp s1.

(** [swap(indexer(it1->second), indexer(it2->second))]. *)
Definition swap_cells_at (it1 it2 : Z) (s : store) : res store :=
  x <- deref it1 s ;;
  y <- deref it2 s ;;
  Ret (cell_swap (snd x) (snd y) s).

(** ** detail::bubble_up *)

(** One round of [while ((i > 0) && comp(begin[(i - 1) / 2], begin[i]))]. *)
Definition bubble_up_step (b : Z) (st : store * Z)
  : res (store * Z + store) :=
  let '(s, i) := st in
  if 0 <? i then
    x <- deref (b + parent i) s ;;
    y <- deref (b + i) s ;;
    if comp x y then
      s1 <- swap_at (b + parent i) (b + i) s ;;
      s2 <- swap_cells_at (b + parent i) (b + i) s1 ;;
      Ret (inl (s2, parent i))
    else Ret (inr s)
  else Ret (inr s).

Definition bubble_up (b e it : Z) (s : store) : res store :=
  if (it <? b) || (e <=? it) then Ret s
  else
    i <- int (it - b) ;;
    loop (bubble_up_step b) (Z.to_nat i + 1) (s, i).

(** ** detail::bubble_down *)

(** One round of
    [for (int c = 2 * i + 1; (c < n) && (c <= 2 * i + 2); ++c)],
    on the pair [(c, m)]. *)
Definition children_step (b n i : Z) (s : store) (cm : Z * Z)
  : res (Z * Z + Z) :=
  let '(c, m) := cm in
  if c <? n then
    d <- int (2 * i) ;;
    hi <- int (d + 2) ;;
    if c <=? hi then
      x <- deref (b + m) s ;;
      y <- deref (b + c) s ;;
      let m' := if comp x y then c else m in
      c' <- int (c + 1) ;;
      Ret (inl (c', m'))
    else Ret (inr m)
  else Ret (inr m).

(** One round of [while (i < n)]. *)
Definition bubble_down_step (b n : Z) (st : store * Z)
  : res (store * Z + store) :=
  let '(s, i) := st in
  if i <? n then
    d <- int (2 * i) ;;
    c <- int (d + 1) ;;
    m <- loop (children_step b n i s) 3 (c, i) ;;
    if m =? i then Ret (inr s)
    else
      s1 <- swap_at (b + i) (b + m) s ;;
      s2 <- swap_cells_at (b + i) (b + m) s1 ;;
      Ret (inl (s2, m))
  else Ret (inr s).

Definition bubble_down (b e it : Z) (s : store) : res store :=
  if (it <? b) || (e <=? it) then Ret s
  else
    i <- int (it - b) ;;
    n <- int (e - b) ;;
    loop (bubble_down_step b n) (Z.to_nat (n - i)) (s, i).

(** ** The public operations *)

Definition push (b e : Z) (s : store) : res store :=
  if e <=? b then Ret s
  else
    x <- deref (e - 1) s ;;
    v <- int ((e - b) - 1) ;;
    bubble_up b e (e - 1) (cell_set (snd x) v s).

Definition pop (b e : Z) (s : store) : res store :=
  if e <=? b then Ret s
  else
    let back := e - 1 in
    s1 <- swap_at b back s ;;
    s2 <- swap_cells_at b back s1 ;;
    y <- deref back s2 ;;
    bubble_down b back b (cell_set (snd y) (-1) s2).

(** One round of [for (auto it = end - 1; it >= begin; --it)]. *)
Definition make_step (b e : Z) (st : store * Z) : res (store * Z + store) :=
  let '(s, it) := st in
  if b <=? it then
    s' <- bubble_down b e it s ;;
    Ret (inl (s', it - 1))
  else Ret (inr s).

Definition make (b e : Z) (s : store) : res store :=
  if e <=? b then Ret s
  else loop (make_step b e) (Z.to_nat (e - b) + 1) (s, e - 1).

(** One round of [while (begin < end) pop(begin, end--, indexer, comp)]. *)
Definition sort_step (b : Z) (st : store * Z) : res (store * Z + store) :=
  let '(s, e) := st in
  if b <? e then
    s' <- pop b e s ;;
    Ret (inl (s', e - 1))
  else Ret (inr s).

Definition sort (b e : Z) (s : store) : res store :=
  loop (sort_step b) (Z.to_nat (e - b) + 1) (s, e).

(** [n] calls of [pop] in a row, each on the range the call before it left
    active: what the loop of [sort] runs, and what a caller runs to extract
    [n] entries. *)
Fixpoint pops (b e : Z) (n : nat) (s : store) : res store :=
  match n with
  | O => Ret s
  | Datatypes.S m => s' <- pop b e s ;; pops b (e - 1) m s'
  end.

Definition update (b e : Z) (key : K) (value : P) (s : store)
  : res (store * bool) :=
  if e <=? b then Ret (s, false)
  else
    let index := indexer s key in
    if index =? -1 then Ret (s, false)
    else
      let it := b + index in
      old <- deref it s ;;
      s1 <- assign it (value, snd old) s ;;
      cur <- deref it s1 ;;
      if comp cur old then
        s2 <- bubble_down b e it s1 ;; Ret (s2, true)
      else if comp old cur then
        s2 <- bubble_up b e it s1 ;; Ret (s2, true)
      else Ret (s1, true).

Definition pop_key (b e : Z) (key : K) (s : store) : res (store * bool) :=
  if e <=? b then Ret (s, false)
  else
    let index := indexer s key in
    if index =? -1 then Ret (s, false)
    else
      let it := b + index in
      let back := e - 1 in
      old <- deref it s ;;
      s1 <- swap_at it back s ;;
      s2 <- swap_cells_at it back s1 ;;
      y <- deref back s2 ;;
      let s3 := cell_set (snd y) (-1) s2 in
      cur <- deref it s3 ;;
      if comp cur old then
        s4 <- bubble_down b back it s3 ;; Ret (s4, true)
      else if comp old cur then
        s4 <- bubble_up b back it s3 ;; Ret (s4, true)
      else Ret (s3, true).

(** ** The specification's wording of [make] *)

(** [make] as the specification words it: sift toward the leaves from the
    last internal slot down through the root. *)
Definition make_from_last_internal (b e : Z) (s : store) : res store :=
  if e <=? b then Ret s
  else
    let half := (e - b) / 2 in
    loop (make_step b e) (Z.to_nat half + 1) (s, b + half - 1).

(** ** Ranges, invariants and the relations the properties are stated with *)

Definition in_store (s : store) (it : Z) : Prop :=
  0 <= it < Z.of_nat (length (elems s)).

(** The longest range on which no slot computation of the source leaves
    [int]: [2 * i + 1] is formed for every visited slot [i]. *)
Definition MAX_SLOTS : Z := 1073741824.

(** An active range [[b, e)] of the storage. *)
Definition range_ok (b e : Z) (s : store) : Prop :=
  0 <= b /\ b <= e /\ e <= Z.of_nat (length (elems s)) /\ e - b <= MAX_SLOTS.

(** The entries of the range, in slot order. *)
Definition range (b e : Z) (s : store) : list Entry :=
  take (Z.to_nat (e - b)) (drop (Z.to_nat b) (elems s)).

(** Slot [c] holds nothing that dominates what slot [p] holds. *)
Definition ok_pair (b : Z) (s : store) (p c : Z) : Prop :=
  forall x y, slot (b + p) s = Some x -> slot (b + c) s = Some y ->
              comp x y = false.

(** Heap property: no non-root slot dominates its parent. *)
Definition heap_prop (b e : Z) (s : store) : Prop :=
  forall i, 0 < i < e - b -> ok_pair b s (parent i) i.

(** The heap property as a check that runs. *)
Definition heap_propb (b e : Z) (s : store) : bool :=
  forallb
    (fun i => match slot (b + parent i) s, slot (b + i) s with
              | Some x, Some y => negb (comp x y)
              | _, _ => true
              end)
    (map Z.of_nat (seq 1 (Z.to_nat (e - b) - 1))).

(** The range read in slot order never goes from an entry to one it
    dominates. *)
Definition ordered (b e : Z) (s : store) : Prop :=
  forall i j x y, 0 <= i < j -> j < e - b ->
                  slot (b + i) s = Some x -> slot (b + j) s = Some y ->
                  comp y x = false.

(** The invariant of the [sort] loop when the range still active ends at
    [e']: from there on every slot holds an entry that nothing before it
    dominates. *)
Definition tail_ordered (b e e' : Z) (s : store) : Prop :=
  forall i j x y, 0 <= i < j -> j < e - b -> e' - b <= j ->
                  slot (b + i) s = Some x -> slot (b + j) s = Some y ->
                  comp y x = false.

(** Key [k] has a live entry in the range. *)
Definition live (b e : Z) (s : store) (k : K) : Prop :=
  exists i x, 0 <= i < e - b /\ slot (b + i) s = Some x /\ snd x = k.

(** Index consistency: the cell of a live key holds its slot, the cell of
    any other key holds the sentinel. *)
Definition index_ok (b e : Z) (s : store) : Prop :=
  (forall i x, 0 <= i < e - b -> slot (b + i) s = Some x ->
               indexer s (snd x) = i) /\
  (forall k, ~ live b e s k -> indexer s k = -1).

(** [s'] holds the entries of [s], moved only inside [[b, e)]. *)
Definition rearranged (b e : Z) (s s' : store) : Prop :=
  length (elems s') = length (elems s) /\
  Permutation (elems s) (elems s') /\
  (forall it, ~ (b <= it < e) -> slot it s' = slot it s).

(** The comparator is a strict weak ordering, what C++ asks of a
    [Compare]. *)
Record strict_weak : Prop := StrictWeak {
  sw_irrefl : forall x, comp x x = false;
  sw_trans : forall x y z, comp x y = true -> comp y z = true ->
                           comp x z = true;
  sw_negtrans : forall x y z, comp x y = false -> comp y z = false ->
                              comp x z = false
}.

(** Entries and cells after [swap( *p, *q)] and the swap of the two keys'
    cells that follows it in the source. *)
Definition swapped (p q : Z) (s : store) : store :=
  match slot p s, slot q s with
  | Some x, Some y =>
      {| elems := <[Z.to_nat q := x]> (<[Z.to_nat p := y]> (elems s));
         indexer := <[snd x := indexer s (snd y)]>
                    (<[snd y := indexer s (snd x)]> (indexer s)) |}
  | _, _ => s
  end.

(** The invariant of the [bubble_up] loop at slot [i]: the heap property
    holds at every slot but [i], and the parent of [i] is dominated by no
    child of [i]. *)
Definition up_inv (b e : Z) (s : store) (i : Z) : Prop :=
  0 <= i < e - b /\
  (forall j, 0 < j < e - b -> j <> i -> ok_pair b s (parent j) j) /\
  (0 < i -> forall c, 0 < c < e - b -> parent c = i ->
            ok_pair b s (parent i) c).

(** The invariant of the [bubble_down] loop at slot [i], for the parents
    from slot [lo] on: the heap property holds below every such parent but
    [i], and the parent of [i] is dominated by no child of [i]. *)
Definition down_inv (lo b e : Z) (s : store) (i : Z) : Prop :=
  0 <= i < e - b /\
  (forall j, 0 < j < e - b -> lo <= parent j -> parent j <> i ->
             ok_pair b s (parent j) j) /\
  (0 < i -> lo <= parent i -> forall c, 0 < c < e - b -> parent c = i ->
            ok_pair b s (parent i) c).

(** The heap property below the parents from slot [lo] on. *)
Definition heap_from (lo b e : Z) (s : store) : Prop :=
  forall j, 0 < j < e - b -> lo <= parent j -> ok_pair b s (parent j) j.

(** What the scan of the two children leaves in [m]. *)
Definition picked (b e : Z) (s : store) (i m : Z) : Prop :=
  (m = i /\ forall c, 0 < c < e - b -> parent c = i -> ok_pair b s i c) \/
  (0 < m < e - b /\ parent m = i /\
   exists x z, slot (b + i) s = Some x /\ slot (b + m) s = Some z /\
               comp x z = true /\
               forall c y, 0 < c < e - b -> parent c = i -> c <> m ->
                           slot (b + c) s = Some y -> comp z y = false).

(** No cell of a key without an entry in [[b, e)] of [s] differs in
    [s']. *)
Definition cells_kept (b e : Z) (s s' : store) : Prop :=
  forall k, ~ live b e s k -> indexer s' k = indexer s k.

(** [s'] differs from [s] only inside the range: the storage holds the same
    entries, moved only inside [[b, e)], and only cells of keys with an
    entry there may differ. *)
Definition inside (b e : Z) (s s' : store) : Prop :=
  rearranged b e s s' /\ cells_kept b e s s'.

(** Two calls end the same way, with the same entries in the storage when
    they return. *)
Definition same_entries (c c' : res store) : Prop :=
  res_rel (fun s s' => elems s = elems s') c c'.

End IHeap.

Arguments store : clear implicits.

(** ** A running instance: integer priorities, keys [0, 1, 2, ...], the
    comparator of a max-heap on priorities. *)

Definition lessp (x y : Z * nat) : bool := fst x <? fst y.

(** The default comparator of the source, [std::less] on pairs: the
    lexicographic order of [operator<]. *)
Definition less_pair (x y : Z * nat) : bool :=
  (fst x <? fst y) || (negb (fst y <? fst x) && (snd x <? snd y)%nat).

(** The heap that [push] builds from (5, 0), (3, 1), (8, 2). *)
Definition heap3 : store Z nat :=
  {| elems := [(8, 2%nat); (3, 1%nat); (5, 0%nat)];
     indexer := fun k => match k with
                       | 0%nat => 2
                       | 1%nat => 1
                       | 2%nat => 0
                       | _ => -1
                       end |}.

(** [heap3] with the entry (1, 3) placed behind it, before [push]. *)
Definition heap3_new : store Z nat :=
  {| elems := elems heap3 ++ [(1, 3%nat)]; indexer := indexer heap3 |}.


(** Five entries in no heap order, each key indexed at its slot. *)
Definition raw5 : store Z nat :=
  {| elems := [(1, 0%nat); (9, 1%nat); (3, 2%nat); (7, 3%nat); (2, 4%nat)];
     indexer := fun k => if (k <? 5)%nat then Z.of_nat k else -1 |}.

(** What a caller does to insert: put the entry behind the heap, then call
    [push] on the range that includes it. *)
Definition insert_entry (s : store Z nat) (x : Z * nat) : res (store Z nat) :=
  let s1 := {| elems := elems s ++ [x]; indexer := indexer s |} in
  push lessp 0 (Z.of_nat (length (elems s1))) s1.

Definition inserts (l : list (Z * nat)) : res (store Z nat) :=
  fold_left (fun acc x => s <- acc ;; insert_entry s x) l
    (Ret {| elems := []; indexer := fun _ => -1 |}).

(** The entries of a returned state and the cells of the given keys. *)
Definition snapshot {A : Type} (get : A -> store Z nat) (keys : list nat)
    (r : res A) : option (list (Z * nat) * list Z) :=
  match r with
  | Ret a => Some (elems (get a), map (indexer (get a)) keys)
  | _ => None
  end.

(** ** Iterating a step *)

Lemma int_Ret z : INT_MIN <= z <= INT_MAX -> int z = Ret z.
Proof.
  intros Hz. unfold int.
  destruct (Z.leb_spec INT_MIN z); [|lia].
  destruct (Z.leb_spec z INT_MAX); [|lia]. reflexivity.
Qed.

Section Loop.

Context {S R : Type} (step : S -> res (S + R)).

Lemma loop_inv (I : S -> Prop) (Q : R -> Prop) (mu : S -> nat) :
  (forall s, I s ->
     match step s with
     | Ret (inl s') => I s' /\ (mu s' < mu s)%nat
     | Ret (inr v) => Q v
     | _ => False
     end) ->
  forall fuel s, I s -> (mu s < fuel)%nat ->
  exists v, loop step fuel s = Ret v /\ Q v.
Proof.
  intros Hstep fuel. induction fuel as [|f IH]; intros s Hs Hmu; [lia|].
  simpl. specialize (Hstep s Hs).
  destruct (step s) as [[s'|v]| |]; simpl; try contradiction.
  - destruct Hstep as [Hs' Hlt]. apply IH; [assumption|lia].
  - exists v. split; [reflexivity|assumption].
Qed.

End Loop.

(** ** Reading and writing the storage *)

Section Storage.

Context {P K : Type} `{EqDecision K}.

Implicit Types (s : store P K) (x y : P * K) (it p q b e i : Z).

Lemma slot_Some it s x : slot it s = Some x -> in_store s it.
Proof.
  unfold slot, in_store. destruct (Z.leb_spec 0 it); [|discriminate].
  intros Hl. apply lookup_lt_Some in Hl. lia.
Qed.

Lemma slot_in_store it s : in_store s it -> exists x, slot it s = Some x.
Proof.
  unfold slot, in_store. intros Hit.
  destruct (Z.leb_spec 0 it); [|lia].
  destruct (lookup_lt_is_Some_2 (elems s) (Z.to_nat it)) as [x Hx]; [lia|].
  exists x. exact Hx.
Qed.

Lemma deref_Some it s x : slot it s = Some x -> deref it s = Ret x.
Proof. unfold deref. intros ->. reflexivity. Qed.

Lemma assign_Ret it x s :
  in_store s it ->
  assign it x s =
  Ret {| elems := <[Z.to_nat it := x]> (elems s); indexer := indexer s |}.
Proof.
  unfold assign, in_store. intros Hit.
  destruct (Z.leb_spec 0 it); [|lia].
  destruct (Z.ltb_spec it (Z.of_nat (length (elems s)))); [|lia].
  reflexivity.
Qed.

Lemma slot_insert it p x (l : list (P * K)) (f g : K -> Z) :
  0 <= p < Z.of_nat (length l) ->
  slot it {| elems := <[Z.to_nat p := x]> l; indexer := f |} =
  if decide (it = p) then Some x else slot it {| elems := l; indexer := g |}.
Proof.
  intros Hp. unfold slot. simpl.
  destruct (decide (it = p)) as [->|Hne].
  - destruct (Z.leb_spec 0 p); [|lia].
    apply list_lookup_insert_eq. lia.
  - destruct (Z.leb_spec 0 it); [|reflexivity].
    apply list_lookup_insert_ne. lia.
Qed.

Lemma slot_cell_set it k v s : slot it (cell_set k v s) = slot it s.
Proof. reflexivity. Qed.

Lemma index_cell_set k v s k' :
  indexer (cell_set k v s) k' = if decide (k' = k) then v else indexer s k'.
Proof.
  unfold cell_set. simpl. destruct (decide (k' = k)) as [->|Hne].
  - apply fn_lookup_insert.
  - apply fn_lookup_insert_ne. congruence.
Qed.

(** The two swaps of a sift step, taken together. *)
Lemma swap_at_Ret p q s x y :
  slot p s = Some x -> slot q s = Some y ->
  swap_at p q s =
  Ret {| elems := <[Z.to_nat q := x]> (<[Z.to_nat p := y]> (elems s));
         indexer := indexer s |}.
Proof.
  intros Hp Hq. unfold swap_at.
  rewrite (deref_Some _ _ _ Hp), (deref_Some _ _ _ Hq). simpl.
  rewrite assign_Ret by (eapply slot_Some; eassumption). simpl.
  rewrite assign_Ret; [reflexivity|].
  unfold in_store. simpl. rewrite length_insert.
  eapply slot_Some; eassumption.
Qed.

Lemma slot_swapped it p q s x y :
  slot p s = Some x -> slot q s = Some y ->
  slot it (swapped p q s) =
  if decide (it = q) then Some x
  else if decide (it = p) then Some y else slot it s.
Proof.
  intros Hp Hq. unfold swapped. rewrite Hp, Hq.
  pose proof (slot_Some _ _ _ Hp) as Hip.
  pose proof (slot_Some _ _ _ Hq) as Hiq.
  unfold in_store in *.
  rewrite (slot_insert it q x _ _ (indexer s)) by (rewrite length_insert; lia).
  destruct (decide (it = q)); [reflexivity|].
  rewrite (slot_insert it p y _ _ (indexer s)) by lia.
  destruct (decide (it = p)); [reflexivity|].
  destruct s; reflexivity.
Qed.

Lemma index_swapped k p q s x y :
  slot p s = Some x -> slot q s = Some y ->
  indexer (swapped p q s) k =
  if decide (k = snd x) then indexer s (snd y)
  else if decide (k = snd y) then indexer s (snd x) else indexer s k.
Proof.
  intros Hp Hq. unfold swapped. rewrite Hp, Hq. simpl.
  destruct (decide (k = snd x)) as [->|Hx].
  - apply fn_lookup_insert.
  - rewrite fn_lookup_insert_ne by congruence.
    destruct (decide (k = snd y)) as [->|Hy].
    + apply fn_lookup_insert.
    + apply fn_lookup_insert_ne. congruence.
Qed.

Lemma swap_both_bind {B : Type} p q s x y (k : store P K -> res B) :
  slot p s = Some x -> slot q s = Some y ->
  (s1 <- swap_at p q s ;; s2 <- swap_cells_at p q s1 ;; k s2) =
  k (swapped p q s).
Proof.
  intros Hp Hq. rewrite (swap_at_Ret _ _ _ _ _ Hp Hq). simpl.
  pose proof (slot_Some _ _ _ Hp) as Hip.
  pose proof (slot_Some _ _ _ Hq) as Hiq.
  unfold in_store in *.
  unfold swap_cells_at, deref.
  rewrite (slot_insert p q x _ _ (indexer s)) by (rewrite length_insert; lia).
  rewrite (slot_insert q q x _ _ (indexer s)) by (rewrite length_insert; lia).
  rewrite (slot_insert p p y _ _ (indexer s)) by lia.
  destruct (decide (q = q)); [|congruence].
  destruct (decide (p = p)); [|congruence].
  unfold swapped. rewrite Hp, Hq.
  destruct (decide (p = q)) as [->|Hne]; simpl.
  - assert (x = y) by congruence. subst y. reflexivity.
  - reflexivity.
Qed.

Lemma length_swapped p q s :
  length (elems (swapped p q s)) = length (elems s).
Proof.
  unfold swapped. destruct (slot p s), (slot q s); try reflexivity.
  simpl. now rewrite !length_insert.
Qed.

End Storage.

(** ** Checking the heap property by running it *)

Section Check.

Context {P K : Type} (comp : P * K -> P * K -> bool).

Lemma heap_propb_sound b e (s : store P K) :
  heap_propb comp b e s = true -> heap_prop comp b e s.
Proof.
  unfold heap_propb. rewrite forallb_forall. intros Hall i Hi x y Hx Hy.
  specialize (Hall i). rewrite Hx, Hy in Hall.
  apply negb_true_iff, Hall. apply in_map_iff.
  exists (Z.to_nat i). split; [lia|]. apply in_seq. lia.
Qed.

End Check.

(** ** Swaps and the invariants *)

Section Swaps.

Context {P K : Type} `{EqDecision K}.

Implicit Types (s : store P K) (x y : P * K) (it p q b e i j : Z) (k : K).

Lemma rearranged_refl b e s : rearranged b e s s.
Proof. split; [reflexivity|]. split; [reflexivity|]. intros; reflexivity. Qed.

Lemma rearranged_trans b e s1 s2 s3 :
  rearranged b e s1 s2 -> rearranged b e s2 s3 -> rearranged b e s1 s3.
Proof.
  intros (Hl1 & Hp1 & Ho1) (Hl2 & Hp2 & Ho2).
  split; [congruence|]. split; [etransitivity; eassumption|].
  intros it Hit. rewrite Ho2, Ho1; auto.
Qed.

Lemma rearranged_wider b e b' e' s s' :
  b' <= b -> e <= e' -> rearranged b e s s' -> rearranged b' e' s s'.
Proof.
  intros Hb He (Hl & Hp & Ho). split; [exact Hl|]. split; [exact Hp|].
  intros it Hit. apply Ho. lia.
Qed.

Lemma rearranged_swapped b e p q s x y :
  slot p s = Some x -> slot q s = Some y ->
  b <= p < e -> b <= q < e ->
  rearranged b e s (swapped p q s).
Proof.
  intros Hp Hq Hbp Hbq. split; [apply length_swapped|]. split.
  - unfold swapped. rewrite Hp, Hq. simpl. symmetry.
    apply Permutation_insert_swap.
    + unfold slot in Hp. destruct (Z.leb_spec 0 p); [exact Hp|discriminate].
    + unfold slot in Hq. destruct (Z.leb_spec 0 q); [exact Hq|discriminate].
  - intros it Hit. rewrite (slot_swapped it _ _ _ _ _ Hp Hq).
    destruct (decide (it = q)); [lia|].
    destruct (decide (it = p)); [lia|reflexivity].
Qed.

Lemma range_ok_rearranged b e b' e' s s' :
  rearranged b' e' s s' -> range_ok b e s -> range_ok b e s'.
Proof. intros (Hl & _ & _). unfold range_ok. rewrite Hl. auto. Qed.

Lemma range_ok_slot b e s i :
  range_ok b e s -> 0 <= i < e - b -> exists x, slot (b + i) s = Some x.
Proof.
  intros (Hb & Hbe & He & _) Hi. apply slot_in_store.
  unfold in_store. lia.
Qed.

Lemma index_ok_swapped b e s i j x y :
  index_ok b e s ->
  0 <= i < e - b -> 0 <= j < e - b ->
  slot (b + i) s = Some x -> slot (b + j) s = Some y ->
  index_ok b e (swapped (b + i) (b + j) s).
Proof.
  intros [HA HB] Hi Hj Hx Hy.
  pose proof (HA _ _ Hi Hx) as Hix.
  pose proof (HA _ _ Hj Hy) as Hiy.
  split.
  - intros i0 z Hi0. rewrite (slot_swapped _ _ _ _ _ _ Hx Hy).
    rewrite (index_swapped _ _ _ _ _ _ Hx Hy).
    destruct (decide (b + i0 = b + j)) as [E1|N1].
    { intros [= <-]. destruct (decide (snd x = snd x)); [lia|congruence]. }
    destruct (decide (b + i0 = b + i)) as [E2|N2].
    { intros [= <-]. destruct (decide (snd y = snd x)) as [E|N].
      - rewrite E in Hiy. lia.
      - destruct (decide (snd y = snd y)); [lia|congruence]. }
    intros Hz. pose proof (HA _ _ Hi0 Hz) as Hiz.
    destruct (decide (snd z = snd x)) as [E|N]; [rewrite E in Hiz; lia|].
    destruct (decide (snd z = snd y)) as [E'|N']; [rewrite E' in Hiz; lia|].
    exact Hiz.
  - intros k Hk. rewrite (index_swapped _ _ _ _ _ _ Hx Hy).
    assert (Hsx : slot (b + j) (swapped (b + i) (b + j) s) = Some x).
    { rewrite (slot_swapped _ _ _ _ _ _ Hx Hy).
      destruct (decide (b + j = b + j)); [reflexivity|congruence]. }
    assert (Hsy : slot (b + i) (swapped (b + i) (b + j) s) = Some y).
    { rewrite (slot_swapped _ _ _ _ _ _ Hx Hy).
      destruct (decide (b + i = b + j)) as [E|N]; [|
        destruct (decide (b + i = b + i)); [reflexivity|congruence]].
      assert (i = j) by lia. subst j. congruence. }
    destruct (decide (k = snd x)) as [->|Nx].
    { exfalso. apply Hk. exists j, x. auto. }
    destruct (decide (k = snd y)) as [->|Ny].
    { exfalso. apply Hk. exists i, y. auto. }
    apply HB. intros (i0 & z & Hi0 & Hz & Hkz). apply Hk.
    exists i0, z. split; [assumption|]. split; [|assumption].
    rewrite (slot_swapped _ _ _ _ _ _ Hx Hy).
    destruct (decide (b + i0 = b + j)) as [E1|N1].
    { assert (i0 = j) by lia. subst i0. congruence. }
    destruct (decide (b + i0 = b + i)) as [E2|N2].
    { assert (i0 = i) by lia. subst i0. congruence. }
    exact Hz.
Qed.

End Swaps.

(** ** The comparator *)

Section Order.

Context {P K : Type} (comp : P * K -> P * K -> bool).
Hypothesis Hsw : strict_weak comp.

Lemma sw_asym x y : comp x y = true -> comp y x = false.
Proof.
  intros Hxy. destruct (comp y x) eqn:E; [|reflexivity].
  pose proof (sw_trans _ Hsw _ _ _ Hxy E) as Hxx.
  rewrite (sw_irrefl _ Hsw) in Hxx. discriminate.
Qed.

Lemma sw_trans_neg x y z :
  comp x y = true -> comp x z = false -> comp y z = false.
Proof.
  intros Hxy Hxz. destruct (comp y z) eqn:E; [|reflexivity].
  rewrite (sw_trans _ Hsw _ _ _ Hxy E) in Hxz. discriminate.
Qed.

Lemma sw_neg_trans x y z :
  comp x z = false -> comp y z = true -> comp x y = false.
Proof.
  intros Hxz Hyz. destruct (comp x y) eqn:E; [|reflexivity].
  rewrite (sw_trans _ Hsw _ _ _ E Hyz) in Hxz. discriminate.
Qed.

End Order.

(** ** The two rebalance primitives *)

Section Sift.

Context {P K : Type} `{EqDecision K} (comp : P * K -> P * K -> bool).
Hypothesis Hsw : strict_weak comp.

Implicit Types (s : store P K) (x y : P * K) (it p q b e i j : Z) (k : K).

Lemma up_inv_swap b e s i x y :
  up_inv comp b e s i -> 0 < i ->
  slot (b + parent i) s = Some x -> slot (b + i) s = Some y ->
  comp x y = true ->
  up_inv comp b e (swapped (b + parent i) (b + i) s) (parent i).
Proof.
  intros (Hi & H1 & H2) Hpos Hx Hy Hc.
  split; [unfold parent; lia|]. split.
  - intros j Hj Hjp u v Hu Hv.
    rewrite (slot_swapped _ _ _ _ _ _ Hx Hy) in Hu.
    rewrite (slot_swapped _ _ _ _ _ _ Hx Hy) in Hv.
    unfold ok_pair, parent in *.
    destruct (decide (b + j = b + i)) as [E|N].
    + assert (j = i) by lia. subst j.
      destruct (decide (b + (i - 1) ÷ 2 = b + i)); [lia|].
      destruct (decide (b + (i - 1) ÷ 2 = b + (i - 1) ÷ 2)); [|lia].
      simplify_eq. eapply sw_asym; eassumption.
    + destruct (decide (b + j = b + (i - 1) ÷ 2)); [lia|].
      destruct (decide (b + (j - 1) ÷ 2 = b + i)) as [E1|N1].
      * simplify_eq. eapply (H2 Hpos j Hj); [lia| |]; eassumption.
      * destruct (decide (b + (j - 1) ÷ 2 = b + (i - 1) ÷ 2)) as [E2|N2].
        -- simplify_eq. eapply sw_trans_neg; [eassumption..|].
           eapply (H1 j Hj); [lia| |eassumption].
           replace ((j - 1) ÷ 2) with ((i - 1) ÷ 2) by lia. exact Hx.
        -- eapply (H1 j Hj); [lia| |]; eassumption.
  - intros Hp c Hc0 Hpc u v Hu Hv.
    rewrite (slot_swapped _ _ _ _ _ _ Hx Hy) in Hu.
    rewrite (slot_swapped _ _ _ _ _ _ Hx Hy) in Hv.
    unfold ok_pair, parent in *.
    destruct (decide (b + ((i - 1) ÷ 2 - 1) ÷ 2 = b + i)); [lia|].
    destruct (decide (b + ((i - 1) ÷ 2 - 1) ÷ 2 = b + (i - 1) ÷ 2)); [lia|].
    assert (Hux : comp u x = false).
    { eapply (H1 ((i - 1) ÷ 2)); [lia|lia| |]; eassumption. }
    destruct (decide (b + c = b + i)) as [E|N].
    + simplify_eq. exact Hux.
    + destruct (decide (b + c = b + (i - 1) ÷ 2)); [lia|].
      eapply (sw_negtrans _ Hsw); [exact Hux|].
      eapply (H1 c Hc0); [lia| |eassumption].
      rewrite Hpc. exact Hx.
Qed.

Lemma up_inv_done b e s i :
  up_inv comp b e s i -> (0 < i -> ok_pair comp b s (parent i) i) ->
  heap_prop comp b e s.
Proof.
  intros (Hi & H1 & _) Hlast j Hj.
  destruct (decide (j = i)) as [->|N]; [apply Hlast; lia|].
  apply H1; assumption.
Qed.

Lemma bubble_up_loop_spec b e s0 i0 fuel :
  range_ok b e s0 -> up_inv comp b e s0 i0 -> (Z.to_nat i0 < fuel)%nat ->
  exists s', loop (bubble_up_step comp b) fuel (s0, i0) = Ret s' /\
             rearranged b e s0 s' /\
             (index_ok b e s0 -> index_ok b e s') /\
             heap_prop comp b e s'.
Proof.
  intros Hr Hinv Hfuel.
  apply (loop_inv (bubble_up_step comp b)
           (fun st => range_ok b e (fst st) /\ rearranged b e s0 (fst st) /\
                      (index_ok b e s0 -> index_ok b e (fst st)) /\
                      up_inv comp b e (fst st) (snd st))
           (fun s' => rearranged b e s0 s' /\
                      (index_ok b e s0 -> index_ok b e s') /\
                      heap_prop comp b e s')
           (fun st => Z.to_nat (snd st))); [| |exact Hfuel].
  2:{ simpl. split; [assumption|]. split; [apply rearranged_refl|].
      split; [tauto|assumption]. }
  intros [s i] (Hrs & Hre & Hix & Hup). simpl in *.
  pose proof Hup as (Hi & _ & _).
  destruct (Z.ltb_spec 0 i) as [Hpos|Hz].
  - destruct (range_ok_slot b e s (parent i) Hrs) as [x Hx];
      [unfold parent; lia|].
    destruct (range_ok_slot b e s i Hrs) as [y Hy]; [lia|].
    rewrite (deref_Some _ _ _ Hx), (deref_Some _ _ _ Hy). simpl.
    destruct (comp x y) eqn:Hc.
    + rewrite (swap_both_bind _ _ _ _ _ _ Hx Hy). simpl.
      assert (Hsw' : rearranged b e s (swapped (b + parent i) (b + i) s)).
      { eapply rearranged_swapped; try eassumption; unfold parent; lia. }
      split; [|unfold parent; lia].
      split; [eapply range_ok_rearranged; eassumption|].
      split; [eapply rearranged_trans; eassumption|].
      split; [intros H0; eapply index_ok_swapped; eauto; unfold parent; lia|].
      eapply up_inv_swap; eassumption.
    + split; [assumption|]. split; [assumption|].
      eapply up_inv_done; [eassumption|].
      intros _ u v Hu Hv. congruence.
  - split; [assumption|]. split; [assumption|].
    eapply up_inv_done; [eassumption|]. lia.
Qed.

Lemma bubble_up_spec b e it s :
  range_ok b e s -> b <= it < e -> up_inv comp b e s (it - b) ->
  exists s', bubble_up comp b e it s = Ret s' /\
             rearranged b e s s' /\
             (index_ok b e s -> index_ok b e s') /\
             heap_prop comp b e s'.
Proof.
  intros Hr Hit Hup. unfold bubble_up.
  destruct (Z.ltb_spec it b); [lia|].
  destruct (Z.leb_spec e it); [lia|]. simpl.
  assert (Hint : int (it - b) = Ret (it - b)).
  { unfold int, INT_MIN, INT_MAX. destruct Hr as (? & ? & ? & Hm).
    unfold MAX_SLOTS in Hm.
    destruct (Z.leb_spec (-2147483648) (it - b)); [|lia].
    destruct (Z.leb_spec (it - b) 2147483647); [|lia]. reflexivity. }
  rewrite Hint. simpl.
  apply bubble_up_loop_spec; [assumption..|lia].
Qed.

Lemma children_loop_spec b e s i :
  range_ok b e s -> 0 <= i < e - b ->
  exists m, loop (children_step comp b (e - b) i s) 3 (2 * i + 1, i) = Ret m /\
            picked comp b e s i m.
Proof.
  intros Hr Hi. pose proof Hr as (Hb & Hbe & He & Hm).
  unfold MAX_SLOTS in Hm.
  destruct (range_ok_slot b e s i Hr Hi) as [x Hx].
  destruct (Z.lt_ge_cases (2 * i + 1) (e - b)) as [H1|H1].
  2:{ exists i. split.
      - simpl. destruct (Z.ltb_spec (2 * i + 1) (e - b)); [lia|reflexivity].
      - left. split; [reflexivity|]. intros c Hc Hp. unfold parent in Hp. lia. }
  destruct (range_ok_slot b e s (2 * i + 1) Hr) as [y1 Hy1]; [lia|].
  assert (Hd : int (2 * i) = Ret (2 * i))
    by (apply int_Ret; unfold INT_MIN, INT_MAX; lia).
  assert (Hh : int (2 * i + 2) = Ret (2 * i + 2))
    by (apply int_Ret; unfold INT_MIN, INT_MAX; lia).
  assert (Hc3 : int (2 * i + 2 + 1) = Ret (2 * i + 2 + 1))
    by (apply int_Ret; unfold INT_MIN, INT_MAX; lia).
  cbn [loop]. unfold children_step.
  destruct (Z.ltb_spec (2 * i + 1) (e - b)); [|lia].
  rewrite Hd. cbn [bind]. rewrite Hh. cbn [bind].
  destruct (Z.leb_spec (2 * i + 1) (2 * i + 2)); [|lia].
  rewrite (deref_Some _ _ _ Hx), (deref_Some _ _ _ Hy1). cbn [bind].
  replace (2 * i + 1 + 1) with (2 * i + 2) by lia.
  rewrite Hh. cbn [bind].
  destruct (Z.lt_ge_cases (2 * i + 2) (e - b)) as [H2|H2].
  2:{ destruct (Z.ltb_spec (2 * i + 2) (e - b)); [lia|]. cbn [bind].
      eexists. split; [reflexivity|].
      destruct (comp x y1) eqn:E1.
      - right. split; [lia|]. split; [unfold parent; lia|].
        exists x, y1. repeat split; try assumption.
        intros c y Hc Hp Hne. unfold parent in Hp. lia.
      - left. split; [reflexivity|]. intros c Hc Hp u v Hu Hv.
        assert (c = 2 * i + 1) by (unfold parent in Hp; lia). subst c.
        congruence. }
  destruct (range_ok_slot b e s (2 * i + 2) Hr) as [y2 Hy2]; [lia|].
  destruct (Z.ltb_spec (2 * i + 2) (e - b)); [|lia].
  destruct (Z.leb_spec (2 * i + 2) (2 * i + 2)); [|lia].
  assert (Hmid : exists z, slot (b + (if comp x y1 then 2 * i + 1 else i)) s
                           = Some z /\ z = if comp x y1 then y1 else x).
  { destruct (comp x y1); eauto. }
  destruct Hmid as (z & Hz & Hzdef).
  rewrite (deref_Some _ _ _ Hz), (deref_Some _ _ _ Hy2). cbn [bind].
  rewrite Hc3. cbn [bind].
  assert (Hexit : (2 * i + 2 + 1 <? e - b) = false \/
                  ((2 * i + 2 + 1 <? e - b) = true /\
                   (2 * i + 2 + 1 <=? 2 * i + 2) = false)).
  { destruct (Z.ltb_spec (2 * i + 2 + 1) (e - b)); [right|left]; auto.
    split; [reflexivity|]. apply Z.leb_gt. lia. }
  assert (Hkids : forall c, 0 < c < e - b -> parent c = i ->
                            c = 2 * i + 1 \/ c = 2 * i + 2).
  { intros c Hc Hp. unfold parent in Hp. lia. }
  eexists. split.
  { destruct Hexit as [-> | [-> ->]]; reflexivity. }
  destruct (comp x y1) eqn:E1; subst z.
  - destruct (comp y1 y2) eqn:E2.
    + right. split; [lia|]. split; [unfold parent; lia|].
      exists x, y2. split; [assumption|]. split; [assumption|].
      split; [eapply (sw_trans _ Hsw); eassumption|].
      intros c y Hc Hp Hne Hy.
      destruct (Hkids c Hc Hp) as [-> | ->]; [|congruence].
      assert (y = y1) by congruence. subst y.
      eapply sw_asym; eassumption.
    + right. split; [lia|]. split; [unfold parent; lia|].
      exists x, y1. split; [assumption|]. split; [assumption|].
      split; [assumption|].
      intros c y Hc Hp Hne Hy.
      destruct (Hkids c Hc Hp) as [-> | ->]; [congruence|].
      assert (y = y2) by congruence. subst y. exact E2.
  - destruct (comp x y2) eqn:E2.
    + right. split; [lia|]. split; [unfold parent; lia|].
      exists x, y2. split; [assumption|]. split; [assumption|].
      split; [assumption|].
      intros c y Hc Hp Hne Hy.
      destruct (Hkids c Hc Hp) as [-> | ->]; [|congruence].
      assert (y = y1) by congruence. subst y.
      eapply sw_trans_neg; eassumption.
    + left. split; [reflexivity|]. intros c Hc Hp u v Hu Hv.
      assert (u = x) by congruence. subst u.
      destruct (Hkids c Hc Hp) as [-> | ->]; congruence.
Qed.

Lemma down_inv_swap lo b e s i m :
  down_inv comp lo b e s i -> picked comp b e s i m -> m <> i ->
  down_inv comp lo b e (swapped (b + i) (b + m) s) m.
Proof.
  intros (Hi & H1 & H2) [[-> _]|(Hm & Hpm & x & z & Hx & Hz & Hc & Hkids)] Hne;
    [congruence|].
  split; [lia|]. split.
  - intros j Hj Hlo Hpj u v Hu Hv.
    rewrite (slot_swapped _ _ _ _ _ _ Hx Hz) in Hu.
    rewrite (slot_swapped _ _ _ _ _ _ Hx Hz) in Hv.
    destruct (decide (b + parent j = b + m)); [lia|].
    destruct (decide (b + j = b + m)) as [E|N].
    + assert (j = m) by lia. subst j.
      destruct (decide (b + parent m = b + i)); [|lia].
      simplify_eq. eapply sw_asym; eassumption.
    + destruct (decide (b + j = b + i)) as [E1|N1].
      * assert (j = i) by lia. subst j.
        destruct (decide (b + parent i = b + i)); [unfold parent in *; lia|].
        simplify_eq. eapply (H2 ltac:(lia) Hlo m); eauto.
      * destruct (decide (b + parent j = b + i)) as [E2|N2].
        -- simplify_eq. eapply (Hkids j); eauto; lia.
        -- eapply (H1 j); eauto. lia.
  - intros Hm0 Hlo c Hc0 Hpc u v Hu Hv.
    rewrite (slot_swapped _ _ _ _ _ _ Hx Hz) in Hu.
    rewrite (slot_swapped _ _ _ _ _ _ Hx Hz) in Hv.
    destruct (decide (b + parent m = b + m)); [unfold parent in *; lia|].
    destruct (decide (b + parent m = b + i)); [|lia].
    destruct (decide (b + c = b + m)); [unfold parent in *; lia|].
    destruct (decide (b + c = b + i)); [unfold parent in *; lia|].
    simplify_eq. eapply (H1 c); eauto; unfold parent in *; lia.
Qed.

Lemma down_inv_done lo b e s i :
  down_inv comp lo b e s i -> picked comp b e s i i -> heap_from comp lo b e s.
Proof.
  intros (Hi & H1 & _) [[_ Hk]|(Hm & Hpm & _)] j Hj Hlo;
    [|unfold parent in *; lia].
  destruct (decide (parent j = i)) as [E|N].
  - rewrite E. apply Hk; assumption.
  - apply H1; assumption.
Qed.

Lemma bubble_down_loop_spec lo b e s0 i0 fuel :
  range_ok b e s0 -> down_inv comp lo b e s0 i0 ->
  (Z.to_nat (e - b - i0) <= fuel)%nat ->
  exists s', loop (bubble_down_step comp b (e - b)) fuel (s0, i0) = Ret s' /\
             rearranged b e s0 s' /\
             (index_ok b e s0 -> index_ok b e s') /\
             heap_from comp lo b e s'.
Proof.
  intros Hr Hinv Hfuel.
  apply (loop_inv (bubble_down_step comp b (e - b))
           (fun st => range_ok b e (fst st) /\ rearranged b e s0 (fst st) /\
                      (index_ok b e s0 -> index_ok b e (fst st)) /\
                      down_inv comp lo b e (fst st) (snd st))
           (fun s' => rearranged b e s0 s' /\
                      (index_ok b e s0 -> index_ok b e s') /\
                      heap_from comp lo b e s')
           (fun st => Z.to_nat (e - b - snd st - 1))).
  2:{ simpl. split; [assumption|]. split; [apply rearranged_refl|].
      split; [tauto|assumption]. }
  2:{ simpl. destruct Hinv as (Hi & _). lia. }
  intros [s i] (Hrs & Hre & Hix & Hdn). cbn [fst snd] in *.
  unfold bubble_down_step.
  pose proof Hdn as (Hi & _ & _).
  pose proof Hrs as (Hb & Hbe & He & Hm). unfold MAX_SLOTS in Hm.
  destruct (Z.ltb_spec i (e - b)); [|lia].
  rewrite (int_Ret (2 * i)) by (unfold INT_MIN, INT_MAX; lia). cbn [bind].
  rewrite (int_Ret (2 * i + 1)) by (unfold INT_MIN, INT_MAX; lia). cbn [bind].
  destruct (children_loop_spec b e s i Hrs Hi) as (m & -> & Hpick).
  cbn [bind].
  destruct (Z.eqb_spec m i) as [->|Hne].
  - split; [assumption|]. split; [assumption|].
    eapply down_inv_done; eassumption.
  - pose proof Hpick as [[-> _]|(Hm0 & Hpm & x & z & Hx & Hz & Hc & _)];
      [congruence|].
    rewrite (swap_both_bind _ _ _ _ _ _ Hx Hz). cbn [fst snd].
    assert (Hsw' : rearranged b e s (swapped (b + i) (b + m) s)).
    { eapply rearranged_swapped; try eassumption; lia. }
    split; [|unfold parent in *; lia].
    split; [eapply range_ok_rearranged; eassumption|].
    split; [eapply rearranged_trans; eassumption|].
    split; [intros H0'; eapply index_ok_swapped; eauto; lia|].
    eapply down_inv_swap; eassumption.
Qed.

Lemma bubble_down_spec lo b e it s :
  range_ok b e s -> b <= it < e -> down_inv comp lo b e s (it - b) ->
  exists s', bubble_down comp b e it s = Ret s' /\
             rearranged b e s s' /\
             (index_ok b e s -> index_ok b e s') /\
             heap_from comp lo b e s'.
Proof.
  intros Hr Hit Hdn. unfold bubble_down.
  destruct (Z.ltb_spec it b); [lia|].
  destruct (Z.leb_spec e it); [lia|]. simpl.
  pose proof Hr as (Hb & Hbe & He & Hm). unfold MAX_SLOTS in Hm.
  rewrite (int_Ret (it - b)) by (unfold INT_MIN, INT_MAX; lia). cbn [bind].
  rewrite (int_Ret (e - b)) by (unfold INT_MIN, INT_MAX; lia). cbn [bind].
  apply bubble_down_loop_spec; [assumption..|lia].
Qed.

Lemma heap_from_0 b e s : heap_from comp 0 b e s <-> heap_prop comp b e s.
Proof.
  split; intros Hh j Hj; [|intros _]; apply Hh; try assumption.
  unfold parent. lia.
Qed.

End Sift.

(** ** The entries of a range *)

Section Ranges.

Context {P K : Type} `{EqDecision K}.

Implicit Types (s : store P K) (x y : P * K) (it p q b e i j : Z) (k : K).

Lemma slot_lookup it s : 0 <= it -> slot it s = elems s !! Z.to_nat it.
Proof. intros Hit. unfold slot. destruct (Z.leb_spec 0 it); [reflexivity|lia]. Qed.

Lemma range_lookup b e s i :
  0 <= b -> 0 <= i < e - b ->
  range b e s !! Z.to_nat i = slot (b + i) s.
Proof.
  intros Hb Hi. unfold range.
  rewrite lookup_take_lt by lia. rewrite lookup_drop.
  rewrite slot_lookup by lia. f_equal. lia.
Qed.

Lemma elem_of_range b e s x :
  0 <= b ->
  x ∈ range b e s <-> exists i, 0 <= i < e - b /\ slot (b + i) s = Some x.
Proof.
  intros Hb. rewrite list_elem_of_lookup. split.
  - intros [n Hn]. unfold range in Hn.
    apply lookup_take_Some in Hn as [Hn Hlt].
    rewrite lookup_drop in Hn.
    exists (Z.of_nat n). split; [lia|].
    rewrite slot_lookup by lia. rewrite <- Hn. f_equal. lia.
  - intros (i & Hi & Hx). exists (Z.to_nat i).
    rewrite range_lookup by assumption. exact Hx.
Qed.

Lemma elems_split b e s :
  0 <= b <= e ->
  elems s =
  take (Z.to_nat b) (elems s) ++ range b e s ++ drop (Z.to_nat e) (elems s).
Proof.
  intros Hbe. unfold range.
  rewrite <- (take_drop (Z.to_nat b) (elems s)) at 1. f_equal.
  rewrite <- (take_drop (Z.to_nat (e - b)) (drop (Z.to_nat b) (elems s))) at 1.
  f_equal. rewrite drop_drop. f_equal. lia.
Qed.

Lemma rearranged_range b e s s' :
  0 <= b <= e -> rearranged b e s s' ->
  Permutation (range b e s) (range b e s').
Proof.
  intros Hbe (Hl & Hp & Ho).
  rewrite (elems_split b e s Hbe), (elems_split b e s' Hbe) in Hp.
  assert (Ht : take (Z.to_nat b) (elems s') = take (Z.to_nat b) (elems s)).
  { apply list_eq. intros n. rewrite !lookup_take.
    destruct (decide (n < Z.to_nat b)%nat); [|reflexivity].
    specialize (Ho (Z.of_nat n) ltac:(lia)).
    rewrite !slot_lookup in Ho by lia. rewrite Nat2Z.id in Ho. exact Ho. }
  assert (Hd : drop (Z.to_nat e) (elems s') = drop (Z.to_nat e) (elems s)).
  { apply list_eq. intros n. rewrite !lookup_drop.
    specialize (Ho (e + Z.of_nat n) ltac:(lia)).
    rewrite !slot_lookup in Ho by lia.
    replace (Z.to_nat (e + Z.of_nat n)) with (Z.to_nat e + n)%nat in Ho by lia.
    exact Ho. }
  rewrite Ht, Hd in Hp.
  apply Permutation_app_inv_l in Hp. apply Permutation_app_inv_r in Hp.
  exact Hp.
Qed.

Lemma rearranged_slot b e s s' i x :
  0 <= b <= e -> rearranged b e s s' ->
  0 <= i < e - b -> slot (b + i) s' = Some x ->
  exists i', 0 <= i' < e - b /\ slot (b + i') s = Some x.
Proof.
  intros Hbe Hre Hi Hx.
  apply (elem_of_range b e s x); [lia|].
  rewrite (rearranged_range b e s s' Hbe Hre).
  apply elem_of_range; [lia|]. eauto.
Qed.

Lemma rearranged_live b e s s' k :
  0 <= b <= e -> rearranged b e s s' -> live b e s' k -> live b e s k.
Proof.
  intros Hbe Hre (i & x & Hi & Hx & Hk).
  destruct (rearranged_slot b e s s' i x Hbe Hre Hi Hx) as (i' & Hi' & Hx').
  exists i', x. auto.
Qed.

Lemma range_snoc b e s x :
  0 <= b < e -> slot (e - 1) s = Some x ->
  range b e s = range b (e - 1) s ++ [x].
Proof.
  intros Hbe Hx. unfold range.
  replace (Z.to_nat (e - b)) with (S (Z.to_nat (e - 1 - b))) by lia.
  apply take_S_r. rewrite lookup_drop.
  rewrite slot_lookup in Hx by lia. rewrite <- Hx. f_equal. lia.
Qed.

End Ranges.

Section Top.

Context {P K : Type} `{EqDecision K} (comp : P * K -> P * K -> bool).
Hypothesis Hsw : strict_weak comp.

Implicit Types (s : store P K) (x y : P * K) (it p q b e i j : Z) (k : K).

Lemma root_top b e s r :
  range_ok b e s -> heap_prop comp b e s -> slot b s = Some r ->
  forall j z, 0 <= j < e - b -> slot (b + j) s = Some z -> comp r z = false.
Proof.
  intros Hr Hh Hroot j z Hj. pose proof Hj as [Hj0 _]. revert Hj z.
  pattern j. apply Z_lt_induction; [|exact Hj0]. clear j Hj0.
  intros j IH Hj z Hz.
  destruct (decide (j = 0)) as [->|Hne].
  - rewrite Z.add_0_r in Hz. assert (z = r) by congruence. subst z.
    apply (sw_irrefl _ Hsw).
  - destruct (range_ok_slot b e s (parent j) Hr) as [u Hu];
      [unfold parent; lia|].
    eapply (sw_negtrans _ Hsw).
    + apply (IH (parent j)); [unfold parent; lia|unfold parent; lia|exact Hu].
    + apply (Hh j); [lia|exact Hu|exact Hz].
Qed.

End Top.

(** ** Index cells at the ends of a range *)

Section Cells.

Context {P K : Type} `{EqDecision K}.

Implicit Types (s : store P K) (x y : P * K) (it p q b e i j : Z) (k : K).

(** Leaving the last slot out of the range and marking its key absent. *)
Lemma index_ok_shrink b e s r :
  index_ok b e s -> b < e -> slot (e - 1) s = Some r ->
  index_ok b (e - 1) (cell_set (snd r) (-1) s).
Proof.
  intros [HA HB] Hbe Hr.
  assert (Hr' : slot (b + (e - b - 1)) s = Some r)
    by (replace (b + (e - b - 1)) with (e - 1) by lia; exact Hr).
  pose proof (HA (e - b - 1) r ltac:(lia) Hr') as Hir.
  split.
  - intros i z Hi Hz. rewrite slot_cell_set in Hz. rewrite index_cell_set.
    pose proof (HA i z ltac:(lia) Hz) as Hiz.
    destruct (decide (snd z = snd r)) as [E|N]; [|exact Hiz].
    rewrite E in Hiz. lia.
  - intros k Hk. rewrite index_cell_set.
    destruct (decide (k = snd r)) as [E|N]; [reflexivity|].
    apply HB. intros (i & z & Hi & Hz & Hkz). apply Hk.
    destruct (decide (i = e - b - 1)) as [->|Hne].
    + exfalso. apply N. rewrite <- Hkz. congruence.
    + exists i, z. split; [lia|]. split; [|exact Hkz].
      rewrite slot_cell_set. exact Hz.
Qed.

(** Taking the slot past the range in, with a key that was not live. *)
Lemma index_ok_grow b e s x :
  index_ok b (e - 1) s -> b < e -> slot (e - 1) s = Some x ->
  ~ live b (e - 1) s (snd x) ->
  index_ok b e (cell_set (snd x) (e - b - 1) s).
Proof.
  intros [HA HB] Hbe Hx Hfresh. split.
  - intros i z Hi Hz. rewrite slot_cell_set in Hz. rewrite index_cell_set.
    destruct (decide (i = e - b - 1)) as [->|Hne].
    + replace (b + (e - b - 1)) with (e - 1) in Hz by lia.
      assert (z = x) by congruence. subst z.
      destruct (decide (snd x = snd x)); [reflexivity|congruence].
    + destruct (decide (snd z = snd x)) as [E|N].
      * exfalso. apply Hfresh. exists i, z. split; [lia|]. auto.
      * apply HA; [lia|exact Hz].
  - intros k Hk. rewrite index_cell_set.
    destruct (decide (k = snd x)) as [->|N].
    + exfalso. apply Hk. exists (e - b - 1), x. split; [lia|].
      split; [|reflexivity]. rewrite slot_cell_set.
      replace (b + (e - b - 1)) with (e - 1) by lia. exact Hx.
    + apply HB. intros (i & z & Hi & Hz & Hkz). apply Hk.
      exists i, z. split; [lia|]. split; [|exact Hkz].
      rewrite slot_cell_set. exact Hz.
Qed.

(** Overwriting the priority of a live entry. *)
Lemma index_ok_assign b e s i x v :
  index_ok b e s -> 0 <= i < e - b -> slot (b + i) s = Some x ->
  index_ok b e
    {| elems := <[Z.to_nat (b + i) := (v, snd x)]> (elems s);
       indexer := indexer s |}.
Proof.
  intros [HA HB] Hi Hx.
  pose proof (slot_Some _ _ _ Hx) as Hin. unfold in_store in Hin.
  split.
  - intros j z Hj. rewrite (slot_insert _ _ _ _ _ (indexer s)) by exact Hin.
    simpl. destruct (decide (b + j = b + i)) as [E|N].
    + intros [= <-]. simpl. assert (j = i) by lia. subst j.
      apply (HA i x Hi Hx).
    + intros Hz. apply (HA j z Hj). destruct s; exact Hz.
  - intros k Hk. simpl. apply HB. intros (j & z & Hj & Hz & Hkz). apply Hk.
    destruct (decide (j = i)) as [->|N].
    + exists i, (v, snd x). split; [exact Hj|]. split.
      * rewrite (slot_insert _ _ _ _ _ (indexer s)) by exact Hin.
        destruct (decide (b + i = b + i)); [reflexivity|congruence].
      * simpl. congruence.
    + exists j, z. split; [exact Hj|]. split; [|exact Hkz].
      rewrite (slot_insert _ _ _ _ _ (indexer s)) by exact Hin.
      destruct (decide (b + j = b + i)); [lia|]. destruct s; exact Hz.
Qed.

Lemma live_range b e s k :
  0 <= b -> live b e s k <-> k ∈ (snd <$> range b e s).
Proof.
  intros Hb. rewrite list_elem_of_fmap. split.
  - intros (i & x & Hi & Hx & Hk). exists x. split; [congruence|].
    apply elem_of_range; eauto.
  - intros (x & Hk & Hx). apply elem_of_range in Hx as (i & Hi & Hx); [|lia].
    exists i, x. auto.
Qed.

Lemma live_dec b e s k : 0 <= b -> live b e s k \/ ~ live b e s k.
Proof.
  intros Hb. rewrite (live_range b e s k Hb).
  destruct (decide (k ∈ (snd <$> range b e s))); auto.
Qed.

End Cells.

(** ** Replacing the entry of one slot of a heap *)

Section Replace.

Context {P K : Type} `{EqDecision K} (comp : P * K -> P * K -> bool).
Hypothesis Hsw : strict_weak comp.

Implicit Types (s : store P K) (x y : P * K) (it p q b e i j : Z) (k : K).

Lemma heap_prop_narrow b e e' s :
  heap_prop comp b e s -> e' <= e -> heap_prop comp b e' s.
Proof. intros Hh He j Hj. apply Hh. lia. Qed.

Lemma heap_prop_same b e s s' :
  heap_prop comp b e s ->
  (forall j, 0 <= j < e - b -> slot (b + j) s' = slot (b + j) s) ->
  heap_prop comp b e s'.
Proof.
  intros Hh Hsame j Hj u w Hu Hw.
  rewrite Hsame in Hu by (unfold parent; lia). rewrite Hsame in Hw by lia.
  eapply Hh; eassumption.
Qed.

Lemma rearranged_cell_set b e s k v : rearranged b e s (cell_set k v s).
Proof. split; [reflexivity|]. split; [reflexivity|]. intros; reflexivity. Qed.

Section OneSlot.

(** [s1] is [s] with the entry of slot [i] replaced: [old] by [cur]. *)
Variables (b e : Z) (s s1 : store P K) (i : Z) (old cur : P * K).
Hypothesis Hheap : heap_prop comp b e s.
Hypothesis Hi : 0 <= i < e - b.
Hypothesis Hold : slot (b + i) s = Some old.
Hypothesis Hcur : slot (b + i) s1 = Some cur.
Hypothesis Hrest :
  forall j, 0 <= j < e - b -> j <> i -> slot (b + j) s1 = slot (b + j) s.

Lemma replaced_grand c :
  0 < i -> 0 < c < e - b -> parent c = i -> ok_pair comp b s1 (parent i) c.
Proof.
  intros Hpos Hc Hpc u w Hu Hw.
  rewrite Hrest in Hu by (unfold parent in *; lia).
  rewrite Hrest in Hw by (unfold parent in *; lia).
  eapply (sw_negtrans _ Hsw).
  - eapply (Hheap i); [lia|exact Hu|exact Hold].
  - eapply (Hheap c); [lia| |exact Hw]. rewrite Hpc. exact Hold.
Qed.

Lemma replaced_down : comp cur old = true -> down_inv comp 0 b e s1 i.
Proof.
  intros Hc. split; [exact Hi|]. split.
  - intros j Hj _ Hpj u w Hu Hw.
    rewrite Hrest in Hu by (unfold parent in *; lia).
    destruct (decide (j = i)) as [->|Hne].
    + assert (w = cur) by congruence. subst w.
      eapply (sw_neg_trans _ Hsw); [|exact Hc].
      eapply (Hheap i); [lia|exact Hu|exact Hold].
    + rewrite Hrest in Hw by lia. eapply (Hheap j); eassumption.
  - intros Hpos _ c Hc0 Hpc. apply replaced_grand; assumption.
Qed.

Lemma replaced_up : comp old cur = true -> up_inv comp b e s1 i.
Proof.
  intros Hc. split; [exact Hi|]. split.
  - intros j Hj Hne u w Hu Hw. rewrite Hrest in Hw by lia.
    destruct (decide (parent j = i)) as [E|N].
    + rewrite E in Hu. assert (u = cur) by congruence. subst u.
      eapply (sw_trans_neg _ Hsw); [exact Hc|].
      eapply (Hheap j); [lia| |exact Hw]. rewrite E. exact Hold.
    + rewrite Hrest in Hu by (unfold parent in *; lia).
      eapply (Hheap j); eassumption.
  - intros Hpos c Hc0 Hpc. apply replaced_grand; assumption.
Qed.

Lemma replaced_level :
  comp cur old = false -> comp old cur = false -> heap_prop comp b e s1.
Proof.
  intros Hc1 Hc2 j Hj u w Hu Hw.
  destruct (decide (j = i)) as [->|Hne].
  - assert (w = cur) by congruence. subst w.
    rewrite Hrest in Hu by (unfold parent in *; lia).
    eapply (sw_negtrans _ Hsw); [|exact Hc2].
    eapply (Hheap i); [lia|exact Hu|exact Hold].
  - rewrite Hrest in Hw by lia.
    destruct (decide (parent j = i)) as [E|N].
    + rewrite E in Hu. assert (u = cur) by congruence. subst u.
      eapply (sw_negtrans _ Hsw); [exact Hc1|].
      eapply (Hheap j); [lia| |exact Hw]. rewrite E. exact Hold.
    + rewrite Hrest in Hu by (unfold parent in *; lia).
      eapply (Hheap j); eassumption.
Qed.

End OneSlot.

End Replace.

(** ** The public operations on a heap *)

Section Operations.

Context {P K : Type} `{EqDecision K} (comp : P * K -> P * K -> bool).
Hypothesis Hsw : strict_weak comp.

Implicit Types (s : store P K) (x y : P * K) (it p q b e i j : Z) (k : K).

Lemma range_ok_narrow b e e' s :
  range_ok b e s -> b <= e' <= e -> range_ok b e' s.
Proof. unfold range_ok. lia. Qed.

Lemma absent_not_live b e s k :
  index_ok b e s -> indexer s k = -1 -> ~ live b e s k.
Proof.
  intros [HA _] Hk (i & x & Hi & Hx & <-).
  rewrite (HA i x Hi Hx) in Hk. lia.
Qed.

Lemma bubble_down_outside b e it s :
  ~ (b <= it < e) -> bubble_down comp b e it s = Ret s.
Proof.
  intros Hit. unfold bubble_down.
  destruct (Z.ltb_spec it b); [reflexivity|].
  destruct (Z.leb_spec e it); [reflexivity|lia].
Qed.

(** The state in which [pop] and [pop_key] call the rebalance primitive:
    slot [i] exchanged with the last slot, the key moved out marked
    absent. *)
Lemma swap_out b e s i x y0 :
  range_ok b e s -> index_ok b e s -> 0 <= i < e - b ->
  slot (b + i) s = Some x -> slot (e - 1) s = Some y0 ->
  let s3 := cell_set (snd x) (-1) (swapped (b + i) (e - 1) s) in
  slot (e - 1) s3 = Some x /\
  (i < e - b - 1 -> slot (b + i) s3 = Some y0) /\
  (forall j, 0 <= j < e - b - 1 -> j <> i -> slot (b + j) s3 = slot (b + j) s) /\
  index_ok b (e - 1) s3 /\
  rearranged b e s s3 /\
  indexer s3 (snd x) = -1.
Proof.
  intros Hr Hix Hi Hx Hy s3.
  assert (Hlast : slot (e - 1) (swapped (b + i) (e - 1) s) = Some x).
  { rewrite (slot_swapped _ _ _ _ _ _ Hx Hy).
    destruct (decide (e - 1 = e - 1)); [reflexivity|congruence]. }
  split; [exact Hlast|]. split; [|split; [|split; [|split]]].
  - intros Hlt. unfold s3. rewrite slot_cell_set.
    rewrite (slot_swapped _ _ _ _ _ _ Hx Hy).
    destruct (decide (b + i = e - 1)); [lia|].
    destruct (decide (b + i = b + i)); [reflexivity|congruence].
  - intros j Hj Hne. unfold s3. rewrite slot_cell_set.
    rewrite (slot_swapped _ _ _ _ _ _ Hx Hy).
    destruct (decide (b + j = e - 1)); [lia|].
    destruct (decide (b + j = b + i)); [lia|reflexivity].
  - apply index_ok_shrink; [|lia|exact Hlast].
    replace (e - 1) with (b + (e - b - 1)) in Hy |- * by lia.
    eapply index_ok_swapped; eauto. lia.
  - eapply rearranged_trans; [|apply rearranged_cell_set].
    eapply rearranged_swapped; eauto; lia.
  - unfold s3. rewrite index_cell_set.
    destruct (decide (snd x = snd x)); [reflexivity|congruence].
Qed.

Lemma push_spec b e s x :
  range_ok b e s -> b < e ->
  heap_prop comp b (e - 1) s -> index_ok b (e - 1) s ->
  slot (e - 1) s = Some x -> ~ live b (e - 1) s (snd x) ->
  exists s',
    push comp b e s = Ret s' /\
    bubble_up comp b e (e - 1) (cell_set (snd x) (e - b - 1) s) = Ret s' /\
    rearranged b e s s' /\ heap_prop comp b e s' /\ index_ok b e s'.
Proof.
  intros Hr Hbe Hh Hix Hx Hfresh.
  pose proof Hr as (Hb & _ & He & Hm). unfold MAX_SLOTS in Hm.
  set (s1 := cell_set (snd x) (e - b - 1) s).
  destruct (bubble_up_spec comp Hsw b e (e - 1) s1) as (s' & Hs' & Hre & Hix' & Hh').
  - exact Hr.
  - lia.
  - split; [lia|]. split.
    + intros j Hj Hne u w Hu Hw. eapply (Hh j); [lia| |]; eassumption.
    + intros _ c Hc Hpc. unfold parent in Hpc. lia.
  - exists s'. split; [|split; [exact Hs'|split; [|split]]].
    + unfold push. destruct (Z.leb_spec e b); [lia|].
      rewrite (deref_Some _ _ _ Hx). cbn [bind].
      rewrite int_Ret by (unfold INT_MIN, INT_MAX; lia). cbn [bind].
      exact Hs'.
    + eapply rearranged_trans; [apply rearranged_cell_set|exact Hre].
    + exact Hh'.
    + apply Hix'. apply index_ok_grow; assumption.
Qed.

Lemma pop_spec b e s r :
  range_ok b e s -> b < e ->
  heap_prop comp b e s -> index_ok b e s -> slot b s = Some r ->
  exists s',
    pop comp b e s = Ret s' /\
    bubble_down comp b (e - 1) b
      (cell_set (snd r) (-1) (swapped b (e - 1) s)) = Ret s' /\
    rearranged b e s s' /\
    heap_prop comp b (e - 1) s' /\ index_ok b (e - 1) s' /\
    slot (e - 1) s' = Some r /\ indexer s' (snd r) = -1 /\
    (forall j z, 0 <= j < e - b - 1 -> slot (b + j) s' = Some z ->
                 comp r z = false).
Proof.
  intros Hr Hbe Hh Hix Hroot.
  pose proof Hr as (Hb & _ & He & Hm).
  destruct (range_ok_slot b e s (e - b - 1) Hr) as [y0 Hy0]; [lia|].
  replace (b + (e - b - 1)) with (e - 1) in Hy0 by lia.
  assert (Hroot' : slot (b + 0) s = Some r) by (rewrite Z.add_0_r; exact Hroot).
  destruct (swap_out b e s 0 r y0 Hr Hix ltac:(lia) Hroot' Hy0)
    as (Hlast & Hfirst & Hrest & Hix3 & Hre3 & Habs).
  rewrite Z.add_0_r in *.
  set (s3 := cell_set (snd r) (-1) (swapped b (e - 1) s)) in *.
  assert (Hr3 : range_ok b (e - 1) s3).
  { eapply range_ok_narrow; [eapply range_ok_rearranged; eassumption|lia]. }
  assert (Hcall : pop comp b e s = bubble_down comp b (e - 1) b s3).
  { unfold pop. destruct (Z.leb_spec e b); [lia|]. cbv zeta.
    rewrite (swap_both_bind _ _ _ _ _ _ Hroot Hy0).
    assert (Hl : slot (e - 1) (swapped b (e - 1) s) = Some r) by exact Hlast.
    rewrite (deref_Some _ _ _ Hl). reflexivity. }
  assert (Hdown : exists s', bubble_down comp b (e - 1) b s3 = Ret s' /\
                             rearranged b (e - 1) s3 s' /\
                             index_ok b (e - 1) s' /\
                             heap_prop comp b (e - 1) s').
  { destruct (decide (e - 1 = b)) as [E|N].
    - exists s3. split; [apply bubble_down_outside; lia|].
      split; [apply rearranged_refl|]. split; [exact Hix3|].
      intros j Hj. lia.
    - destruct (bubble_down_spec comp Hsw 0 b (e - 1) b s3 Hr3)
        as (s' & Hs' & Hre & Hix' & Hh'); [lia| |].
      + replace (b - b) with 0 by lia. split; [lia|]. split; [|lia].
        intros j Hj _ Hpj u w Hu Hw.
        rewrite Hrest in Hu by (unfold parent in *; lia).
        rewrite Hrest in Hw by (unfold parent in *; lia).
        eapply (Hh j); [lia| |]; eassumption.
      + exists s'. split; [exact Hs'|]. split; [exact Hre|].
        split; [auto|]. apply heap_from_0; assumption. }
  destruct Hdown as (s' & Hs' & Hre & Hix' & Hh').
  exists s'. split; [congruence|]. split; [exact Hs'|].
  split; [eapply rearranged_trans; [exact Hre3|];
          eapply rearranged_wider; [| |exact Hre]; lia|].
  split; [exact Hh'|]. split; [exact Hix'|].
  assert (Hlast' : slot (e - 1) s' = Some r).
  { destruct Hre as (_ & _ & Ho). rewrite Ho by lia. exact Hlast. }
  split; [exact Hlast'|]. split.
  - apply Hix'. intros Hl.
    eapply (absent_not_live b (e - 1) s3); [exact Hix3|exact Habs|].
    eapply rearranged_live; [|exact Hre|exact Hl]. lia.
  - intros j z Hj Hz.
    destruct (rearranged_slot b (e - 1) s3 s' j z ltac:(lia) Hre ltac:(lia) Hz)
      as (j' & Hj' & Hz').
    destruct (decide (j' = 0)) as [->|Hne].
    + rewrite Z.add_0_r in Hz'. rewrite Hfirst in Hz' by lia.
      eapply (root_top comp Hsw b e s r Hr Hh Hroot (e - b - 1)); [lia|].
      replace (b + (e - b - 1)) with (e - 1) by lia. congruence.
    + rewrite Hrest in Hz' by lia.
      eapply (root_top comp Hsw b e s r Hr Hh Hroot j'); [lia|exact Hz'].
Qed.

Lemma update_spec b e s k v i x :
  range_ok b e s -> heap_prop comp b e s -> index_ok b e s ->
  0 <= i < e - b -> slot (b + i) s = Some x -> snd x = k ->
  exists s',
    update comp b e k v s = Ret (s', true) /\
    heap_prop comp b e s' /\ index_ok b e s' /\
    length (elems s') = length (elems s).
Proof.
  intros Hr Hh Hix Hi Hx Hk.
  pose proof Hr as (Hb & _ & He & Hm).
  pose proof Hix as [HA _]. pose proof (HA i x Hi Hx) as Hidx.
  rewrite Hk in Hidx.
  set (s1 := {| elems := <[Z.to_nat (b + i) := (v, snd x)]> (elems s);
                indexer := indexer s |}).
  pose proof (slot_Some _ _ _ Hx) as Hin.
  assert (Hcur : slot (b + i) s1 = Some (v, snd x)).
  { unfold s1. rewrite (slot_insert _ _ _ _ _ (indexer s)) by exact Hin.
    destruct (decide (b + i = b + i)); [reflexivity|congruence]. }
  assert (Hrest : forall j, 0 <= j < e - b -> j <> i ->
                            slot (b + j) s1 = slot (b + j) s).
  { intros j Hj Hne. unfold s1.
    rewrite (slot_insert _ _ _ _ _ (indexer s)) by exact Hin.
    destruct (decide (b + j = b + i)); [lia|]. destruct s; reflexivity. }
  assert (Hix1 : index_ok b e s1) by (apply index_ok_assign; assumption).
  assert (Hr1 : range_ok b e s1).
  { unfold range_ok, s1. simpl. rewrite length_insert. exact Hr. }
  assert (Hl1 : length (elems s1) = length (elems s)).
  { unfold s1. simpl. apply length_insert. }
  unfold update. destruct (Z.leb_spec e b); [lia|]. cbv zeta.
  rewrite Hidx. destruct (Z.eqb_spec i (-1)); [lia|].
  rewrite (deref_Some _ _ _ Hx). cbn [bind].
  rewrite (assign_Ret _ _ _ Hin). cbn [bind]. fold s1.
  rewrite (deref_Some _ _ _ Hcur). cbn [bind].
  destruct (comp (v, snd x) x) eqn:E1.
  - destruct (bubble_down_spec comp Hsw 0 b e (b + i) s1 Hr1)
      as (s' & -> & Hre & Hix' & Hh'); [lia| |].
    + replace (b + i - b) with i by lia.
      eapply replaced_down; eauto.
    + exists s'. split; [reflexivity|]. split; [apply heap_from_0; assumption|].
      split; [auto|]. destruct Hre as (Hl & _). congruence.
  - destruct (comp x (v, snd x)) eqn:E2.
    + destruct (bubble_up_spec comp Hsw b e (b + i) s1 Hr1)
        as (s' & -> & Hre & Hix' & Hh'); [lia| |].
      * replace (b + i - b) with i by lia.
        eapply replaced_up; eauto.
      * exists s'. split; [reflexivity|]. split; [assumption|].
        split; [auto|]. destruct Hre as (Hl & _). congruence.
    + exists s1. split; [reflexivity|].
      split; [eapply replaced_level; eauto|]. split; assumption.
Qed.

Lemma pop_key_spec b e s k i x :
  range_ok b e s -> heap_prop comp b e s -> index_ok b e s ->
  0 <= i < e - b -> slot (b + i) s = Some x -> snd x = k ->
  exists s',
    pop_key comp b e k s = Ret (s', true) /\
    rearranged b e s s' /\
    heap_prop comp b (e - 1) s' /\ index_ok b (e - 1) s' /\
    slot (e - 1) s' = Some x /\ indexer s' k = -1 /\
    (i = e - b - 1 -> s' = cell_set k (-1) (swapped (e - 1) (e - 1) s)).
Proof.
  intros Hr Hh Hix Hi Hx Hk.
  pose proof Hr as (Hb & _ & He & Hm).
  pose proof Hix as [HA _]. pose proof (HA i x Hi Hx) as Hidx.
  rewrite Hk in Hidx.
  destruct (range_ok_slot b e s (e - b - 1) Hr) as [y0 Hy0]; [lia|].
  replace (b + (e - b - 1)) with (e - 1) in Hy0 by lia.
  destruct (swap_out b e s i x y0 Hr Hix Hi Hx Hy0)
    as (Hlast & Hith & Hrest & Hix3 & Hre3 & Habs).
  rewrite Hk in *.
  set (s3 := cell_set k (-1) (swapped (b + i) (e - 1) s)) in *.
  assert (Hr3 : range_ok b (e - 1) s3).
  { eapply range_ok_narrow; [eapply range_ok_rearranged; eassumption|lia]. }
  assert (Hcur : exists cur, slot (b + i) s3 = Some cur /\
                             (i = e - b - 1 -> cur = x)).
  { destruct (decide (i = e - b - 1)) as [->|N].
    - exists x. split; [|reflexivity].
      replace (b + (e - b - 1)) with (e - 1) by lia. exact Hlast.
    - exists y0. split; [apply Hith; lia|lia]. }
  destruct Hcur as (cur & Hcur & Hcurx).
  assert (Hcall : pop_key comp b e k s =
                  if comp cur x then
                    s4 <- bubble_down comp b (e - 1) (b + i) s3 ;; Ret (s4, true)
                  else if comp x cur then
                    s4 <- bubble_up comp b (e - 1) (b + i) s3 ;; Ret (s4, true)
                  else Ret (s3, true)).
  { unfold pop_key. destruct (Z.leb_spec e b); [lia|]. cbv zeta.
    rewrite Hidx. destruct (Z.eqb_spec i (-1)); [lia|].
    rewrite (deref_Some _ _ _ Hx). cbn [bind].
    rewrite (swap_both_bind _ _ _ _ _ _ Hx Hy0).
    assert (Hl : slot (e - 1) (swapped (b + i) (e - 1) s) = Some x)
      by exact Hlast.
    rewrite (deref_Some _ _ _ Hl). cbn [bind]. rewrite Hk. fold s3.
    rewrite (deref_Some _ _ _ Hcur). reflexivity. }
  assert (Hfin : forall s', rearranged b (e - 1) s3 s' ->
                            index_ok b (e - 1) s' ->
                            rearranged b e s s' /\ slot (e - 1) s' = Some x /\
                            indexer s' k = -1).
  { intros s' Hre Hix'.
    split; [eapply rearranged_trans; [exact Hre3|];
            eapply rearranged_wider; [| |exact Hre]; lia|].
    split.
    - destruct Hre as (_ & _ & Ho). rewrite Ho by lia. exact Hlast.
    - apply Hix'. intros Hl.
      eapply (absent_not_live b (e - 1) s3); [exact Hix3|exact Habs|].
      eapply rearranged_live; [|exact Hre|exact Hl]. lia. }
  destruct (decide (i = e - b - 1)) as [Elast|Nlast].
  - (* the entry removed is the last one: nothing to rebalance *)
    specialize (Hcurx Elast). subst cur.
    rewrite (sw_irrefl _ Hsw) in Hcall.
    exists s3. split; [exact Hcall|].
    destruct (Hfin s3 (rearranged_refl _ _ _) Hix3) as (H1 & H2 & H3).
    split; [exact H1|]. split.
    { eapply heap_prop_same; [eapply heap_prop_narrow; [exact Hh|lia]|].
      intros j Hj. apply Hrest; lia. }
    split; [exact Hix3|]. split; [exact H2|]. split; [exact H3|].
    intros _. unfold s3. replace (b + i) with (e - 1) by lia. reflexivity.
  - assert (Hi' : 0 <= i < e - 1 - b) by lia.
    assert (Hh1 : heap_prop comp b (e - 1) s)
      by (eapply heap_prop_narrow; [exact Hh|lia]).
    assert (Hrest' : forall j, 0 <= j < e - 1 - b -> j <> i ->
                               slot (b + j) s3 = slot (b + j) s).
    { intros j Hj Hne. apply Hrest; lia. }
    rewrite Hcall. destruct (comp cur x) eqn:E1.
    + destruct (bubble_down_spec comp Hsw 0 b (e - 1) (b + i) s3 Hr3)
        as (s' & -> & Hre & Hix' & Hh'); [lia| |].
      * replace (b + i - b) with i by lia.
        eapply (replaced_down comp Hsw b (e - 1) s s3 i x cur); eauto.
      * exists s'. split; [reflexivity|].
        destruct (Hfin s' Hre (Hix' Hix3)) as (H1 & H2 & H3).
        split; [exact H1|]. split; [apply heap_from_0; assumption|].
        split; [auto|]. split; [exact H2|]. split; [exact H3|lia].
    + destruct (comp x cur) eqn:E2.
      * destruct (bubble_up_spec comp Hsw b (e - 1) (b + i) s3 Hr3)
          as (s' & -> & Hre & Hix' & Hh'); [lia| |].
        -- replace (b + i - b) with i by lia.
           eapply (replaced_up comp Hsw b (e - 1) s s3 i x cur); eauto.
        -- exists s'. split; [reflexivity|].
           destruct (Hfin s' Hre (Hix' Hix3)) as (H1 & H2 & H3).
           split; [exact H1|]. split; [assumption|].
           split; [auto|]. split; [exact H2|]. split; [exact H3|lia].
      * exists s3. split; [reflexivity|].
        destruct (Hfin s3 (rearranged_refl _ _ _) Hix3) as (H1 & H2 & H3).
        split; [exact H1|]. split.
        { eapply (replaced_level comp Hsw b (e - 1) s s3 i x cur); eauto. }
        split; [exact Hix3|]. split; [exact H2|]. split; [exact H3|lia].
Qed.

End Operations.

(** ** make and sort *)

Section Bulk.

Context {P K : Type} `{EqDecision K} (comp : P * K -> P * K -> bool).
Hypothesis Hsw : strict_weak comp.

Implicit Types (s : store P K) (x y : P * K) (it p q b e i j : Z) (k : K).

(** The loop of [make], entered at any iterator [it0] below which the heap
    property already holds. *)
Lemma make_loop_spec b e s0 it0 fuel :
  range_ok b e s0 -> b - 1 <= it0 < e ->
  heap_from comp (it0 - b + 1) b e s0 ->
  (Z.to_nat (it0 - b + 1) < fuel)%nat ->
  exists s', loop (make_step comp b e) fuel (s0, it0) = Ret s' /\
             rearranged b e s0 s' /\
             (index_ok b e s0 -> index_ok b e s') /\
             heap_prop comp b e s'.
Proof.
  intros Hr Hit Hh Hfuel.
  apply (loop_inv (make_step comp b e)
           (fun st => range_ok b e (fst st) /\ rearranged b e s0 (fst st) /\
                      (index_ok b e s0 -> index_ok b e (fst st)) /\
                      b - 1 <= snd st < e /\
                      heap_from comp (snd st - b + 1) b e (fst st))
           (fun s' => rearranged b e s0 s' /\
                      (index_ok b e s0 -> index_ok b e s') /\
                      heap_prop comp b e s')
           (fun st => Z.to_nat (snd st - b + 1))); [| |exact Hfuel].
  2:{ cbn [fst snd]. split; [assumption|]. split; [apply rearranged_refl|].
      split; [tauto|]. split; assumption. }
  intros [s it] (Hrs & Hre & Hix & Hb & Hhf). cbn [fst snd] in *.
  unfold make_step. destruct (Z.leb_spec b it) as [Hle|Hgt].
  - destruct (bubble_down_spec comp Hsw (it - b) b e it s Hrs)
      as (s' & -> & Hre' & Hix' & Hh'); [lia| |].
    + split; [lia|]. split.
      * intros j Hj Hlo Hpj. apply Hhf; [exact Hj|lia].
      * intros Hpos Hlo. unfold parent in Hlo. lia.
    + cbn [bind fst snd]. split; [|lia].
      split; [eapply range_ok_rearranged; eassumption|].
      split; [eapply rearranged_trans; eassumption|].
      split; [auto|]. split; [lia|].
      replace (it - 1 - b + 1) with (it - b) by lia. exact Hh'.
  - split; [assumption|]. split; [assumption|].
    apply heap_from_0. replace 0 with (it - b + 1) by lia. exact Hhf.
Qed.

Lemma heap_from_beyond lo b e s :
  e - b <= 2 * lo + 1 -> heap_from comp lo b e s.
Proof. intros Hlo j Hj Hp. unfold parent in Hp. lia. Qed.

Lemma make_spec b e s :
  range_ok b e s -> b < e ->
  exists s', make comp b e s = Ret s' /\
             rearranged b e s s' /\
             (index_ok b e s -> index_ok b e s') /\
             heap_prop comp b e s'.
Proof.
  intros Hr Hbe. unfold make. destruct (Z.leb_spec e b); [lia|].
  apply make_loop_spec; [exact Hr|lia| |lia].
  apply heap_from_beyond. lia.
Qed.

(** On a leaf [bubble_down] changes nothing. *)
Lemma bubble_down_leaf b e it s :
  range_ok b e s -> b <= it < e -> e - b <= 2 * (it - b) + 1 ->
  bubble_down comp b e it s = Ret s.
Proof.
  intros Hr Hit Hleaf. pose proof Hr as (Hb & _ & He & Hm).
  unfold MAX_SLOTS in Hm. unfold bubble_down.
  destruct (Z.ltb_spec it b); [lia|].
  destruct (Z.leb_spec e it); [lia|]. cbn [orb].
  rewrite (int_Ret (it - b)) by (unfold INT_MIN, INT_MAX; lia). cbn [bind].
  rewrite (int_Ret (e - b)) by (unfold INT_MIN, INT_MAX; lia). cbn [bind].
  destruct (Z.to_nat (e - b - (it - b))) as [|f] eqn:Hf; [lia|].
  cbn [loop]. unfold bubble_down_step.
  destruct (Z.ltb_spec (it - b) (e - b)); [|lia].
  rewrite (int_Ret (2 * (it - b))) by (unfold INT_MIN, INT_MAX; lia).
  cbn [bind].
  rewrite (int_Ret (2 * (it - b) + 1)) by (unfold INT_MIN, INT_MAX; lia).
  cbn [bind loop]. unfold children_step.
  destruct (Z.ltb_spec (2 * (it - b) + 1) (e - b)); [lia|]. cbn [bind].
  rewrite Z.eqb_refl. reflexivity.
Qed.

Lemma make_loop_leaves b e s (k : nat) :
  range_ok b e s ->
  forall it fuel,
    b <= it - Z.of_nat k + 1 -> it < e ->
    e - b <= 2 * (it - Z.of_nat k + 1 - b) + 1 ->
    loop (make_step comp b e) (k + fuel) (s, it) =
    loop (make_step comp b e) fuel (s, it - Z.of_nat k).
Proof.
  intros Hr. induction k as [|k IH]; intros it fuel Hlo Hhi Hleaf.
  - replace (it - Z.of_nat 0) with it by lia. reflexivity.
  - replace (S k + fuel)%nat with (S (k + fuel)) by lia.
    cbn [loop]. unfold make_step at 1.
    destruct (Z.leb_spec b it); [|lia].
    rewrite bubble_down_leaf by (try assumption; lia). cbn [bind].
    rewrite IH by lia. f_equal. f_equal. lia.
Qed.

Lemma make_refines b e s :
  range_ok b e s -> make comp b e s = make_from_last_internal comp b e s.
Proof.
  intros Hr. unfold make, make_from_last_internal.
  destruct (Z.leb_spec e b); [reflexivity|]. cbv zeta.
  pose proof (make_loop_leaves b e s (Z.to_nat (e - b - (e - b) / 2)) Hr
                (e - 1) (Z.to_nat ((e - b) / 2) + 1)) as Hl.
  replace (Z.to_nat (e - b - (e - b) / 2) + (Z.to_nat ((e - b) / 2) + 1))%nat
    with (Z.to_nat (e - b) + 1)%nat in Hl by lia.
  rewrite Hl by lia. f_equal. f_equal. lia.
Qed.

Lemma sort_loop_spec b e s0 e0 fuel :
  range_ok b e s0 -> b <= e0 <= e ->
  heap_prop comp b e0 s0 -> index_ok b e0 s0 -> tail_ordered comp b e e0 s0 ->
  (Z.to_nat (e0 - b) < fuel)%nat ->
  exists s', loop (sort_step comp b) fuel (s0, e0) = Ret s' /\
             rearranged b e s0 s' /\ ordered comp b e s' /\
             (forall k, indexer s' k = -1).
Proof.
  intros Hr He0 Hh Hix Hto Hfuel.
  apply (loop_inv (sort_step comp b)
           (fun st => range_ok b e (fst st) /\ rearranged b e s0 (fst st) /\
                      b <= snd st <= e /\
                      heap_prop comp b (snd st) (fst st) /\
                      index_ok b (snd st) (fst st) /\
                      tail_ordered comp b e (snd st) (fst st))
           (fun s' => rearranged b e s0 s' /\ ordered comp b e s' /\
                      (forall k, indexer s' k = -1))
           (fun st => Z.to_nat (snd st - b))); [| |exact Hfuel].
  2:{ cbn [fst snd]. split; [assumption|]. split; [apply rearranged_refl|].
      tauto. }
  intros [s e1] (Hrs & Hre & Hb & Hh1 & Hix1 & Hto1). cbn [fst snd] in *.
  pose proof Hrs as (Hb0 & _).
  unfold sort_step. destruct (Z.ltb_spec b e1) as [Hlt|Hge].
  - assert (Hr1 : range_ok b e1 s) by (eapply range_ok_narrow; eauto).
    destruct (range_ok_slot b e1 s 0 Hr1) as [r Hroot]; [lia|].
    rewrite Z.add_0_r in Hroot.
    destruct (pop_spec comp Hsw b e1 s r Hr1 Hlt Hh1 Hix1 Hroot)
      as (s' & -> & _ & Hre' & Hh' & Hix' & Hlast & _ & Htop).
    cbn [bind fst snd]. split; [|lia].
    assert (Hre'' : rearranged b e s s')
      by (eapply rearranged_wider; [| |exact Hre']; lia).
    split; [eapply range_ok_rearranged; eassumption|].
    split; [eapply rearranged_trans; eassumption|].
    split; [lia|]. split; [exact Hh'|]. split; [exact Hix'|].
    intros i j x y Hij Hj Hje Hx Hy.
    assert (Hout : forall it, e1 <= it -> slot it s' = slot it s).
    { intros it Hit. destruct Hre' as (_ & _ & Ho). apply Ho. lia. }
    assert (Hin : forall i' z, 0 <= i' < e1 - b - 1 ->
                               slot (b + i') s' = Some z ->
                               exists i2, 0 <= i2 < e1 - b /\
                                          slot (b + i2) s = Some z).
    { intros i' z Hi' Hz.
      eapply (rearranged_slot b e1 s s'); [lia|exact Hre'| |exact Hz]. lia. }
    destruct (decide (j = e1 - b - 1)) as [Ej|Nj].
    + replace (b + j) with (e1 - 1) in Hy by lia.
      assert (y = r) by congruence. subst y.
      eapply (Htop i); [lia|exact Hx].
    + rewrite Hout in Hy by lia.
      destruct (Z.lt_ge_cases i (e1 - b - 1)) as [Hi1|Hi1].
      * destruct (Hin i x ltac:(lia) Hx) as (i2 & Hi2 & Hx2).
        eapply (Hto1 i2 j); [lia|lia|lia|exact Hx2|exact Hy].
      * destruct (decide (i = e1 - b - 1)) as [Ei|Ni].
        -- replace (b + i) with (e1 - 1) in Hx by lia.
           assert (x = r) by congruence. subst x.
           eapply (Hto1 0 j); [lia|lia|lia| |exact Hy].
           rewrite Z.add_0_r. exact Hroot.
        -- rewrite Hout in Hx by lia.
           eapply (Hto1 i j); [lia|lia|lia|exact Hx|exact Hy].
  - split; [assumption|]. split.
    + intros i j x y Hij Hj Hx Hy.
      eapply (Hto1 i j); [lia|lia|lia|exact Hx|exact Hy].
    + intros k. destruct Hix1 as [_ HB]. apply HB.
      intros (i & z & Hi & _). lia.
Qed.

Lemma sort_spec b e s :
  range_ok b e s -> heap_prop comp b e s -> index_ok b e s ->
  exists s', sort comp b e s = Ret s' /\
             rearranged b e s s' /\ ordered comp b e s' /\
             (forall k, indexer s' k = -1).
Proof.
  intros Hr Hh Hix. unfold sort. pose proof Hr as (Hb & Hbe & _).
  apply sort_loop_spec; try assumption; [lia| |lia].
  intros i j x y Hij Hj Hje. lia.
Qed.

End Bulk.

(** ** Running to completion *)

Section Completion.

Lemma completes_Ret {A : Type} (a : A) : completes (Ret a).
Proof. discriminate. Qed.

Lemma completes_bind {A B : Type} (c : res A) (k : A -> res B) :
  completes c -> (forall a, c = Ret a -> completes (k a)) ->
  completes (bind c k).
Proof.
  intros Hc Hk. destruct c as [a| |]; simpl.
  - apply Hk. reflexivity.
  - discriminate.
  - contradiction.
Qed.

Lemma completes_int z : completes (int z).
Proof. unfold int. destruct (_ && _); discriminate. Qed.

Lemma int_inv z a : int z = Ret a -> a = z.
Proof. unfold int. destruct (_ && _); congruence. Qed.

Context {S R : Type} (step : S -> res (S + R)).

Lemma loop_completes (I : S -> Prop) (mu : S -> nat) :
  (forall s, I s ->
     completes (step s) /\
     forall s', step s = Ret (inl s') -> I s' /\ (mu s' < mu s)%nat) ->
  forall fuel s, I s -> (mu s < fuel)%nat -> completes (loop step fuel s).
Proof.
  intros Hstep fuel. induction fuel as [|f IH]; intros s Hs Hmu; [lia|].
  cbn [loop]. destruct (Hstep s Hs) as [Hc Hnext].
  apply completes_bind; [exact Hc|].
  intros [s'|v] Hr; [|apply completes_Ret].
  destruct (Hnext s' Hr) as [Hs' Hlt]. apply IH; [exact Hs'|lia].
Qed.

Lemma loop_partial (I : S -> Prop) (Q : R -> Prop) :
  (forall s, I s ->
     match step s with
     | Ret (inl s') => I s'
     | Ret (inr v) => Q v
     | _ => True
     end) ->
  forall fuel s v, I s -> loop step fuel s = Ret v -> Q v.
Proof.
  intros Hstep fuel. induction fuel as [|f IH]; intros s v Hs Hl;
    [simpl in Hl; discriminate|].
  cbn [loop] in Hl. specialize (Hstep s Hs).
  destruct (step s) as [[s'|w]| |]; cbn [bind] in Hl; try discriminate.
  - exact (IH s' v Hstep Hl).
  - congruence.
Qed.

End Completion.

Section Termination.

Context {P K : Type} `{EqDecision K} (comp : P * K -> P * K -> bool).

Implicit Types (s : store P K) (x y : P * K) (it p q b e i j : Z) (k : K).

Lemma completes_deref it s : completes (deref it s).
Proof. unfold deref. destruct (slot it s); discriminate. Qed.

Lemma completes_assign it x s : completes (assign it x s).
Proof. unfold assign. destruct (_ && _); discriminate. Qed.

Lemma completes_swap_at p q s : completes (swap_at p q s).
Proof.
  unfold swap_at.
  repeat (apply completes_bind; [first [apply completes_deref
                                       |apply completes_assign]|intros ? _]).
  apply completes_assign.
Qed.

Lemma completes_swap_cells_at p q s : completes (swap_cells_at p q s).
Proof.
  unfold swap_cells_at.
  repeat (apply completes_bind; [apply completes_deref|intros ? _]).
  apply completes_Ret.
Qed.

(** Each round of the [bubble_up] loop moves to the parent slot. *)
Lemma bubble_up_step_next b s i s' i' :
  bubble_up_step comp b (s, i) = Ret (inl (s', i')) ->
  0 < i /\ i' = parent i /\ 0 <= i' < i.
Proof.
  unfold bubble_up_step. intros H0.
  destruct (Z.ltb_spec 0 i); [|discriminate].
  repeat bind_inv H0. injection H0 as _ <-.
  unfold parent. lia.
Qed.

Lemma completes_bubble_up_step b s i :
  completes (bubble_up_step comp b (s, i)).
Proof.
  unfold bubble_up_step. destruct (0 <? i); [|apply completes_Ret].
  apply completes_bind; [apply completes_deref|intros x _].
  apply completes_bind; [apply completes_deref|intros y _].
  destruct (comp x y); [|apply completes_Ret].
  apply completes_bind; [apply completes_swap_at|intros s1 _].
  apply completes_bind; [apply completes_swap_cells_at|intros s2 _].
  apply completes_Ret.
Qed.

Lemma completes_bubble_up b e it s : completes (bubble_up comp b e it s).
Proof.
  unfold bubble_up. destruct (_ || _); [apply completes_Ret|].
  apply completes_bind; [apply completes_int|intros i Hi].
  apply (loop_completes (bubble_up_step comp b) (fun _ => True)
           (fun st => Z.to_nat (snd st))); [|exact I|cbn [snd]; lia].
  intros [s0 i0] _. split; [apply completes_bubble_up_step|].
  intros [s1 i1] Hs. apply bubble_up_step_next in Hs. cbn [snd]. 
  split; [exact I|lia].
Qed.

Lemma children_step_next b n i s c m c' m' :
  children_step comp b n i s (c, m) = Ret (inl (c', m')) ->
  c < n /\ c <= 2 * i + 2 /\ c' = c + 1 /\ (m' = m \/ m' = c).
Proof.
  unfold children_step. intros H0.
  destruct (Z.ltb_spec c n); [|discriminate].
  repeat bind_inv H0.
  repeat match goal with
         | H : int _ = Ret _ |- _ => apply int_inv in H; subst
         | H : (_ <=? _) = true |- _ => apply Z.leb_le in H
         end.
  injection H0 as <- <-.
  repeat split; try lia. destruct (comp _ _); auto.
Qed.

Lemma completes_children_step b n i s cm :
  completes (children_step comp b n i s cm).
Proof.
  destruct cm as [c m]. unfold children_step.
  destruct (c <? n); [|apply completes_Ret].
  apply completes_bind; [apply completes_int|intros d _].
  apply completes_bind; [apply completes_int|intros hi _].
  destruct (c <=? hi); [|apply completes_Ret].
  apply completes_bind; [apply completes_deref|intros x _].
  apply completes_bind; [apply completes_deref|intros y _].
  apply completes_bind; [apply completes_int|intros c' _].
  apply completes_Ret.
Qed.

Lemma completes_children b n i s :
  completes (loop (children_step comp b n i s) 3 (2 * i + 1, i)).
Proof.
  apply (loop_completes (children_step comp b n i s)
           (fun cm => 2 * i + 1 <= fst cm)
           (fun cm => Z.to_nat (2 * i + 3 - fst cm)));
    [|cbn [fst]; lia|cbn [fst]; lia].
  intros [c m] Hc. cbn [fst] in *.
  split; [apply completes_children_step|].
  intros [c' m'] Hs. apply children_step_next in Hs. cbn [fst]. lia.
Qed.

Lemma children_result b n i s m :
  loop (children_step comp b n i s) 3 (2 * i + 1, i) = Ret m ->
  m = i \/ (2 * i + 1 <= m <= 2 * i + 2 /\ m < n).
Proof.
  apply (loop_partial (children_step comp b n i s)
           (fun cm => 2 * i + 1 <= fst cm /\
                      (snd cm = i \/
                       (2 * i + 1 <= snd cm <= 2 * i + 2 /\ snd cm < n)))
           (fun m => m = i \/ (2 * i + 1 <= m <= 2 * i + 2 /\ m < n))).
  - intros [c m0] [Hc Hm]. cbn [fst snd] in *.
    destruct (children_step comp b n i s (c, m0)) as [[[c' m']|v]| |] eqn:E;
      [| |exact I|exact I].
    + apply children_step_next in E. cbn [fst snd]. lia.
    + unfold children_step in E.
      repeat bind_inv E; injection E as <-; exact Hm.
  - cbn [fst snd]. lia.
Qed.

(** Each round of the [bubble_down] loop moves to a child slot. *)
Lemma bubble_down_step_next b n s i s' m :
  bubble_down_step comp b n (s, i) = Ret (inl (s', m)) ->
  0 <= i -> i < m < n.
Proof.
  unfold bubble_down_step. intros H0 Hi.
  destruct (Z.ltb_spec i n); [|discriminate].
  destruct (int (2 * i)) as [d| |] eqn:Ed; [|discriminate..].
  apply int_inv in Ed. subst d. cbn [bind] in H0.
  destruct (int (2 * i + 1)) as [c| |] eqn:Ec; [|discriminate..].
  apply int_inv in Ec. subst c. cbn [bind] in H0.
  destruct (loop (children_step comp b n i s) 3 (2 * i + 1, i)) as [m0| |]
    eqn:El; [|discriminate..].
  cbn [bind] in H0. apply children_result in El.
  destruct (Z.eqb_spec m0 i); [discriminate|].
  repeat bind_inv H0. injection H0 as _ <-. lia.
Qed.

Lemma completes_bubble_down_step b n s i :
  completes (bubble_down_step comp b n (s, i)).
Proof.
  unfold bubble_down_step. destruct (i <? n); [|apply completes_Ret].
  apply completes_bind; [apply completes_int|intros d Hd].
  apply completes_bind; [apply completes_int|intros c Hc].
  assert (c = 2 * i + 1) as ->.
  { apply int_inv in Hd. subst d. apply int_inv in Hc. exact Hc. }
  apply completes_bind; [apply completes_children|intros m _].
  destruct (m =? i); [apply completes_Ret|].
  apply completes_bind; [apply completes_swap_at|intros s1 _].
  apply completes_bind; [apply completes_swap_cells_at|intros s2 _].
  apply completes_Ret.
Qed.

Lemma completes_bubble_down b e it s : completes (bubble_down comp b e it s).
Proof.
  unfold bubble_down.
  destruct (Z.ltb_spec it b); [apply completes_Ret|].
  destruct (Z.leb_spec e it); [apply completes_Ret|]. cbn [orb].
  apply completes_bind; [apply completes_int|intros i Hi].
  apply completes_bind; [apply completes_int|intros n Hn].
  assert (i = it - b /\ n = e - b) as [-> ->].
  { apply int_inv in Hi, Hn. split; assumption. }
  apply (loop_completes (bubble_down_step comp b (e - b))
           (fun st => 0 <= snd st < e - b)
           (fun st => Z.to_nat (e - b - snd st - 1)));
    [|cbn [snd]; lia|cbn [snd]; lia].
  intros [s0 i0] Hi0. cbn [snd] in *.
  split; [apply completes_bubble_down_step|].
  intros [s1 i1] Hs. apply bubble_down_step_next in Hs; [|lia].
  cbn [snd]. lia.
Qed.

Lemma completes_push b e s : completes (push comp b e s).
Proof.
  unfold push. destruct (e <=? b); [apply completes_Ret|].
  apply completes_bind; [apply completes_deref|intros x _].
  apply completes_bind; [apply completes_int|intros v _].
  apply completes_bubble_up.
Qed.

Lemma completes_pop b e s : completes (pop comp b e s).
Proof.
  unfold pop. destruct (e <=? b); [apply completes_Ret|]. cbv zeta.
  apply completes_bind; [apply completes_swap_at|intros s1 _].
  apply completes_bind; [apply completes_swap_cells_at|intros s2 _].
  apply completes_bind; [apply completes_deref|intros y _].
  apply completes_bubble_down.
Qed.

Lemma completes_make b e s : completes (make comp b e s).
Proof.
  unfold make. destruct (e <=? b); [apply completes_Ret|].
  apply (loop_completes (make_step comp b e) (fun _ => True)
           (fun st => Z.to_nat (snd st - b + 1))); [|exact I|cbn [snd]; lia].
  intros [s0 it] _. unfold make_step. cbn [snd].
  destruct (Z.leb_spec b it).
  - split.
    + apply completes_bind; [apply completes_bubble_down|intros s1 _].
      apply completes_Ret.
    + intros [s1 it1] Hs. repeat bind_inv Hs. injection Hs as _ <-.
      cbn [snd]. split; [exact I|lia].
  - split; [apply completes_Ret|]. intros s' Hs. discriminate.
Qed.

Lemma completes_sort b e s : completes (sort comp b e s).
Proof.
  unfold sort.
  apply (loop_completes (sort_step comp b) (fun _ => True)
           (fun st => Z.to_nat (snd st - b))); [|exact I|cbn [snd]; lia].
  intros [s0 e0] _. unfold sort_step. cbn [snd].
  destruct (Z.ltb_spec b e0).
  - split.
    + apply completes_bind; [apply completes_pop|intros s1 _].
      apply completes_Ret.
    + intros [s1 e1] Hs. repeat bind_inv Hs. injection Hs as _ <-.
      cbn [snd]. split; [exact I|lia].
  - split; [apply completes_Ret|]. intros s' Hs. discriminate.
Qed.

Lemma completes_update b e k v s : completes (update comp b e k v s).
Proof.
  unfold update. destruct (e <=? b); [apply completes_Ret|]. cbv zeta.
  destruct (indexer s k =? -1); [apply completes_Ret|].
  apply completes_bind; [apply completes_deref|intros old _].
  apply completes_bind; [apply completes_assign|intros s1 _].
  apply completes_bind; [apply completes_deref|intros cur _].
  destruct (comp cur old).
  { apply completes_bind; [apply completes_bubble_down|intros s2 _].
    apply completes_Ret. }
  destruct (comp old cur); [|apply completes_Ret].
  apply completes_bind; [apply completes_bubble_up|intros s2 _].
  apply completes_Ret.
Qed.

Lemma completes_pop_key b e k s : completes (pop_key comp b e k s).
Proof.
  unfold pop_key. destruct (e <=? b); [apply completes_Ret|]. cbv zeta.
  destruct (indexer s k =? -1); [apply completes_Ret|].
  apply completes_bind; [apply completes_deref|intros old _].
  apply completes_bind; [apply completes_swap_at|intros s1 _].
  apply completes_bind; [apply completes_swap_cells_at|intros s2 _].
  apply completes_bind; [apply completes_deref|intros y _].
  apply completes_bind; [apply completes_deref|intros cur _].
  destruct (comp cur old).
  { apply completes_bind; [apply completes_bubble_down|intros s4 _].
    apply completes_Ret. }
  destruct (comp old cur); [|apply completes_Ret].
  apply completes_bind; [apply completes_bubble_up|intros s4 _].
  apply completes_Ret.
Qed.

End Termination.

(** ** Returning on a well-formed range, whatever the comparator *)

Section Returns.

Context {P K : Type} `{EqDecision K} (comp : P * K -> P * K -> bool).

Implicit Types (s : store P K) (x y : P * K) (it p q b e i j : Z) (k : K).

Lemma bubble_up_returns b e it s :
  range_ok b e s ->
  exists s', bubble_up comp b e it s = Ret s' /\ rearranged b e s s' /\
             (index_ok b e s -> index_ok b e s').
Proof.
  intros Hr. unfold bubble_up.
  destruct (Z.ltb_spec it b); [exists s; split; [reflexivity|split; [apply rearranged_refl|tauto]]|].
  destruct (Z.leb_spec e it); [exists s; split; [reflexivity|split; [apply rearranged_refl|tauto]]|].
  cbn [orb]. pose proof Hr as (Hb & Hbe & He & Hm). unfold MAX_SLOTS in Hm.
  rewrite int_Ret by (unfold INT_MIN, INT_MAX; lia). cbn [bind].
  apply (loop_inv (bubble_up_step comp b)
           (fun st => range_ok b e (fst st) /\ rearranged b e s (fst st) /\
                      (index_ok b e s -> index_ok b e (fst st)) /\
                      0 <= snd st < e - b)
           (fun s' => rearranged b e s s' /\
                      (index_ok b e s -> index_ok b e s'))
           (fun st => Z.to_nat (snd st)));
    [|cbn [fst snd]; split; [exact Hr|split; [apply rearranged_refl|
                                       split; [tauto|lia]]]
     |cbn [snd]; lia].
  intros [s1 i] (Hr1 & Hre & Hix & Hi). cbn [fst snd] in *.
  unfold bubble_up_step.
  destruct (Z.ltb_spec 0 i) as [Hpos|Hz]; [|split; assumption].
  destruct (range_ok_slot b e s1 (parent i) Hr1) as [x Hx];
    [unfold parent; lia|].
  destruct (range_ok_slot b e s1 i Hr1) as [y Hy]; [lia|].
  rewrite (deref_Some _ _ _ Hx), (deref_Some _ _ _ Hy). cbn [bind].
  destruct (comp x y); [|split; assumption].
  rewrite (swap_both_bind _ _ _ _ _ _ Hx Hy). cbn [fst snd].
  assert (Hsw' : rearranged b e s1 (swapped (b + parent i) (b + i) s1)).
  { eapply rearranged_swapped; try eassumption; unfold parent; lia. }
  split; [|unfold parent; lia].
  split; [eapply range_ok_rearranged; eassumption|].
  split; [eapply rearranged_trans; eassumption|].
  split; [|unfold parent; lia].
  intros Hix0. eapply index_ok_swapped; eauto. unfold parent. lia.
Qed.

Lemma children_returns b e s i :
  range_ok b e s -> 0 <= i < e - b ->
  exists m, loop (children_step comp b (e - b) i s) 3 (2 * i + 1, i) = Ret m /\
            (m = i \/ (i < m < e - b)).
Proof.
  intros Hr Hi. pose proof Hr as (Hb & Hbe & He & Hm). unfold MAX_SLOTS in Hm.
  destruct (loop_inv (children_step comp b (e - b) i s)
              (fun cm => 2 * i + 1 <= fst cm /\ 0 <= snd cm < e - b)
              (fun _ => True)
              (fun cm => Z.to_nat (2 * i + 3 - fst cm))) with
    (fuel := 3%nat) (s := (2 * i + 1, i)) as (m & Hm' & _).
  - intros [c m] [Hc Hmm]. cbn [fst snd] in *. unfold children_step.
    destruct (Z.ltb_spec c (e - b)); [|exact I].
    rewrite (int_Ret (2 * i)) by (unfold INT_MIN, INT_MAX; lia). cbn [bind].
    rewrite (int_Ret (2 * i + 2)) by (unfold INT_MIN, INT_MAX; lia).
    cbn [bind].
    destruct (Z.leb_spec c (2 * i + 2)); [|exact I].
    destruct (range_ok_slot b e s m Hr Hmm) as [x ->%deref_Some].
    destruct (range_ok_slot b e s c Hr) as [y ->%deref_Some]; [lia|].
    cbn [bind].
    rewrite (int_Ret (c + 1)) by (unfold INT_MIN, INT_MAX; lia). cbn [bind].
    cbn [fst snd]. destruct (comp x y); lia.
  - cbn [fst snd]. lia.
  - cbn [fst]. lia.
  - exists m. split; [exact Hm'|].
    apply children_result in Hm'. lia.
Qed.

Lemma bubble_down_returns b e it s :
  range_ok b e s ->
  exists s', bubble_down comp b e it s = Ret s' /\ rearranged b e s s' /\
             (index_ok b e s -> index_ok b e s').
Proof.
  intros Hr. unfold bubble_down.
  destruct (Z.ltb_spec it b); [exists s; split; [reflexivity|split; [apply rearranged_refl|tauto]]|].
  destruct (Z.leb_spec e it); [exists s; split; [reflexivity|split; [apply rearranged_refl|tauto]]|].
  cbn [orb]. pose proof Hr as (Hb & Hbe & He & Hm). unfold MAX_SLOTS in Hm.
  rewrite (int_Ret (it - b)) by (unfold INT_MIN, INT_MAX; lia). cbn [bind].
  rewrite (int_Ret (e - b)) by (unfold INT_MIN, INT_MAX; lia). cbn [bind].
  apply (loop_inv (bubble_down_step comp b (e - b))
           (fun st => range_ok b e (fst st) /\ rearranged b e s (fst st) /\
                      (index_ok b e s -> index_ok b e (fst st)) /\
                      0 <= snd st < e - b)
           (fun s' => rearranged b e s s' /\
                      (index_ok b e s -> index_ok b e s'))
           (fun st => Z.to_nat (e - b - snd st - 1)));
    [|cbn [fst snd]; split; [exact Hr|split; [apply rearranged_refl|
                                       split; [tauto|lia]]]
     |cbn [snd]; lia].
  intros [s1 i] (Hr1 & Hre & Hix & Hi). cbn [fst snd] in *.
  unfold bubble_down_step. destruct (Z.ltb_spec i (e - b)); [|lia].
  rewrite (int_Ret (2 * i)) by (unfold INT_MIN, INT_MAX; lia). cbn [bind].
  rewrite (int_Ret (2 * i + 1)) by (unfold INT_MIN, INT_MAX; lia). cbn [bind].
  destruct (children_returns b e s1 i Hr1 Hi) as (m & -> & Hmi). cbn [bind].
  destruct (Z.eqb_spec m i) as [->|Hne]; [split; assumption|].
  destruct (range_ok_slot b e s1 i Hr1 Hi) as [x Hx].
  destruct (range_ok_slot b e s1 m Hr1) as [z Hz]; [lia|].
  rewrite (swap_both_bind _ _ _ _ _ _ Hx Hz). cbn [fst snd].
  assert (Hsw' : rearranged b e s1 (swapped (b + i) (b + m) s1)).
  { eapply rearranged_swapped; try eassumption; lia. }
  split; [|lia].
  split; [eapply range_ok_rearranged; eassumption|].
  split; [eapply rearranged_trans; eassumption|].
  split; [|lia].
  intros Hix0. eapply index_ok_swapped; eauto. lia.
Qed.

Lemma push_returns b e s :
  range_ok b e s -> exists s', push comp b e s = Ret s'.
Proof.
  intros Hr. unfold push. destruct (Z.leb_spec e b); [eauto|].
  pose proof Hr as (Hb & Hbe & He & Hm). unfold MAX_SLOTS in Hm.
  destruct (range_ok_slot b e s (e - b - 1) Hr) as [x Hx]; [lia|].
  replace (b + (e - b - 1)) with (e - 1) in Hx by lia.
  rewrite (deref_Some _ _ _ Hx). cbn [bind].
  rewrite int_Ret by (unfold INT_MIN, INT_MAX; lia). cbn [bind].
  destruct (bubble_up_returns b e (e - 1) (cell_set (snd x) (e - b - 1) s))
    as (s' & Hs' & _ & _); [exact Hr|eauto].
Qed.

Lemma pop_returns b e s :
  range_ok b e s ->
  exists s',
    pop comp b e s = Ret s' /\ rearranged b e s s' /\
    (b < e -> slot (e - 1) s' = slot b s) /\
    (b < e -> index_ok b e s ->
     index_ok b (e - 1) s' /\
     forall r, slot b s = Some r -> indexer s' (snd r) = -1).
Proof.
  intros Hr. unfold pop.
  destruct (Z.leb_spec e b).
  { exists s. split; [reflexivity|]. split; [apply rearranged_refl|].
    split; intros; lia. }
  cbv zeta. pose proof Hr as (Hb & Hbe & He & Hm).
  destruct (range_ok_slot b e s 0 Hr) as [x Hx]; [lia|].
  destruct (range_ok_slot b e s (e - b - 1) Hr) as [y Hy]; [lia|].
  replace (b + (e - b - 1)) with (e - 1) in Hy by lia.
  assert (Hx0 : slot b s = Some x) by (rewrite Z.add_0_r in Hx; exact Hx).
  rewrite (swap_both_bind _ _ _ _ _ _ Hx0 Hy).
  assert (Hre : rearranged b e s (swapped b (e - 1) s))
    by (eapply rearranged_swapped; eauto; lia).
  assert (Hl : slot (e - 1) (swapped b (e - 1) s) = Some x).
  { rewrite (slot_swapped _ _ _ _ _ _ Hx0 Hy).
    destruct (decide (e - 1 = e - 1)); [reflexivity|congruence]. }
  rewrite (deref_Some _ _ _ Hl). cbn [bind].
  set (s3 := cell_set (snd x) (-1) (swapped b (e - 1) s)).
  assert (Hre3 : rearranged b e s s3).
  { eapply rearranged_trans; [exact Hre|apply rearranged_cell_set]. }
  destruct (bubble_down_returns b (e - 1) b s3) as (s' & Hs' & Hre' & Hix').
  { eapply range_ok_narrow; [eapply range_ok_rearranged; eassumption|lia]. }
  exists s'. split; [exact Hs'|]. split.
  { eapply rearranged_trans; [exact Hre3|].
    eapply rearranged_wider; [| |exact Hre']; lia. }
  split.
  { intros _. destruct Hre' as (_ & _ & Ho). rewrite Ho by lia.
    rewrite Hx0. exact Hl. }
  intros _ Hix.
  destruct (swap_out b e s 0 x y Hr Hix ltac:(lia) Hx Hy)
    as (_ & _ & _ & Hix3 & _ & Habs).
  rewrite Z.add_0_r in Hix3, Habs. fold s3 in Hix3, Habs.
  split; [exact (Hix' Hix3)|].
  intros r Hroot. assert (r = x) by congruence. subst r.
  apply (Hix' Hix3). intros Hlive.
  eapply (absent_not_live b (e - 1) s3); [exact Hix3|exact Habs|].
  eapply rearranged_live; [|exact Hre'|exact Hlive]. lia.
Qed.

Lemma make_returns b e s :
  range_ok b e s -> exists s', make comp b e s = Ret s'.
Proof.
  intros Hr. unfold make. destruct (Z.leb_spec e b); [eauto|].
  destruct (loop_inv (make_step comp b e)
              (fun st => range_ok b e (fst st) /\ snd st < e)
              (fun _ => True)
              (fun st => Z.to_nat (snd st - b + 1))) with
    (fuel := (Z.to_nat (e - b) + 1)%nat) (s := (s, e - 1)) as (s' & Hs' & _).
  - intros [s1 it] [Hr1 Hit]. cbn [fst snd] in *. unfold make_step.
    destruct (Z.leb_spec b it); [|exact I].
    destruct (bubble_down_returns b e it s1 Hr1) as (s2 & -> & Hre & _).
    cbn [bind fst snd].
    split; [split; [eapply range_ok_rearranged; eassumption|lia]|lia].
  - cbn [fst snd]. split; [exact Hr|lia].
  - cbn [snd]. lia.
  - eauto.
Qed.

Lemma sort_returns b e s :
  range_ok b e s -> exists s', sort comp b e s = Ret s'.
Proof.
  intros Hr. unfold sort. pose proof Hr as (Hb & Hbe & _).
  destruct (loop_inv (sort_step comp b)
              (fun st => range_ok b e (fst st) /\ snd st <= e)
              (fun _ => True)
              (fun st => Z.to_nat (snd st - b))) with
    (fuel := (Z.to_nat (e - b) + 1)%nat) (s := (s, e)) as (s' & Hs' & _).
  - intros [s1 e1] [Hr1 He1]. cbn [fst snd] in *. unfold sort_step.
    destruct (Z.ltb_spec b e1); [|exact I].
    destruct (pop_returns b e1 s1) as (s2 & -> & Hre & _).
    { eapply range_ok_narrow; [exact Hr1|lia]. }
    cbn [bind fst snd].
    split; [split; [eapply range_ok_rearranged; eassumption|lia]|lia].
  - cbn [fst snd]. split; [exact Hr|lia].
  - cbn [snd]. lia.
  - eauto.
Qed.

Lemma update_returns b e k v s :
  range_ok b e s -> indexer s k = -1 \/ 0 <= indexer s k < e - b ->
  exists r, update comp b e k v s = Ret r.
Proof.
  intros Hr Hk. unfold update. destruct (Z.leb_spec e b); [eauto|].
  cbv zeta. destruct (Z.eqb_spec (indexer s k) (-1)); [eauto|].
  destruct Hk as [Hk|Hk]; [contradiction|].
  destruct (range_ok_slot b e s (indexer s k) Hr Hk) as [x Hx].
  pose proof (slot_Some _ _ _ Hx) as Hin.
  rewrite (deref_Some _ _ _ Hx). cbn [bind].
  rewrite (assign_Ret _ _ _ Hin). cbn [bind].
  set (s1 := {| elems := <[Z.to_nat (b + indexer s k) := (v, snd x)]> (elems s);
                indexer := indexer s |}).
  assert (Hr1 : range_ok b e s1).
  { unfold range_ok, s1. simpl. rewrite length_insert. exact Hr. }
  destruct (range_ok_slot b e s1 (indexer s k) Hr1 Hk) as [c Hc].
  rewrite (deref_Some _ _ _ Hc). cbn [bind].
  destruct (comp c x).
  { destruct (bubble_down_returns b e (b + indexer s k) s1 Hr1)
      as (s2 & -> & _). eauto. }
  destruct (comp x c); [|eauto].
  destruct (bubble_up_returns b e (b + indexer s k) s1 Hr1) as (s2 & -> & _).
  eauto.
Qed.

Lemma pop_key_returns b e k s :
  range_ok b e s -> indexer s k = -1 \/ 0 <= indexer s k < e - b ->
  exists r, pop_key comp b e k s = Ret r.
Proof.
  intros Hr Hk. unfold pop_key. destruct (Z.leb_spec e b); [eauto|].
  cbv zeta. destruct (Z.eqb_spec (indexer s k) (-1)); [eauto|].
  destruct Hk as [Hk|Hk]; [contradiction|].
  pose proof Hr as (Hb & Hbe & He & Hm).
  destruct (range_ok_slot b e s (indexer s k) Hr Hk) as [x Hx].
  destruct (range_ok_slot b e s (e - b - 1) Hr) as [y Hy]; [lia|].
  replace (b + (e - b - 1)) with (e - 1) in Hy by lia.
  rewrite (deref_Some _ _ _ Hx). cbn [bind].
  rewrite (swap_both_bind _ _ _ _ _ _ Hx Hy).
  assert (Hre : rearranged b e s (swapped (b + indexer s k) (e - 1) s))
    by (eapply rearranged_swapped; eauto; lia).
  assert (Hl : slot (e - 1) (swapped (b + indexer s k) (e - 1) s) = Some x).
  { rewrite (slot_swapped _ _ _ _ _ _ Hx Hy).
    destruct (decide (e - 1 = e - 1)); [reflexivity|congruence]. }
  rewrite (deref_Some _ _ _ Hl). cbn [bind].
  set (s3 := cell_set (snd x) (-1) (swapped (b + indexer s k) (e - 1) s)).
  assert (Hr3 : range_ok b e s3)
    by (eapply range_ok_rearranged; [|exact Hr];
        eapply rearranged_trans; [exact Hre|apply rearranged_cell_set]).
  destruct (range_ok_slot b e s3 (indexer s k) Hr3 Hk) as [c Hc].
  rewrite (deref_Some _ _ _ Hc). cbn [bind].
  assert (Hr3' : range_ok b (e - 1) s3)
    by (eapply range_ok_narrow; [exact Hr3|lia]).
  destruct (comp c x).
  { destruct (bubble_down_returns b (e - 1) (b + indexer s k) s3 Hr3')
      as (s4 & -> & _). eauto. }
  destruct (comp x c); [|eauto].
  destruct (bubble_up_returns b (e - 1) (b + indexer s k) s3 Hr3')
    as (s4 & -> & _). eauto.
Qed.

End Returns.

(** ** Calls that change nothing *)

Section Degenerate.

Context {P K : Type} `{EqDecision K} (comp : P * K -> P * K -> bool).

Implicit Types (s : store P K) (x y : P * K) (it p q b e i j : Z) (k : K).

Lemma sort_unfold b e s :
  b < e ->
  sort comp b e s = (s' <- pop comp b e s ;; sort comp b (e - 1) s').
Proof.
  intros Hbe. unfold sort.
  replace (Z.to_nat (e - b) + 1)%nat with (S (Z.to_nat (e - b))) by lia.
  cbn [loop]. unfold sort_step at 1.
  destruct (Z.ltb_spec b e); [|lia].
  destruct (pop comp b e s) as [s'| |]; cbn [bind]; try reflexivity.
  f_equal. lia.
Qed.

Lemma sort_empty b e s : e <= b -> sort comp b e s = Ret s.
Proof.
  intros Hbe. unfold sort.
  replace (Z.to_nat (e - b) + 1)%nat with 1%nat by lia.
  cbn [loop]. unfold sort_step.
  destruct (Z.ltb_spec b e); [lia|reflexivity].
Qed.

Lemma update_absent b e k v s :
  e <= b \/ indexer s k = -1 -> update comp b e k v s = Ret (s, false).
Proof.
  intros Hc. unfold update. destruct (Z.leb_spec e b); [reflexivity|].
  destruct Hc as [Hc|Hc]; [lia|]. rewrite Hc. reflexivity.
Qed.

Lemma pop_key_absent b e k s :
  e <= b \/ indexer s k = -1 -> pop_key comp b e k s = Ret (s, false).
Proof.
  intros Hc. unfold pop_key. destruct (Z.leb_spec e b); [reflexivity|].
  destruct Hc as [Hc|Hc]; [lia|]. rewrite Hc. reflexivity.
Qed.

Lemma update_same b e k v s i :
  (forall x, comp x x = false) ->
  0 <= i < e - b -> slot (b + i) s = Some (v, k) -> indexer s k = i ->
  update comp b e k v s = Ret (s, true).
Proof.
  intros Hirr Hi Hx Hidx.
  pose proof (slot_Some _ _ _ Hx) as Hin.
  unfold update. destruct (Z.leb_spec e b); [lia|]. cbv zeta.
  rewrite Hidx. destruct (Z.eqb_spec i (-1)); [lia|].
  rewrite (deref_Some _ _ _ Hx). cbn [bind snd].
  rewrite (assign_Ret _ _ _ Hin). cbn [bind].
  assert (Hsame : {| elems := <[Z.to_nat (b + i) := (v, k)]> (elems s);
                     indexer := indexer s |} = s).
  { rewrite list_insert_id; [destruct s; reflexivity|].
    unfold in_store in Hin. rewrite slot_lookup in Hx by lia. exact Hx. }
  rewrite Hsame. rewrite (deref_Some _ _ _ Hx). cbn [bind].
  rewrite Hirr. reflexivity.
Qed.

End Degenerate.

(** ** The properties of the specification *)

Section Properties.

Context {P K : Type} `{EqDecision K} (comp : P * K -> P * K -> bool).

Implicit Types (s : store P K) (x y : P * K) (it p q b e i j : Z) (k : K).

(** C1.  On a state in which the heap property and index consistency hold,
    [push] (the new entry at the last slot, its key not live before), [pop],
    [update] and [pop_key] each return a state in which both hold over the
    range that is active after the call: [[b, e)] after [push] and [update]
    and after a [pop_key] that returns [false], [[b, e - 1)] after [pop] on
    a non-empty range and after a [pop_key] that returns [true]. *)
Theorem invariants_preserved b e s :
  strict_weak comp -> range_ok b e s ->
  (forall x,
     b < e -> heap_prop comp b (e - 1) s -> index_ok b (e - 1) s ->
     slot (e - 1) s = Some x -> ~ live b (e - 1) s (snd x) ->
     exists s', push comp b e s = Ret s' /\
                heap_prop comp b e s' /\ index_ok b e s') /\
  (heap_prop comp b e s -> index_ok b e s ->
   (exists s', pop comp b e s = Ret s' /\
               heap_prop comp b (Z.max b (e - 1)) s' /\
               index_ok b (Z.max b (e - 1)) s') /\
   (forall k v,
      exists s' ok, update comp b e k v s = Ret (s', ok) /\
                    heap_prop comp b e s' /\ index_ok b e s') /\
   (forall k,
      exists s' ok, pop_key comp b e k s = Ret (s', ok) /\
                    heap_prop comp b (if ok then e - 1 else e) s' /\
                    index_ok b (if ok then e - 1 else e) s')).
Proof.
  intros Hsw Hr. pose proof Hr as (Hb & Hbe & _). split.
  - intros x Hlt Hh Hix Hx Hfresh.
    destruct (push_spec comp Hsw b e s x Hr Hlt Hh Hix Hx Hfresh)
      as (s' & Hs' & _ & _ & Hh' & Hix').
    exists s'. auto.
  - intros Hh Hix. split; [|split].
    + destruct (Z.lt_ge_cases b e) as [Hlt|Hge].
      * destruct (range_ok_slot b e s 0 Hr) as [r Hroot]; [lia|].
        rewrite Z.add_0_r in Hroot.
        destruct (pop_spec comp Hsw b e s r Hr Hlt Hh Hix Hroot)
          as (s' & Hs' & _ & _ & Hh' & Hix' & _).
        exists s'. replace (Z.max b (e - 1)) with (e - 1) by lia. auto.
      * exists s. replace (Z.max b (e - 1)) with e by lia.
        split; [|auto]. unfold pop. destruct (Z.leb_spec e b); [reflexivity|lia].
    + intros k v. destruct (live_dec b e s k Hb) as [(i & x & Hi & Hx & Hk)|Hn].
      * destruct (update_spec comp Hsw b e s k v i x Hr Hh Hix Hi Hx Hk)
          as (s' & Hs' & Hh' & Hix' & _).
        exists s', true. auto.
      * exists s, false. split; [|auto]. apply update_absent. right.
        destruct Hix as [_ HB]. auto.
    + intros k. destruct (live_dec b e s k Hb) as [(i & x & Hi & Hx & Hk)|Hn].
      * destruct (pop_key_spec comp Hsw b e s k i x Hr Hh Hix Hi Hx Hk)
          as (s' & Hs' & _ & Hh' & Hix' & _).
        exists s', true. auto.
      * exists s, false. split; [|auto]. apply pop_key_absent. right.
        destruct Hix as [_ HB]. auto.
Qed.

(** C2.  On a range that satisfies the heap property and index consistency,
    [sort] returns with the range a permutation of its original entries,
    the storage outside the range untouched, the range ordered by
    dominance (for slots [i < j] the entry at [j] is not dominated by the
    entry at [i], so that the last slot holds an entry that no entry of the
    range dominates), and every key that was live mapped to the
    sentinel. *)
Theorem sort_sorts b e s :
  strict_weak comp -> range_ok b e s ->
  heap_prop comp b e s -> index_ok b e s ->
  exists s',
    sort comp b e s = Ret s' /\
    Permutation (range b e s) (range b e s') /\
    (forall it, ~ (b <= it < e) -> slot it s' = slot it s) /\
    (forall i j x y, 0 <= i < j -> j < e - b ->
                     slot (b + i) s' = Some x -> slot (b + j) s' = Some y ->
                     comp y x = false) /\
    (forall x top, b < e -> slot (e - 1) s' = Some top ->
                   In x (range b e s) -> comp top x = false) /\
    (forall k, live b e s k -> indexer s' k = -1).
Proof.
  intros Hsw Hr Hh Hix. pose proof Hr as (Hb & Hbe & _).
  destruct (sort_spec comp Hsw b e s Hr Hh Hix) as (s' & Hs' & Hre & Ho & Ha).
  pose proof (rearranged_range b e s s' ltac:(lia) Hre) as Hperm.
  exists s'. split; [exact Hs'|]. split; [exact Hperm|].
  split; [apply Hre|]. split; [exact Ho|]. split; [|intros k _; apply Ha].
  intros x top Hlt Htop Hx.
  apply list_elem_of_In in Hx. rewrite Hperm in Hx.
  apply elem_of_range in Hx as (i & Hi & Hxi); [|lia].
  destruct (decide (i = e - b - 1)) as [->|Hne].
  - replace (b + (e - b - 1)) with (e - 1) in Hxi by lia.
    assert (x = top) by congruence. subst x. apply (sw_irrefl _ Hsw).
  - apply (Ho i (e - b - 1) x top); [lia|lia|exact Hxi|].
    replace (b + (e - b - 1)) with (e - 1) by lia. exact Htop.
Qed.

(** C3.  On a non-empty range that satisfies both invariants, [pop] is the
    sift toward the leaves, from the root and over the range without its
    last slot, of the state in which root and last entry are exchanged
    together with their index cells and the key moved out is marked
    absent; it returns with the heap property over the shorter range, the
    old root [r] in the slot left out, and no remaining entry dominating
    [r]. *)
Theorem pop_extracts_root b e s :
  strict_weak comp -> range_ok b e s -> b < e ->
  heap_prop comp b e s -> index_ok b e s ->
  exists r s',
    slot b s = Some r /\
    pop comp b e s = Ret s' /\
    pop comp b e s =
      bubble_down comp b (e - 1) b
        (cell_set (snd r) (-1) (swapped b (e - 1) s)) /\
    heap_prop comp b (e - 1) s' /\
    (forall j z, 0 <= j < e - 1 - b -> slot (b + j) s' = Some z ->
                 comp r z = false) /\
    Permutation (range b e s) (range b (e - 1) s' ++ [r]).
Proof.
  intros Hsw Hr Hlt Hh Hix. pose proof Hr as (Hb & Hbe & _).
  destruct (range_ok_slot b e s 0 Hr) as [r Hroot]; [lia|].
  rewrite Z.add_0_r in Hroot.
  destruct (pop_spec comp Hsw b e s r Hr Hlt Hh Hix Hroot)
    as (s' & Hs' & Hcall & Hre & Hh' & Hix' & Hlast & _ & Htop).
  exists r, s'. split; [exact Hroot|]. split; [exact Hs'|].
  split; [congruence|]. split; [exact Hh'|]. split.
  - intros j z Hj. apply Htop. lia.
  - rewrite <- (range_snoc b e s' r) by (try assumption; lia).
    apply rearranged_range; [lia|exact Hre].
Qed.

(** C4.  On a state that satisfies both invariants and in which key [k] is
    live, [pop_key] returns [true]; the range without its last slot holds
    the original entries but the one of [k], one entry fewer; [k] is mapped
    to the sentinel; both invariants hold over the shorter range.  When the
    entry of [k] was the last one nothing is rebalanced: the entries stay
    where they were and only the cell of [k] changes. *)
Theorem pop_key_removes b e s k :
  strict_weak comp -> range_ok b e s ->
  heap_prop comp b e s -> index_ok b e s -> live b e s k ->
  exists s' x,
    pop_key comp b e k s = Ret (s', true) /\
    snd x = k /\
    Permutation (range b e s) (range b (e - 1) s' ++ [x]) /\
    (length (range b (e - 1) s') + 1 = length (range b e s))%nat /\
    indexer s' k = -1 /\
    heap_prop comp b (e - 1) s' /\ index_ok b (e - 1) s' /\
    (slot (e - 1) s = Some x ->
     elems s' = elems s /\
     forall k', indexer s' k' = if decide (k' = k) then -1 else indexer s k').
Proof.
  intros Hsw Hr Hh Hix (i & x & Hi & Hx & Hk).
  pose proof Hr as (Hb & Hbe & He & _).
  destruct (pop_key_spec comp Hsw b e s k i x Hr Hh Hix Hi Hx Hk)
    as (s' & Hs' & Hre & Hh' & Hix' & Hlast & Habs & Hnone).
  assert (Hperm : Permutation (range b e s) (range b (e - 1) s' ++ [x])).
  { rewrite <- (range_snoc b e s' x) by (try assumption; lia).
    apply rearranged_range; [lia|exact Hre]. }
  exists s', x. split; [exact Hs'|]. split; [exact Hk|].
  split; [exact Hperm|]. split.
  { apply Permutation_length in Hperm. rewrite length_app in Hperm.
    simpl in Hperm. lia. }
  split; [exact Habs|]. split; [exact Hh'|]. split; [exact Hix'|].
  intros Hxl.
  assert (Ei : i = e - b - 1).
  { destruct Hix as [HA _].
    pose proof (HA i x Hi Hx) as H1.
    assert (Hxl' : slot (b + (e - b - 1)) s = Some x)
      by (replace (b + (e - b - 1)) with (e - 1) by lia; exact Hxl).
    pose proof (HA (e - b - 1) x ltac:(lia) Hxl') as H2. lia. }
  rewrite (Hnone Ei). split.
  - unfold swapped. rewrite Hxl. simpl.
    rewrite slot_lookup in Hxl by lia.
    rewrite (list_insert_id _ _ _ Hxl). apply (list_insert_id _ _ _ Hxl).
  - intros k'. rewrite index_cell_set.
    destruct (decide (k' = k)) as [->|N]; [reflexivity|].
    rewrite (index_swapped _ _ _ _ _ _ Hxl Hxl).
    destruct (decide (k' = snd x)); [congruence|reflexivity].
Qed.

(** C5.  On an empty or inverted range ([end <= begin]) [push], [pop],
    [make] and [sort] return the state they were given, and [update] and
    [pop_key] return it with [false]; [update] and [pop_key] do the same on
    any range when the cell of the key holds the sentinel. *)
Theorem degenerate_calls b e s k v :
  (e <= b ->
   push comp b e s = Ret s /\ pop comp b e s = Ret s /\
   make comp b e s = Ret s /\ sort comp b e s = Ret s /\
   update comp b e k v s = Ret (s, false) /\
   pop_key comp b e k s = Ret (s, false)) /\
  (indexer s k = -1 ->
   update comp b e k v s = Ret (s, false) /\
   pop_key comp b e k s = Ret (s, false)).
Proof.
  split.
  - intros Hbe. unfold push, pop, make.
    destruct (Z.leb_spec e b); [|lia].
    repeat split; auto using sort_empty, update_absent, pop_key_absent.
  - intros Hk. split; [apply update_absent|apply pop_key_absent]; auto.
Qed.

(** C6.  With the new entry [x] in the last slot of [[b, e)], the first
    slot past the heap so far, the heap property and index consistency
    over the slots before it, and the key of [x] not live there, [push]
    stores the slot number of [x] in the cell of its key and sifts [x]
    toward the root; it returns with both invariants over the whole range,
    which holds the entries of the heap so far and [x].  The entry is the
    one the caller placed: [push] writes none, the storage keeps its
    entries. *)
Theorem push_inserts b e s x :
  strict_weak comp -> range_ok b e s -> b < e ->
  heap_prop comp b (e - 1) s -> index_ok b (e - 1) s ->
  slot (e - 1) s = Some x -> ~ live b (e - 1) s (snd x) ->
  exists s',
    push comp b e s = Ret s' /\
    push comp b e s =
      bubble_up comp b e (e - 1) (cell_set (snd x) (e - 1 - b) s) /\
    heap_prop comp b e s' /\ index_ok b e s' /\
    Permutation (range b (e - 1) s ++ [x]) (range b e s') /\
    Permutation (elems s) (elems s').
Proof.
  intros Hsw Hr Hlt Hh Hix Hx Hfresh. pose proof Hr as (Hb & Hbe & _).
  destruct (push_spec comp Hsw b e s x Hr Hlt Hh Hix Hx Hfresh)
    as (s' & Hs' & Hcall & Hre & Hh' & Hix').
  exists s'. split; [exact Hs'|]. split.
  { rewrite Hs'. replace (e - 1 - b) with (e - b - 1) by lia.
    symmetry. exact Hcall. }
  split; [exact Hh'|]. split; [exact Hix'|]. split; [|apply Hre].
  rewrite <- (range_snoc b e s x) by (try assumption; lia).
  apply rearranged_range; [lia|exact Hre].
Qed.

(** C7.  [make] computes what sifting toward the leaves from the last
    internal slot down through the root computes; it returns an empty range
    as it is; it returns with the heap property over the whole range, the
    entries permuted inside the range, and index consistency kept if it
    held. *)
Theorem make_heapifies b e s :
  strict_weak comp -> range_ok b e s ->
  make comp b e s = make_from_last_internal comp b e s /\
  (e <= b -> make comp b e s = Ret s) /\
  exists s', make comp b e s = Ret s' /\
             heap_prop comp b e s' /\
             Permutation (range b e s) (range b e s') /\
             (index_ok b e s -> index_ok b e s').
Proof.
  intros Hsw Hr. pose proof Hr as (Hb & Hbe & _).
  assert (Hempty : e <= b -> make comp b e s = Ret s).
  { intros Hle. unfold make. destruct (Z.leb_spec e b); [reflexivity|lia]. }
  split; [apply make_refines; exact Hr|]. split; [exact Hempty|].
  destruct (Z.lt_ge_cases b e) as [Hlt|Hge].
  - destruct (make_spec comp Hsw b e s Hr Hlt) as (s' & Hs' & Hre & Hix & Hh).
    exists s'. split; [exact Hs'|]. split; [exact Hh|].
    split; [apply rearranged_range; [lia|exact Hre]|exact Hix].
  - exists s. split; [apply Hempty; lia|].
    split; [intros j Hj; lia|]. split; [reflexivity|tauto].
Qed.

(** C8.  With an irreflexive comparator, on a state that satisfies both
    invariants and in which key [k] is live with priority [v],
    [update(k, v)] returns [true] and the very state it was given. *)
Theorem update_same_value b e s k v :
  (forall x, comp x x = false) ->
  heap_prop comp b e s -> index_ok b e s ->
  (exists i, 0 <= i < e - b /\ slot (b + i) s = Some (v, k)) ->
  update comp b e k v s = Ret (s, true).
Proof.
  intros Hirr _ [HA _] (i & Hi & Hx).
  apply (update_same comp b e k v s i); try assumption.
  apply (HA i (v, k) Hi Hx).
Qed.

(** C9.  Every round of the [bubble_up] loop moves to a slot strictly
    nearer the root, every round of the [bubble_down] loop to a slot
    strictly nearer the end of the range, and on every input each of the
    two primitives and of the six operations runs to completion.  On a
    range inside the storage the primitives and [push], [pop], [make] and
    [sort] return, whatever the comparator, and so do [update] and
    [pop_key] when the cell of the key holds the sentinel or a slot of the
    range. *)
Theorem operations_terminate :
  (forall b s i s' i',
     bubble_up_step comp b (s, i) = Ret (inl (s', i')) -> 0 <= i' < i) /\
  (forall b n s i s' i',
     0 <= i -> bubble_down_step comp b n (s, i) = Ret (inl (s', i')) ->
     i < i' < n) /\
  (forall b e it s k v,
     completes (bubble_up comp b e it s) /\
     completes (bubble_down comp b e it s) /\
     completes (push comp b e s) /\ completes (pop comp b e s) /\
     completes (make comp b e s) /\ completes (sort comp b e s) /\
     completes (update comp b e k v s) /\
     completes (pop_key comp b e k s)) /\
  (forall b e it s k v,
     range_ok b e s ->
     (exists s', bubble_up comp b e it s = Ret s') /\
     (exists s', bubble_down comp b e it s = Ret s') /\
     (exists s', push comp b e s = Ret s') /\
     (exists s', pop comp b e s = Ret s') /\
     (exists s', make comp b e s = Ret s') /\
     (exists s', sort comp b e s = Ret s') /\
     (indexer s k = -1 \/ 0 <= indexer s k < e - b ->
      (exists r, update comp b e k v s = Ret r) /\
      (exists r, pop_key comp b e k s = Ret r))).
Proof.
  split; [|split; [|split]].
  - intros b s i s' i' Hs. apply bubble_up_step_next in Hs. tauto.
  - intros b n s i s' i' Hi Hs. eapply bubble_down_step_next; eassumption.
  - intros b e it s k v.
    repeat split;
      auto using completes_bubble_up, completes_bubble_down, completes_push,
        completes_pop, completes_make, completes_sort, completes_update,
        completes_pop_key.
  - intros b e it s k v Hr.
    destruct (bubble_up_returns comp b e it s Hr) as (s1 & H1 & _).
    destruct (bubble_down_returns comp b e it s Hr) as (s2 & H2 & _).
    destruct (pop_returns comp b e s Hr) as (s4 & H4 & _).
    split; [eauto|]. split; [eauto|].
    split; [apply push_returns; exact Hr|]. split; [eauto|].
    split; [apply make_returns; exact Hr|].
    split; [apply sort_returns; exact Hr|].
    intros Hk. split; [apply update_returns|apply pop_key_returns]; assumption.
Qed.

End Properties.

(** ** The scenarios of the specification, run on the model *)

(** Pushing (5, a), (3, b), (8, c), (1, d) leaves priority 8 at the root;
    popping until empty extracts 8, 5, 3, 1, read from the back of the
    sorted range. *)
Example scenario_push_pop :
  snapshot id [0; 1; 2; 3]%nat
    (inserts [(5, 0%nat); (3, 1%nat); (8, 2%nat); (1, 3%nat)]) =
    Some ([(8, 2%nat); (3, 1%nat); (5, 0%nat); (1, 3%nat)], [2; 1; 0; 3]) /\
  snapshot id [0; 1; 2; 3]%nat
    (s <- inserts [(5, 0%nat); (3, 1%nat); (8, 2%nat); (1, 3%nat)] ;;
     sort lessp 0 4 s) =
    Some ([(1, 3%nat); (3, 1%nat); (5, 0%nat); (8, 2%nat)], [-1; -1; -1; -1]).
Proof. split; vm_compute; reflexivity. Qed.

(** The three pushes build [heap3]. *)
Example scenario_heap3 :
  snapshot id [0; 1; 2; 3]%nat (inserts [(5, 0%nat); (3, 1%nat); (8, 2%nat)]) =
  snapshot id [0; 1; 2; 3]%nat (Ret heap3).
Proof. vm_compute. reflexivity. Qed.

(** After [update(c, 0)] the next [pop] extracts priority 5, not 8. *)
Example scenario_update_pop :
  snapshot id [0; 1; 2]%nat
    (r <- update lessp 0 3 2%nat 0 heap3 ;; pop lessp 0 3 (fst r)) =
  Some ([(3, 1%nat); (0, 2%nat); (5, 0%nat)], [-1; 0; 1]).
Proof. vm_compute. reflexivity. Qed.

(** [pop_key(b)] on the heap of a, b, c leaves a and c, and b absent. *)
Example scenario_pop_key :
  snapshot fst [0; 1; 2]%nat (pop_key lessp 0 3 1%nat heap3) =
  Some ([(8, 2%nat); (5, 0%nat); (3, 1%nat)], [1; -1; 0]).
Proof. vm_compute. reflexivity. Qed.

(** [update(z, 10)] on a heap without z returns [false] and the heap. *)
Example scenario_update_absent :
  update lessp 0 3 25%nat 10 heap3 = Ret (heap3, false).
Proof. reflexivity. Qed.

(** The input of the last scenario is no heap; what [make] returns is. *)
Example scenario_make_heap :
  heap_propb lessp 0 5 raw5 = false /\
  match make lessp 0 5 raw5 with
  | Ret s => heap_propb lessp 0 5 s
  | _ => false
  end = true.
Proof. split; vm_compute; reflexivity. Qed.

(** [make] on 1, 9, 3, 7, 2 followed by [sort] gives 1, 2, 3, 7, 9. *)
Example scenario_make_sort :
  snapshot id [0; 1; 2; 3; 4]%nat (make lessp 0 5 raw5) =
    Some ([(9, 1%nat); (7, 3%nat); (3, 2%nat); (1, 0%nat); (2, 4%nat)],
          [3; 0; 2; 1; 4]) /\
  snapshot id [0; 1; 2; 3; 4]%nat
    (s <- make lessp 0 5 raw5 ;; sort lessp 0 5 s) =
    Some ([(1, 0%nat); (2, 4%nat); (3, 2%nat); (7, 3%nat); (9, 1%nat)],
          [-1; -1; -1; -1; -1]).
Proof. split; vm_compute; reflexivity. Qed.

(** ** The properties on the running instance *)

Lemma lessp_strict_weak : strict_weak lessp.
Proof.
  unfold lessp. split.
  - intros x. apply Z.ltb_irrefl.
  - intros x y z Hxy Hyz. apply Z.ltb_lt in Hxy, Hyz. apply Z.ltb_lt. lia.
  - intros x y z Hxy Hyz. apply Z.ltb_ge in Hxy, Hyz. apply Z.ltb_ge. lia.
Qed.

(** The properties apply to the default comparator. *)
Lemma less_pair_strict_weak : strict_weak less_pair.
Proof.
  unfold less_pair. split.
  - intros [a k]. simpl. rewrite Z.ltb_irrefl, Nat.ltb_irrefl. reflexivity.
  - intros [a k] [a' k'] [a2 k2]. simpl.
    destruct (Z.ltb_spec a a'), (Z.ltb_spec a' a), (Z.ltb_spec a' a2),
      (Z.ltb_spec a2 a'), (Z.ltb_spec a a2), (Z.ltb_spec a2 a),
      (Nat.ltb_spec k k'), (Nat.ltb_spec k' k2), (Nat.ltb_spec k k2);
      simpl; intros; try reflexivity; try discriminate; lia.
  - intros [a k] [a' k'] [a2 k2]. simpl.
    destruct (Z.ltb_spec a a'), (Z.ltb_spec a' a), (Z.ltb_spec a' a2),
      (Z.ltb_spec a2 a'), (Z.ltb_spec a a2), (Z.ltb_spec a2 a),
      (Nat.ltb_spec k k'), (Nat.ltb_spec k' k2), (Nat.ltb_spec k k2);
      simpl; intros; try reflexivity; try discriminate; lia.
Qed.

Lemma heap3_range : range_ok 0 3 heap3.
Proof. unfold range_ok, MAX_SLOTS. simpl. lia. Qed.

Lemma heap3_heap : heap_prop lessp 0 3 heap3.
Proof. apply heap_propb_sound. reflexivity. Qed.

Lemma heap3_index : index_ok 0 3 heap3.
Proof.
  split.
  - intros i x Hi Hx.
    assert (i = 0 \/ i = 1 \/ i = 2) as [-> | [-> | ->]] by lia;
      vm_compute in Hx; simplify_eq; reflexivity.
  - intros k Hk. destruct k as [|[|[|k]]]; [| | |reflexivity]; exfalso;
      apply Hk.
    + exists 2, (5, 0%nat). split; [lia|]. split; reflexivity.
    + exists 1, (3, 1%nat). split; [lia|]. split; reflexivity.
    + exists 0, (8, 2%nat). split; [lia|]. split; reflexivity.
Qed.

Lemma heap3_new_range : range_ok 0 4 heap3_new.
Proof. unfold range_ok, MAX_SLOTS. simpl. lia. Qed.

Lemma heap3_new_heap : heap_prop lessp 0 (4 - 1) heap3_new.
Proof. apply heap_propb_sound. reflexivity. Qed.

Lemma heap3_new_live k : live 0 (4 - 1) heap3_new k -> (k < 3)%nat.
Proof.
  intros (i & x & Hi & Hx & <-).
  assert (i = 0 \/ i = 1 \/ i = 2) as [-> | [-> | ->]] by lia;
    vm_compute in Hx; simplify_eq; simpl; lia.
Qed.

Lemma heap3_new_index : index_ok 0 (4 - 1) heap3_new.
Proof.
  split.
  - intros i x Hi Hx.
    assert (i = 0 \/ i = 1 \/ i = 2) as [-> | [-> | ->]] by lia;
      vm_compute in Hx; simplify_eq; reflexivity.
  - intros k Hk. destruct k as [|[|[|k]]]; [| | |reflexivity]; exfalso;
      apply Hk.
    + exists 2, (5, 0%nat). split; [lia|]. split; reflexivity.
    + exists 1, (3, 1%nat). split; [lia|]. split; reflexivity.
    + exists 0, (8, 2%nat). split; [lia|]. split; reflexivity.
Qed.

Lemma heap3_new_fresh : ~ live 0 (4 - 1) heap3_new (snd (1, 3%nat)).
Proof. intros Hl. apply heap3_new_live in Hl. simpl in Hl. lia. Qed.

Lemma raw5_range : range_ok 0 5 raw5.
Proof. unfold range_ok, MAX_SLOTS. simpl. lia. Qed.

Lemma raw5_empty : range_ok 2 2 raw5.
Proof. unfold range_ok, MAX_SLOTS. simpl. lia. Qed.

Lemma raw5_index : index_ok 0 5 raw5.
Proof.
  split.
  - intros i x Hi Hx.
    assert (i = 0 \/ i = 1 \/ i = 2 \/ i = 3 \/ i = 4)
      as [-> | [-> | [-> | [-> | ->]]]] by lia;
      vm_compute in Hx; simplify_eq; reflexivity.
  - intros k Hk.
    destruct k as [|[|[|[|[|k]]]]]; [| | | | |reflexivity]; exfalso; apply Hk.
    + exists 0, (1, 0%nat). split; [lia|]. split; reflexivity.
    + exists 1, (9, 1%nat). split; [lia|]. split; reflexivity.
    + exists 2, (3, 2%nat). split; [lia|]. split; reflexivity.
    + exists 3, (7, 3%nat). split; [lia|]. split; reflexivity.
    + exists 4, (2, 4%nat). split; [lia|]. split; reflexivity.
Qed.

Lemma invariants_preserved_witness :
  (exists s', push lessp 0 4 heap3_new = Ret s' /\
              heap_prop lessp 0 4 s' /\ index_ok 0 4 s') /\
  (exists s', pop lessp 0 3 heap3 = Ret s' /\
              heap_prop lessp 0 (Z.max 0 (3 - 1)) s' /\
              index_ok 0 (Z.max 0 (3 - 1)) s') /\
  (exists s' ok, update lessp 0 3 2%nat 0 heap3 = Ret (s', ok) /\
                 heap_prop lessp 0 3 s' /\ index_ok 0 3 s') /\
  (exists s' ok, pop_key lessp 0 3 1%nat heap3 = Ret (s', ok) /\
                 heap_prop lessp 0 (if ok then 3 - 1 else 3) s' /\
                 index_ok 0 (if ok then 3 - 1 else 3) s').
Proof.
  split.
  - apply (proj1 (invariants_preserved lessp 0 4 heap3_new
                    lessp_strict_weak heap3_new_range) (1, 3%nat)).
    + lia.
    + exact heap3_new_heap.
    + exact heap3_new_index.
    + reflexivity.
    + exact heap3_new_fresh.
  - pose proof (proj2 (invariants_preserved lessp 0 3 heap3
                         lessp_strict_weak heap3_range)
                  heap3_heap heap3_index) as (Hpop & Hupd & Hkey).
    split; [exact Hpop|]. split; [exact (Hupd 2%nat 0)|exact (Hkey 1%nat)].
Defined.

Lemma sort_sorts_witness :
  exists s',
    sort lessp 0 3 heap3 = Ret s' /\
    Permutation (range 0 3 heap3) (range 0 3 s') /\
    (forall it, ~ (0 <= it < 3) -> slot it s' = slot it heap3) /\
    (forall i j x y, 0 <= i < j -> j < 3 - 0 ->
                     slot (0 + i) s' = Some x -> slot (0 + j) s' = Some y ->
                     lessp y x = false) /\
    (forall x top, 0 < 3 -> slot (3 - 1) s' = Some top ->
                   In x (range 0 3 heap3) -> lessp top x = false) /\
    (forall k, live 0 3 heap3 k -> indexer s' k = -1).
Proof.
  exact (sort_sorts lessp 0 3 heap3 lessp_strict_weak heap3_range
           heap3_heap heap3_index).
Defined.

Lemma pop_extracts_root_witness :
  exists r s',
    slot 0 heap3 = Some r /\
    pop lessp 0 3 heap3 = Ret s' /\
    pop lessp 0 3 heap3 =
      bubble_down lessp 0 (3 - 1) 0
        (cell_set (snd r) (-1) (swapped 0 (3 - 1) heap3)) /\
    heap_prop lessp 0 (3 - 1) s' /\
    (forall j z, 0 <= j < 3 - 1 - 0 -> slot (0 + j) s' = Some z ->
                 lessp r z = false) /\
    Permutation (range 0 3 heap3) (range 0 (3 - 1) s' ++ [r]).
Proof.
  apply (pop_extracts_root lessp 0 3 heap3 lessp_strict_weak heap3_range).
  - lia.
  - exact heap3_heap.
  - exact heap3_index.
Defined.

Lemma heap3_live_1 : live 0 3 heap3 1%nat.
Proof. exists 1, (3, 1%nat). split; [lia|]. split; reflexivity. Qed.

Lemma pop_key_removes_witness :
  exists s' x,
    pop_key lessp 0 3 1%nat heap3 = Ret (s', true) /\
    snd x = 1%nat /\
    Permutation (range 0 3 heap3) (range 0 (3 - 1) s' ++ [x]) /\
    (length (range 0 (3 - 1) s') + 1 = length (range 0 3 heap3))%nat /\
    indexer s' 1%nat = -1 /\
    heap_prop lessp 0 (3 - 1) s' /\ index_ok 0 (3 - 1) s' /\
    (slot (3 - 1) heap3 = Some x ->
     elems s' = elems heap3 /\
     forall k', indexer s' k' =
                if decide (k' = 1%nat) then -1 else indexer heap3 k').
Proof.
  exact (pop_key_removes lessp 0 3 heap3 1%nat lessp_strict_weak heap3_range
           heap3_heap heap3_index heap3_live_1).
Defined.

Lemma degenerate_calls_witness :
  (push lessp 3 3 heap3 = Ret heap3 /\ pop lessp 3 3 heap3 = Ret heap3 /\
   make lessp 3 3 heap3 = Ret heap3 /\ sort lessp 3 3 heap3 = Ret heap3 /\
   update lessp 3 3 7%nat 4 heap3 = Ret (heap3, false) /\
   pop_key lessp 3 3 7%nat heap3 = Ret (heap3, false)) /\
  (update lessp 0 3 7%nat 4 heap3 = Ret (heap3, false) /\
   pop_key lessp 0 3 7%nat heap3 = Ret (heap3, false)).
Proof.
  split.
  - apply (proj1 (degenerate_calls lessp 3 3 heap3 7%nat 4)). lia.
  - apply (proj2 (degenerate_calls lessp 0 3 heap3 7%nat 4)). reflexivity.
Defined.

Lemma push_inserts_witness :
  exists s',
    push lessp 0 4 heap3_new = Ret s' /\
    push lessp 0 4 heap3_new =
      bubble_up lessp 0 4 (4 - 1)
        (cell_set (snd (1, 3%nat)) (4 - 1 - 0) heap3_new) /\
    heap_prop lessp 0 4 s' /\ index_ok 0 4 s' /\
    Permutation (range 0 (4 - 1) heap3_new ++ [(1, 3%nat)]) (range 0 4 s') /\
    Permutation (elems heap3_new) (elems s').
Proof.
  apply (push_inserts lessp 0 4 heap3_new (1, 3%nat) lessp_strict_weak
           heap3_new_range).
  - lia.
  - exact heap3_new_heap.
  - exact heap3_new_index.
  - reflexivity.
  - exact heap3_new_fresh.
Defined.

Lemma make_heapifies_witness :
  (make lessp 0 5 raw5 = make_from_last_internal lessp 0 5 raw5 /\
   exists s', make lessp 0 5 raw5 = Ret s' /\
              heap_prop lessp 0 5 s' /\
              Permutation (range 0 5 raw5) (range 0 5 s') /\
              index_ok 0 5 s') /\
  make lessp 2 2 raw5 = Ret raw5.
Proof.
  split.
  - destruct (make_heapifies lessp 0 5 raw5 lessp_strict_weak raw5_range)
      as (Hspec & _ & s' & Hs' & Hh & Hp & Hix).
    split; [exact Hspec|]. exists s'.
    split; [exact Hs'|]. split; [exact Hh|]. split; [exact Hp|].
    exact (Hix raw5_index).
  - apply (make_heapifies lessp 2 2 raw5 lessp_strict_weak raw5_empty). lia.
Defined.

Lemma update_same_value_witness :
  update lessp 0 3 1%nat 3 heap3 = Ret (heap3, true).
Proof.
  apply (update_same_value lessp 0 3 heap3 1%nat 3).
  - intros x. unfold lessp. apply Z.ltb_irrefl.
  - exact heap3_heap.
  - exact heap3_index.
  - exists 1. split; [lia|reflexivity].
Defined.

Lemma operations_terminate_witness :
  completes (sort lessp 0 3 heap3) /\
  (exists s', make lessp 0 5 raw5 = Ret s') /\
  (exists r, pop_key lessp 0 5 3%nat raw5 = Ret r).
Proof.
  pose proof (proj2 (proj2 (operations_terminate lessp))) as [Hc Hr].
  split; [apply (Hc 0 3 0 heap3 0%nat 0)|].
  pose proof (Hr 0 5 0 raw5 3%nat 0 raw5_range) as Hraw.
  split; [apply Hraw|]. apply Hraw. right. simpl. lia.
Defined.

(** * Further properties of the code *)

(** ** More fuel changes nothing *)

Section Fuel.

Context {S R : Type} (step : S -> res (S + R)).

Lemma loop_fuel_mono fuel fuel' s v :
  loop step fuel s = Ret v -> (fuel <= fuel')%nat ->
  loop step fuel' s = Ret v.
Proof.
  revert fuel' s. induction fuel as [|f IH]; intros fuel' s Hl Hle;
    [simpl in Hl; discriminate|].
  destruct fuel' as [|f']; [lia|]. cbn [loop] in *.
  destruct (step s) as [[s'|w]| |]; cbn [bind] in *; try discriminate.
  - apply IH; [exact Hl|lia].
  - exact Hl.
Qed.

Lemma loop_fuel_agree fuel fuel' s v v' :
  loop step fuel s = Ret v -> loop step fuel' s = Ret v' -> v = v'.
Proof.
  intros H1 H2.
  apply (loop_fuel_mono _ (Nat.max fuel fuel')) in H1; [|lia].
  apply (loop_fuel_mono _ (Nat.max fuel fuel')) in H2; [|lia].
  congruence.
Qed.

End Fuel.

(** ** Changes confined to the range and the cells of its keys *)

Section InsideRelation.

Context {P K : Type} `{EqDecision K}.

Implicit Types (s : store P K) (x y : P * K) (it p q b e i j : Z) (k : K).

Lemma live_wider b e e' s k : live b e' s k -> e' <= e -> live b e s k.
Proof. intros (i & x & Hi & Hx) He. exists i, x. split; [lia|exact Hx]. Qed.

Lemma inside_refl b e s : inside b e s s.
Proof. split; [apply rearranged_refl|]. intros k _. reflexivity. Qed.

Lemma inside_trans b e s1 s2 s3 :
  0 <= b <= e -> inside b e s1 s2 -> inside b e s2 s3 -> inside b e s1 s3.
Proof.
  intros Hbe [Hr1 Hc1] [Hr2 Hc2].
  split; [eapply rearranged_trans; eassumption|].
  intros k Hk. rewrite Hc2, Hc1; auto.
  intros Hl. apply Hk. eapply rearranged_live; eassumption.
Qed.

Lemma inside_wider b e e' s s' :
  e' <= e -> inside b e' s s' -> inside b e s s'.
Proof.
  intros He [Hr Hc]. split; [eapply rearranged_wider; [| |exact Hr]; lia|].
  intros k Hk. apply Hc. intros Hl. apply Hk. eapply live_wider; eassumption.
Qed.

Lemma inside_swapped b e s i j x y :
  0 <= i < e - b -> 0 <= j < e - b ->
  slot (b + i) s = Some x -> slot (b + j) s = Some y ->
  inside b e s (swapped (b + i) (b + j) s).
Proof.
  intros Hi Hj Hx Hy. split.
  - eapply rearranged_swapped; eauto; lia.
  - intros k Hk. rewrite (index_swapped _ _ _ _ _ _ Hx Hy).
    destruct (decide (k = snd x)) as [->|Nx].
    { exfalso. apply Hk. exists i, x. auto. }
    destruct (decide (k = snd y)) as [->|Ny]; [|reflexivity].
    exfalso. apply Hk. exists j, y. auto.
Qed.

Lemma inside_cell_set b e s k v :
  live b e s k -> inside b e s (cell_set k v s).
Proof.
  intros Hl. split; [apply rearranged_cell_set|].
  intros k' Hk'. rewrite index_cell_set.
  destruct (decide (k' = k)) as [->|N]; [contradiction|reflexivity].
Qed.

Lemma range_ok_inside b e b' e' s s' :
  inside b' e' s s' -> range_ok b e s -> range_ok b e s'.
Proof. intros [Hr _]. eapply range_ok_rearranged; exact Hr. Qed.

End InsideRelation.

Section Inside.

Context {P K : Type} `{EqDecision K} (comp : P * K -> P * K -> bool).

Implicit Types (s : store P K) (x y : P * K) (it p q b e i j : Z) (k : K).

Lemma bubble_up_inside b e it s :
  range_ok b e s ->
  exists s', bubble_up comp b e it s = Ret s' /\ inside b e s s'.
Proof.
  intros Hr. unfold bubble_up.
  destruct (Z.ltb_spec it b); [exists s; split; [reflexivity|apply inside_refl]|].
  destruct (Z.leb_spec e it); [exists s; split; [reflexivity|apply inside_refl]|].
  cbn [orb]. pose proof Hr as (Hb & Hbe & He & Hm). unfold MAX_SLOTS in Hm.
  rewrite int_Ret by (unfold INT_MIN, INT_MAX; lia). cbn [bind].
  apply (loop_inv (bubble_up_step comp b)
           (fun st => range_ok b e (fst st) /\ inside b e s (fst st) /\
                      0 <= snd st < e - b)
           (fun s' => inside b e s s')
           (fun st => Z.to_nat (snd st)));
    [|cbn [fst snd]; split; [exact Hr|split; [apply inside_refl|lia]]
     |cbn [snd]; lia].
  intros [s1 i] (Hr1 & Hin & Hi). cbn [fst snd] in *.
  unfold bubble_up_step.
  destruct (Z.ltb_spec 0 i) as [Hpos|Hz]; [|exact Hin].
  destruct (range_ok_slot b e s1 (parent i) Hr1) as [x Hx];
    [unfold parent; lia|].
  destruct (range_ok_slot b e s1 i Hr1) as [y Hy]; [lia|].
  rewrite (deref_Some _ _ _ Hx), (deref_Some _ _ _ Hy). cbn [bind].
  destruct (comp x y); [|exact Hin].
  rewrite (swap_both_bind _ _ _ _ _ _ Hx Hy). cbn [fst snd].
  assert (Hsw' : inside b e s1 (swapped (b + parent i) (b + i) s1)).
  { eapply inside_swapped; try eassumption; unfold parent; lia. }
  split; [|unfold parent; lia].
  split; [eapply range_ok_inside; eassumption|].
  split; [eapply inside_trans; [lia|eassumption..]|unfold parent; lia].
Qed.

Lemma bubble_down_inside b e it s :
  range_ok b e s ->
  exists s', bubble_down comp b e it s = Ret s' /\ inside b e s s'.
Proof.
  intros Hr. unfold bubble_down.
  destruct (Z.ltb_spec it b); [exists s; split; [reflexivity|apply inside_refl]|].
  destruct (Z.leb_spec e it); [exists s; split; [reflexivity|apply inside_refl]|].
  cbn [orb]. pose proof Hr as (Hb & Hbe & He & Hm). unfold MAX_SLOTS in Hm.
  rewrite (int_Ret (it - b)) by (unfold INT_MIN, INT_MAX; lia). cbn [bind].
  rewrite (int_Ret (e - b)) by (unfold INT_MIN, INT_MAX; lia). cbn [bind].
  apply (loop_inv (bubble_down_step comp b (e - b))
           (fun st => range_ok b e (fst st) /\ inside b e s (fst st) /\
                      0 <= snd st < e - b)
           (fun s' => inside b e s s')
           (fun st => Z.to_nat (e - b - snd st - 1)));
    [|cbn [fst snd]; split; [exact Hr|split; [apply inside_refl|lia]]
     |cbn [snd]; lia].
  intros [s1 i] (Hr1 & Hin & Hi). cbn [fst snd] in *.
  unfold bubble_down_step. destruct (Z.ltb_spec i (e - b)); [|lia].
  rewrite (int_Ret (2 * i)) by (unfold INT_MIN, INT_MAX; lia). cbn [bind].
  rewrite (int_Ret (2 * i + 1)) by (unfold INT_MIN, INT_MAX; lia). cbn [bind].
  destruct (children_returns comp b e s1 i Hr1 Hi) as (m & -> & Hmi).
  cbn [bind].
  destruct (Z.eqb_spec m i) as [->|Hne]; [exact Hin|].
  destruct (range_ok_slot b e s1 i Hr1 Hi) as [x Hx].
  destruct (range_ok_slot b e s1 m Hr1) as [z Hz]; [lia|].
  rewrite (swap_both_bind _ _ _ _ _ _ Hx Hz). cbn [fst snd].
  assert (Hsw' : inside b e s1 (swapped (b + i) (b + m) s1)).
  { eapply inside_swapped; try eassumption; lia. }
  split; [|lia].
  split; [eapply range_ok_inside; eassumption|].
  split; [eapply inside_trans; [lia|eassumption..]|lia].
Qed.


Lemma pop_inside b e s :
  range_ok b e s ->
  exists s', pop comp b e s = Ret s' /\ inside b e s s'.
Proof.
  intros Hr. unfold pop.
  destruct (Z.leb_spec e b); [exists s; split; [reflexivity|apply inside_refl]|].
  cbv zeta. pose proof Hr as (Hb & Hbe & He & Hm).
  destruct (range_ok_slot b e s 0 Hr) as [x Hx]; [lia|].
  destruct (range_ok_slot b e s (e - b - 1) Hr) as [y Hy]; [lia|].
  pose proof (inside_swapped b e s 0 (e - b - 1) x y ltac:(lia) ltac:(lia)
                Hx Hy) as Hin1.
  replace (b + (e - b - 1)) with (e - 1) in Hy, Hin1 by lia.
  rewrite Z.add_0_r in Hx, Hin1.
  rewrite (swap_both_bind _ _ _ _ _ _ Hx Hy).
  assert (Hl : slot (e - 1) (swapped b (e - 1) s) = Some x).
  { rewrite (slot_swapped _ _ _ _ _ _ Hx Hy).
    destruct (decide (e - 1 = e - 1)); [reflexivity|congruence]. }
  rewrite (deref_Some _ _ _ Hl). cbn [bind].
  assert (Hlive : live b e (swapped b (e - 1) s) (snd x)).
  { exists (e - b - 1), x. split; [lia|]. split; [|reflexivity].
    replace (b + (e - b - 1)) with (e - 1) by lia. exact Hl. }
  pose proof (inside_cell_set b e _ (snd x) (-1) Hlive) as Hin2.
  set (s3 := cell_set (snd x) (-1) (swapped b (e - 1) s)) in *.
  assert (Hin3 : inside b e s s3) by (eapply inside_trans; [lia|eassumption..]).
  destruct (bubble_down_inside b (e - 1) b s3) as (s' & Hs' & Hin').
  { eapply range_ok_narrow; [eapply range_ok_inside; eassumption|lia]. }
  exists s'. split; [exact Hs'|].
  eapply inside_trans; [lia|exact Hin3|].
  eapply inside_wider; [|exact Hin']. lia.
Qed.

Lemma make_inside b e s :
  range_ok b e s ->
  exists s', make comp b e s = Ret s' /\ inside b e s s' /\
             (index_ok b e s -> index_ok b e s').
Proof.
  intros Hr. unfold make. pose proof Hr as (Hb & Hbe & _).
  destruct (Z.leb_spec e b).
  { exists s. split; [reflexivity|]. split; [apply inside_refl|tauto]. }
  apply (loop_inv (make_step comp b e)
           (fun st => range_ok b e (fst st) /\ inside b e s (fst st) /\
                      (index_ok b e s -> index_ok b e (fst st)) /\
                      snd st < e)
           (fun s' => inside b e s s' /\ (index_ok b e s -> index_ok b e s'))
           (fun st => Z.to_nat (snd st - b + 1)));
    [|cbn [fst snd]; split; [exact Hr|split; [apply inside_refl|
                                      split; [tauto|lia]]]
     |cbn [snd]; lia].
  intros [s1 it] (Hr1 & Hin & Hix & Hit). cbn [fst snd] in *.
  unfold make_step. destruct (Z.leb_spec b it); [|split; assumption].
  destruct (bubble_down_inside b e it s1 Hr1) as (s2 & Hs2 & Hin2).
  destruct (bubble_down_returns comp b e it s1 Hr1) as (s2' & Hs2' & _ & Hix2).
  assert (s2' = s2) by congruence. subst s2'. rewrite Hs2.
  cbn [bind fst snd]. split; [|lia].
  split; [eapply range_ok_inside; eassumption|].
  split; [eapply inside_trans; [lia|eassumption..]|].
  split; [auto|lia].
Qed.

Lemma sort_inside b e s :
  range_ok b e s ->
  exists s', sort comp b e s = Ret s' /\ inside b e s s' /\
             (index_ok b e s -> forall k, indexer s' k = -1).
Proof.
  intros Hr. unfold sort. pose proof Hr as (Hb & Hbe & _).
  apply (loop_inv (sort_step comp b)
           (fun st => range_ok b e (fst st) /\ inside b e s (fst st) /\
                      b <= snd st <= e /\
                      (index_ok b e s -> index_ok b (snd st) (fst st)))
           (fun s' => inside b e s s' /\
                      (index_ok b e s -> forall k, indexer s' k = -1))
           (fun st => Z.to_nat (snd st - b)));
    [|cbn [fst snd]; split; [exact Hr|split; [apply inside_refl|
                                      split; [lia|tauto]]]
     |cbn [snd]; lia].
  intros [s1 e1] (Hr1 & Hin & He1 & Hix). cbn [fst snd] in *.
  unfold sort_step. destruct (Z.ltb_spec b e1) as [Hlt|Hge].
  - assert (Hr1' : range_ok b e1 s1) by (eapply range_ok_narrow; eauto).
    destruct (pop_inside b e1 s1 Hr1') as (s2 & Hs2 & Hin2).
    destruct (pop_returns comp b e1 s1 Hr1') as (s2' & Hs2' & _ & _ & Hix2).
    assert (s2' = s2) by congruence. subst s2'. rewrite Hs2.
    cbn [bind fst snd]. split; [|lia].
    assert (Hin2' : inside b e s1 s2)
      by (eapply inside_wider; [|exact Hin2]; lia).
    split; [eapply range_ok_inside; eassumption|].
    split; [eapply inside_trans; [lia|eassumption..]|].
    split; [lia|]. intros H0. apply (Hix2 Hlt (Hix H0)).
  - split; [exact Hin|]. intros H0 k.
    destruct (Hix H0) as [_ HB]. apply HB. intros (i & x & Hi & _). lia.
Qed.

End Inside.

(** ** [pop] after [pop] *)

Section Drain.

Context {P K : Type} `{EqDecision K} (comp : P * K -> P * K -> bool).

Implicit Types (s : store P K) (x y : P * K) (it p q b e i j : Z) (k : K)
  (n m : nat).

Lemma bind_Ret_r {A : Type} (c : res A) : (x <- c ;; Ret x) = c.
Proof. destruct c; reflexivity. Qed.

Lemma pops_app b m : forall n e s,
  pops comp b e (n + m) s =
  (s1 <- pops comp b e n s ;; pops comp b (e - Z.of_nat n) m s1).
Proof.
  induction n as [|n IH]; intros e s.
  - cbn [pops Nat.add bind]. replace (e - Z.of_nat 0) with e by lia.
    reflexivity.
  - cbn [pops Nat.add]. destruct (pop comp b e s) as [s1| |]; cbn [bind];
      try reflexivity.
    rewrite IH. replace (e - 1 - Z.of_nat n) with (e - Z.of_nat (S n)) by lia.
    reflexivity.
Qed.

(** [sort] is the [pop]s of the whole range. *)
Lemma sort_pops b : forall n e s,
  Z.of_nat n <= e - b ->
  sort comp b e s =
  (s' <- pops comp b e n s ;; sort comp b (e - Z.of_nat n) s').
Proof.
  induction n as [|n IH]; intros e s Hn.
  - cbn [pops bind]. replace (e - Z.of_nat 0) with e by lia. reflexivity.
  - rewrite (sort_unfold comp b e s) by lia. cbn [pops].
    destruct (pop comp b e s) as [s1| |]; cbn [bind]; try reflexivity.
    rewrite (IH (e - 1) s1) by lia.
    replace (e - 1 - Z.of_nat n) with (e - Z.of_nat (S n)) by lia.
    reflexivity.
Qed.

Lemma sort_all_pops b e s :
  b <= e -> sort comp b e s = pops comp b e (Z.to_nat (e - b)) s.
Proof.
  intros Hbe. rewrite (sort_pops b (Z.to_nat (e - b)) e s) by lia.
  rewrite <- (bind_Ret_r (pops comp b e (Z.to_nat (e - b)) s)) at 2.
  destruct (pops comp b e (Z.to_nat (e - b)) s) as [s'| |]; cbn [bind];
    try reflexivity.
  apply sort_empty. lia.
Qed.

Hypothesis Hsw : strict_weak comp.

(** The state after [n] pops of a heap: a heap and index consistency on
    what is left of the range, and behind it the extracted entries, each
    dominated by nothing before it, their keys mapped to the sentinel. *)
Lemma pops_spec b : forall n e s,
  range_ok b e s -> heap_prop comp b e s -> index_ok b e s ->
  Z.of_nat n <= e - b ->
  exists s',
    pops comp b e n s = Ret s' /\ inside b e s s' /\
    heap_prop comp b (e - Z.of_nat n) s' /\
    index_ok b (e - Z.of_nat n) s' /\
    (forall i j x y, 0 <= i < j -> j < e - b -> e - Z.of_nat n - b <= j ->
                     slot (b + i) s' = Some x -> slot (b + j) s' = Some y ->
                     comp y x = false) /\
    (forall j y, e - Z.of_nat n <= j < e -> slot j s' = Some y ->
                 indexer s' (snd y) = -1).
Proof.
  induction n as [|n IH]; intros e s Hr Hh Hix Hn.
  - exists s. cbn [pops]. replace (e - Z.of_nat 0) with e by lia.
    split; [reflexivity|]. split; [apply inside_refl|].
    split; [exact Hh|]. split; [exact Hix|]. split; intros; lia.
  - pose proof Hr as (Hb & Hbe & He & Hm).
    destruct (range_ok_slot b e s 0 Hr) as [r Hroot]; [lia|].
    rewrite Z.add_0_r in Hroot.
    destruct (pop_spec comp Hsw b e s r Hr ltac:(lia) Hh Hix Hroot)
      as (s1 & Hs1 & _ & Hre1 & Hh1 & Hix1 & Hlast & Habs & Htop).
    destruct (pop_inside comp b e s Hr) as (s1' & Hs1' & Hin1).
    rewrite Hs1 in Hs1'. injection Hs1' as <-.
    assert (Hr1 : range_ok b (e - 1) s1).
    { eapply range_ok_narrow; [eapply range_ok_inside; eassumption|lia]. }
    destruct (IH (e - 1) s1 Hr1 Hh1 Hix1 ltac:(lia))
      as (s' & Hs' & Hin' & Hh' & Hix' & Hord & Hkeys).
    replace (e - 1 - Z.of_nat n) with (e - Z.of_nat (S n)) in * by lia.
    assert (Hkeep : slot (e - 1) s' = Some r).
    { destruct Hin' as [(_ & _ & Ho) _]. rewrite Ho by lia. exact Hlast. }
    exists s'. cbn [pops]. rewrite Hs1. cbn [bind].
    split; [exact Hs'|]. split.
    { eapply inside_trans; [lia|exact Hin1|].
      eapply inside_wider; [|exact Hin']. lia. }
    split; [exact Hh'|]. split; [exact Hix'|]. split.
    + intros i j x y Hij Hj Htail Hx Hy.
      destruct (decide (j = e - 1 - b)) as [->|Hne].
      * replace (b + (e - 1 - b)) with (e - 1) in Hy by lia.
        assert (y = r) by congruence. subst y.
        destruct (rearranged_slot b (e - 1) s1 s' i x ltac:(lia)
                    (proj1 Hin') ltac:(lia) Hx) as (i' & Hi' & Hx').
        apply (Htop i' x); [lia|exact Hx'].
      * apply (Hord i j x y); try assumption; lia.
    + intros j y Hj Hy.
      destruct (decide (j = e - 1)) as [->|Hne].
      * assert (y = r) by congruence. subst y.
        rewrite (proj2 Hin' (snd r)); [exact Habs|].
        apply absent_not_live; assumption.
      * apply (Hkeys j y); [lia|exact Hy].
Qed.

(** The entry that the pop after the first [m] extracts is where that pop
    put it after any number of further pops. *)
Lemma pops_place b e s m n s' :
  range_ok b e s -> heap_prop comp b e s -> index_ok b e s ->
  (m < n)%nat -> Z.of_nat n <= e - b -> pops comp b e n s = Ret s' ->
  exists sm r,
    pops comp b e m s = Ret sm /\ slot b sm = Some r /\
    slot (e - Z.of_nat m - 1) s' = Some r.
Proof.
  intros Hr Hh Hix Hmn Hn Hs'. pose proof Hr as (Hb & Hbe & He & Hmax).
  destruct (pops_spec b m e s Hr Hh Hix ltac:(lia))
    as (sm & Hsm & Hinm & Hhm & Hixm & _).
  assert (Hrm : range_ok b (e - Z.of_nat m) sm).
  { eapply range_ok_narrow; [eapply range_ok_inside; eassumption|lia]. }
  destruct (range_ok_slot b _ sm 0 Hrm) as [r Hroot]; [lia|].
  rewrite Z.add_0_r in Hroot.
  exists sm, r. split; [exact Hsm|]. split; [exact Hroot|].
  replace n with (m + S (n - m - 1))%nat in Hs' by lia.
  rewrite pops_app, Hsm in Hs'. cbn [bind pops] in Hs'.
  destruct (pop_spec comp Hsw b _ sm r Hrm ltac:(lia) Hhm Hixm Hroot)
    as (s2 & Hs2 & _ & Hre2 & Hh2 & Hix2 & Hlast & _).
  rewrite Hs2 in Hs'. cbn [bind] in Hs'.
  assert (Hr2 : range_ok b (e - Z.of_nat m - 1) s2).
  { eapply range_ok_narrow; [eapply range_ok_rearranged; eassumption|lia]. }
  destruct (pops_spec b (n - m - 1) _ s2 Hr2 Hh2 Hix2 ltac:(lia))
    as (s3 & Hs3 & [(_ & _ & Ho) _] & _).
  rewrite Hs3 in Hs'. injection Hs' as <-.
  rewrite Ho by lia. exact Hlast.
Qed.

End Drain.

Section Extracted.

Context {P K : Type} `{EqDecision K} (comp : P * K -> P * K -> bool).

Implicit Types (s : store P K) (x y : P * K) (it p q b e i j : Z) (k : K)
  (n m : nat).

(** C10.  After [pop] on a non-empty range on which index consistency
    holds the extracted root is still in the storage: it is in slot
    [end - 1], just past the shorter range, and its key is mapped to the
    sentinel.  [sort] is [pop] repeated over the whole range.  After any
    number [n] of [pop]s of a heap, the entry each of them extracted is
    still in the slot where that [pop] put it, the one extracted after [m]
    others in slot [end - m - 1]; these last [n] slots hold entries that
    no entry before them in the range dominates, so they are in sorted
    order behind a heap of the remaining entries, their keys mapped to the
    sentinel, and the range holds the entries it held. *)
Theorem pop_keeps_extracted b e s :
  range_ok b e s -> index_ok b e s ->
  (forall r, b < e -> slot b s = Some r ->
     exists s', pop comp b e s = Ret s' /\
                slot (e - 1) s' = Some r /\ indexer s' (snd r) = -1 /\
                length (elems s') = length (elems s)) /\
  sort comp b e s = pops comp b e (Z.to_nat (e - b)) s /\
  (strict_weak comp -> heap_prop comp b e s ->
   forall n, Z.of_nat n <= e - b ->
     exists s',
       pops comp b e n s = Ret s' /\
       Permutation (range b e s) (range b e s') /\
       (forall it, ~ (b <= it < e) -> slot it s' = slot it s) /\
       heap_prop comp b (e - Z.of_nat n) s' /\
       index_ok b (e - Z.of_nat n) s' /\
       (forall m, (m < n)%nat ->
          exists sm r, pops comp b e m s = Ret sm /\ slot b sm = Some r /\
                       slot (e - Z.of_nat m - 1) s' = Some r) /\
       (forall i j x y, 0 <= i < j -> j < e - b ->
                        e - Z.of_nat n - b <= j ->
                        slot (b + i) s' = Some x ->
                        slot (b + j) s' = Some y -> comp y x = false) /\
       (forall j y, e - Z.of_nat n <= j < e -> slot j s' = Some y ->
                    indexer s' (snd y) = -1)).
Proof.
  intros Hr Hix. pose proof Hr as (Hb & Hbe & _). split; [|split].
  - intros r Hlt Hroot.
    destruct (pop_returns comp b e s Hr) as (s' & Hs' & Hre & Hlast & Hidx).
    exists s'. split; [exact Hs'|].
    split; [rewrite (Hlast Hlt); exact Hroot|].
    split; [apply (Hidx Hlt Hix); exact Hroot|apply Hre].
  - apply sort_all_pops. exact Hbe.
  - intros Hsw Hh n Hn.
    destruct (pops_spec comp Hsw b n e s Hr Hh Hix Hn)
      as (s' & Hs' & [Hre _] & Hh' & Hix' & Hord & Hkeys).
    exists s'. split; [exact Hs'|].
    split; [apply rearranged_range; [lia|exact Hre]|].
    split; [apply Hre|]. split; [exact Hh'|]. split; [exact Hix'|].
    split; [|split; [exact Hord|exact Hkeys]].
    intros m Hm. eapply pops_place; eassumption.
Qed.

End Extracted.

Lemma pop_keeps_extracted_witness :
  (exists s', pop lessp 0 3 heap3 = Ret s' /\
              slot (3 - 1) s' = Some (8, 2%nat) /\
              indexer s' (snd (8, 2%nat)) = -1 /\
              length (elems s') = length (elems heap3)) /\
  sort lessp 0 3 heap3 = pops lessp 0 3 (Z.to_nat (3 - 0)) heap3 /\
  exists s',
    pops lessp 0 3 2 heap3 = Ret s' /\
    Permutation (range 0 3 heap3) (range 0 3 s') /\
    (forall it, ~ (0 <= it < 3) -> slot it s' = slot it heap3) /\
    heap_prop lessp 0 (3 - Z.of_nat 2) s' /\
    index_ok 0 (3 - Z.of_nat 2) s' /\
    (forall m, (m < 2)%nat ->
       exists sm r, pops lessp 0 3 m heap3 = Ret sm /\ slot 0 sm = Some r /\
                    slot (3 - Z.of_nat m - 1) s' = Some r) /\
    (forall i j x y, 0 <= i < j -> j < 3 - 0 ->
                     3 - Z.of_nat 2 - 0 <= j ->
                     slot (0 + i) s' = Some x ->
                     slot (0 + j) s' = Some y -> lessp y x = false) /\
    (forall j y, 3 - Z.of_nat 2 <= j < 3 -> slot j s' = Some y ->
                 indexer s' (snd y) = -1).
Proof.
  pose proof (pop_keeps_extracted lessp 0 3 heap3 heap3_range heap3_index)
    as (Hpop & Hsort & Hpops).
  split; [|split; [exact Hsort|]].
  - apply (Hpop (8, 2%nat)); [lia|reflexivity].
  - apply (Hpops lessp_strict_weak heap3_heap 2%nat). simpl. lia.
Defined.

(** ** Rebalancing a range that is a heap *)

Section Settled.

Context {P K : Type} `{EqDecision K} (comp : P * K -> P * K -> bool).

Implicit Types (s : store P K) (x y : P * K) (it p q b e i j : Z) (k : K).

Lemma bubble_up_settled b e it s :
  range_ok b e s -> heap_prop comp b e s -> bubble_up comp b e it s = Ret s.
Proof.
  intros Hr Hh. unfold bubble_up.
  destruct (Z.ltb_spec it b); [reflexivity|].
  destruct (Z.leb_spec e it); [reflexivity|]. cbn [orb].
  pose proof Hr as (Hb & Hbe & He & Hm). unfold MAX_SLOTS in Hm.
  rewrite int_Ret by (unfold INT_MIN, INT_MAX; lia). cbn [bind].
  replace (Z.to_nat (it - b) + 1)%nat with (S (Z.to_nat (it - b))) by lia.
  cbn [loop]. unfold bubble_up_step.
  destruct (Z.ltb_spec 0 (it - b)) as [Hpos|Hz]; [|reflexivity].
  destruct (range_ok_slot b e s (parent (it - b)) Hr) as [x Hx];
    [unfold parent; lia|].
  destruct (range_ok_slot b e s (it - b) Hr) as [y Hy]; [lia|].
  rewrite (deref_Some _ _ _ Hx), (deref_Some _ _ _ Hy). cbn [bind].
  rewrite (Hh (it - b) ltac:(lia) x y Hx Hy). reflexivity.
Qed.

Lemma children_settled b e s i :
  range_ok b e s -> 0 <= i < e - b ->
  (forall c, 0 < c < e - b -> parent c = i -> ok_pair comp b s i c) ->
  loop (children_step comp b (e - b) i s) 3 (2 * i + 1, i) = Ret i.
Proof.
  intros Hr Hi Hkids. pose proof Hr as (Hb & Hbe & He & Hm).
  unfold MAX_SLOTS in Hm.
  destruct (loop_inv (children_step comp b (e - b) i s)
              (fun cm => 2 * i + 1 <= fst cm /\ snd cm = i)
              (fun m => m = i)
              (fun cm => Z.to_nat (2 * i + 3 - fst cm))) with
    (fuel := 3%nat) (s := (2 * i + 1, i)) as (m & Hm' & ->).
  - intros [c m] [Hc Hm0]. cbn [fst snd] in *. subst m.
    unfold children_step.
    destruct (Z.ltb_spec c (e - b)); [|reflexivity].
    rewrite (int_Ret (2 * i)) by (unfold INT_MIN, INT_MAX; lia). cbn [bind].
    rewrite (int_Ret (2 * i + 2)) by (unfold INT_MIN, INT_MAX; lia).
    cbn [bind].
    destruct (Z.leb_spec c (2 * i + 2)); [|reflexivity].
    destruct (range_ok_slot b e s i Hr Hi) as [x Hx].
    destruct (range_ok_slot b e s c Hr) as [y Hy]; [lia|].
    rewrite (deref_Some _ _ _ Hx), (deref_Some _ _ _ Hy). cbn [bind].
    rewrite (int_Ret (c + 1)) by (unfold INT_MIN, INT_MAX; lia). cbn [bind].
    rewrite (Hkids c ltac:(lia) ltac:(unfold parent; lia) x y Hx Hy).
    cbn [fst snd]. lia.
  - cbn [fst snd]. lia.
  - cbn [fst]. lia.
  - exact Hm'.
Qed.

Lemma bubble_down_settled b e it s :
  range_ok b e s -> heap_prop comp b e s -> bubble_down comp b e it s = Ret s.
Proof.
  intros Hr Hh. unfold bubble_down.
  destruct (Z.ltb_spec it b); [reflexivity|].
  destruct (Z.leb_spec e it); [reflexivity|]. cbn [orb].
  pose proof Hr as (Hb & Hbe & He & Hm). unfold MAX_SLOTS in Hm.
  rewrite (int_Ret (it - b)) by (unfold INT_MIN, INT_MAX; lia). cbn [bind].
  rewrite (int_Ret (e - b)) by (unfold INT_MIN, INT_MAX; lia). cbn [bind].
  destruct (Z.to_nat (e - b - (it - b))) as [|f] eqn:Hf; [lia|].
  cbn [loop]. unfold bubble_down_step.
  destruct (Z.ltb_spec (it - b) (e - b)); [|lia].
  rewrite (int_Ret (2 * (it - b))) by (unfold INT_MIN, INT_MAX; lia).
  cbn [bind].
  rewrite (int_Ret (2 * (it - b) + 1)) by (unfold INT_MIN, INT_MAX; lia).
  cbn [bind].
  rewrite children_settled; [|exact Hr|lia|].
  - cbn [bind]. rewrite Z.eqb_refl. reflexivity.
  - intros c Hc Hpc. rewrite <- Hpc. apply Hh. exact Hc.
Qed.

Lemma make_loop_settled b e s :
  (forall it, bubble_down comp b e it s = Ret s) ->
  forall fuel it, (Z.to_nat (it - b + 1) < fuel)%nat ->
                  loop (make_step comp b e) fuel (s, it) = Ret s.
Proof.
  intros Hfix fuel. induction fuel as [|f IH]; intros it Hf; [lia|].
  cbn [loop]. unfold make_step at 1.
  destruct (Z.leb_spec b it); [|reflexivity].
  rewrite Hfix. cbn [bind]. apply IH. lia.
Qed.

Lemma make_settled b e s :
  range_ok b e s -> heap_prop comp b e s -> make comp b e s = Ret s.
Proof.
  intros Hr Hh. unfold make. destruct (Z.leb_spec e b); [reflexivity|].
  apply make_loop_settled; [|lia].
  intros it. apply bubble_down_settled; assumption.
Qed.

End Settled.

(** ** Keys of a consistent range, and one entry overwritten *)

Section Keys.

Context {P K : Type} `{EqDecision K}.

Implicit Types (s : store P K) (x y : P * K) (it p q b e i j : Z) (k : K).



Lemma insert_Permutation_cons {A : Type} (l : list A) (n : nat) (x y : A) :
  l !! n = Some y -> Permutation (x :: l) (y :: <[n := x]> l).
Proof.
  revert n. induction l as [|a l IH]; intros [|n] Hn; simpl in *;
    try discriminate.
  - injection Hn as ->. apply perm_swap.
  - rewrite perm_swap. rewrite (IH n Hn). apply perm_swap.
Qed.

Lemma range_assigned b e s i x :
  0 <= b -> 0 <= i < e - b ->
  range b e {| elems := <[Z.to_nat (b + i) := x]> (elems s);
               indexer := indexer s |} =
  <[Z.to_nat i := x]> (range b e s).
Proof.
  intros Hb Hi. unfold range. simpl.
  rewrite drop_insert_ge by lia. rewrite take_insert_lt by lia.
  f_equal. lia.
Qed.

End Keys.

(** ** [update] and [pop_key] with any comparator *)

Section AnyComparator.

Context {P K : Type} `{EqDecision K} (comp : P * K -> P * K -> bool).

Implicit Types (s : store P K) (x y : P * K) (it p q b e i j : Z) (k : K).

(** The call that [pop_key] ends with, for a key whose cell holds a slot of
    the range. *)
Lemma pop_key_call b e k s x y :
  range_ok b e s -> 0 <= indexer s k < e - b ->
  slot (b + indexer s k) s = Some x -> slot (e - 1) s = Some y ->
  let s3 := cell_set (snd x) (-1) (swapped (b + indexer s k) (e - 1) s) in
  exists cur,
    slot (b + indexer s k) s3 = Some cur /\
    (cur = if decide (indexer s k = e - b - 1) then x else y) /\
    slot (e - 1) s3 = Some x /\
    inside b e s s3 /\
    pop_key comp b e k s =
      if comp cur x then
        s4 <- bubble_down comp b (e - 1) (b + indexer s k) s3 ;; Ret (s4, true)
      else if comp x cur then
        s4 <- bubble_up comp b (e - 1) (b + indexer s k) s3 ;; Ret (s4, true)
      else Ret (s3, true).
Proof.
  intros Hr Hk Hx Hy s3. pose proof Hr as (Hb & Hbe & He & Hm).
  assert (Hl : slot (e - 1) (swapped (b + indexer s k) (e - 1) s) = Some x).
  { rewrite (slot_swapped _ _ _ _ _ _ Hx Hy).
    destruct (decide (e - 1 = e - 1)); [reflexivity|congruence]. }
  assert (Hcur : slot (b + indexer s k) s3 =
                 Some (if decide (indexer s k = e - b - 1) then x else y)).
  { unfold s3. rewrite slot_cell_set. rewrite (slot_swapped _ _ _ _ _ _ Hx Hy).
    destruct (decide (b + indexer s k = e - 1)) as [E|N];
      destruct (decide (indexer s k = e - b - 1)); try lia; [reflexivity|].
    destruct (decide (b + indexer s k = b + indexer s k)); [reflexivity|lia]. }
  eexists. split; [exact Hcur|]. split; [reflexivity|]. split; [exact Hl|].
  split.
  - assert (Hy' : slot (b + (e - b - 1)) s = Some y)
      by (replace (b + (e - b - 1)) with (e - 1) by lia; exact Hy).
    pose proof (inside_swapped b e s (indexer s k) (e - b - 1) x y Hk
                  ltac:(lia) Hx Hy') as Hin.
    replace (b + (e - b - 1)) with (e - 1) in Hin by lia.
    eapply inside_trans; [lia|exact Hin|]. apply inside_cell_set.
    exists (e - b - 1), x. split; [lia|]. split; [|reflexivity].
    replace (b + (e - b - 1)) with (e - 1) by lia. exact Hl.
  - unfold pop_key. destruct (Z.leb_spec e b); [lia|]. cbv zeta.
    destruct (Z.eqb_spec (indexer s k) (-1)); [lia|].
    rewrite (deref_Some _ _ _ Hx). cbn [bind].
    rewrite (swap_both_bind _ _ _ _ _ _ Hx Hy).
    rewrite (deref_Some _ _ _ Hl). cbn [bind]. fold s3.
    rewrite (deref_Some _ _ _ Hcur). reflexivity.
Qed.

Lemma pop_key_inside b e k s :
  range_ok b e s -> indexer s k = -1 \/ 0 <= indexer s k < e - b ->
  exists r, pop_key comp b e k s = Ret r /\ inside b e s (fst r).
Proof.
  intros Hr [Hk|Hk].
  { exists (s, false). split; [apply pop_key_absent; auto|apply inside_refl]. }
  pose proof Hr as (Hb & Hbe & He & Hm).
  destruct (range_ok_slot b e s _ Hr Hk) as [x Hx].
  destruct (range_ok_slot b e s (e - b - 1) Hr) as [y Hy]; [lia|].
  replace (b + (e - b - 1)) with (e - 1) in Hy by lia.
  destruct (pop_key_call b e k s x y Hr Hk Hx Hy)
    as (cur & Hcur & _ & Hl & Hin & ->).
  set (s3 := cell_set (snd x) (-1) (swapped (b + indexer s k) (e - 1) s)) in *.
  assert (Hr3 : range_ok b (e - 1) s3).
  { eapply range_ok_narrow; [eapply range_ok_inside; eassumption|lia]. }
  destruct (comp cur x).
  { destruct (bubble_down_inside comp b (e - 1) (b + indexer s k) s3 Hr3)
      as (s4 & -> & Hin4). exists (s4, true). split; [reflexivity|].
    eapply inside_trans; [lia|exact Hin|].
    eapply inside_wider; [|exact Hin4]. lia. }
  destruct (comp x cur); [|exists (s3, true); split; [reflexivity|exact Hin]].
  destruct (bubble_up_inside comp b (e - 1) (b + indexer s k) s3 Hr3)
    as (s4 & -> & Hin4). exists (s4, true). split; [reflexivity|].
  eapply inside_trans; [lia|exact Hin|].
  eapply inside_wider; [|exact Hin4]. lia.
Qed.

Lemma pop_key_any b e s k i x :
  range_ok b e s -> index_ok b e s ->
  0 <= i < e - b -> slot (b + i) s = Some x -> snd x = k ->
  exists s',
    pop_key comp b e k s = Ret (s', true) /\ inside b e s s' /\
    index_ok b (e - 1) s' /\ slot (e - 1) s' = Some x /\ indexer s' k = -1.
Proof.
  intros Hr Hix Hi Hx Hkx. pose proof Hr as (Hb & Hbe & He & Hm).
  pose proof Hix as [HA _]. pose proof (HA i x Hi Hx) as Hidx.
  rewrite Hkx in Hidx. rewrite <- Hidx in Hi, Hx.
  destruct (range_ok_slot b e s (e - b - 1) Hr) as [y Hy]; [lia|].
  replace (b + (e - b - 1)) with (e - 1) in Hy by lia.
  destruct (pop_key_call b e k s x y Hr Hi Hx Hy)
    as (cur & Hcur & _ & Hl & Hin & Hcall).
  destruct (swap_out b e s (indexer s k) x y Hr Hix Hi Hx Hy)
    as (_ & _ & _ & Hix3 & _ & Habs).
  rewrite Hkx in *.
  set (s3 := cell_set k (-1) (swapped (b + indexer s k) (e - 1) s)) in *.
  assert (Hr3 : range_ok b (e - 1) s3).
  { eapply range_ok_narrow; [eapply range_ok_inside; eassumption|lia]. }
  assert (Hfin : forall s', rearranged b (e - 1) s3 s' ->
                            index_ok b (e - 1) s' ->
                            slot (e - 1) s' = Some x /\ indexer s' k = -1).
  { intros s' Hre Hix'. split.
    - destruct Hre as (_ & _ & Ho). rewrite Ho by lia. exact Hl.
    - apply Hix'. intros Hlive.
      eapply (absent_not_live b (e - 1) s3); [exact Hix3|exact Habs|].
      eapply rearranged_live; [|exact Hre|exact Hlive]. lia. }
  destruct (pop_key_inside b e k s Hr ltac:(right; exact Hi))
    as (r & Hret & Hinr).
  rewrite Hcall in Hret. rewrite Hcall.
  destruct (comp cur x).
  { destruct (bubble_down_returns comp b (e - 1) (b + indexer s k) s3 Hr3)
      as (s4 & Hs4 & Hre4 & Hix4). rewrite Hs4 in Hret |- *. cbn [bind] in *.
    injection Hret as <-. exists s4. split; [reflexivity|].
    split; [exact Hinr|]. split; [auto|]. apply Hfin; auto. }
  destruct (comp x cur).
  { destruct (bubble_up_returns comp b (e - 1) (b + indexer s k) s3 Hr3)
      as (s4 & Hs4 & Hre4 & Hix4). rewrite Hs4 in Hret |- *. cbn [bind] in *.
    injection Hret as <-. exists s4. split; [reflexivity|].
    split; [exact Hinr|]. split; [auto|]. apply Hfin; auto. }
  injection Hret as <-. exists s3. split; [reflexivity|].
  split; [exact Hinr|]. split; [exact Hix3|].
  apply Hfin; [apply rearranged_refl|exact Hix3].
Qed.

(** The state in which [update] calls a rebalance primitive, for a key
    whose cell holds a slot of the range. *)
Lemma update_call b e k v s x :
  range_ok b e s -> 0 <= indexer s k < e - b ->
  slot (b + indexer s k) s = Some x ->
  let s1 := {| elems := <[Z.to_nat (b + indexer s k) := (v, snd x)]> (elems s);
               indexer := indexer s |} in
  range_ok b e s1 /\
  (forall it, it <> b + indexer s k -> slot it s1 = slot it s) /\
  slot (b + indexer s k) s1 = Some (v, snd x) /\
  update comp b e k v s =
    if comp (v, snd x) x then
      s2 <- bubble_down comp b e (b + indexer s k) s1 ;; Ret (s2, true)
    else if comp x (v, snd x) then
      s2 <- bubble_up comp b e (b + indexer s k) s1 ;; Ret (s2, true)
    else Ret (s1, true).
Proof.
  intros Hr Hk Hx s1. pose proof (slot_Some _ _ _ Hx) as Hin.
  assert (Hcur : slot (b + indexer s k) s1 = Some (v, snd x)).
  { unfold s1. rewrite (slot_insert _ _ _ _ _ (indexer s)) by exact Hin.
    destruct (decide (b + indexer s k = b + indexer s k));
      [reflexivity|congruence]. }
  split; [unfold range_ok, s1; simpl; rewrite length_insert; exact Hr|].
  split.
  { intros it Hit. unfold s1.
    rewrite (slot_insert _ _ _ _ _ (indexer s)) by exact Hin.
    destruct (decide (it = b + indexer s k)); [lia|]. destruct s; reflexivity. }
  split; [exact Hcur|].
  unfold update. destruct Hr as (Hb & Hbe & _).
  destruct (Z.leb_spec e b); [lia|]. cbv zeta.
  destruct (Z.eqb_spec (indexer s k) (-1)); [lia|].
  rewrite (deref_Some _ _ _ Hx). cbn [bind].
  rewrite (assign_Ret _ _ _ Hin). cbn [bind]. fold s1.
  rewrite (deref_Some _ _ _ Hcur). reflexivity.
Qed.

Lemma update_inside b e k v s :
  range_ok b e s -> indexer s k = -1 \/ 0 <= indexer s k < e - b ->
  exists r, update comp b e k v s = Ret r /\
            length (elems (fst r)) = length (elems s) /\
            (forall it, ~ (b <= it < e) -> slot it (fst r) = slot it s) /\
            cells_kept b e s (fst r).
Proof.
  intros Hr [Hk|Hk].
  { exists (s, false). split; [apply update_absent; auto|].
    split; [reflexivity|]. split; [reflexivity|]. intros k' _. reflexivity. }
  pose proof Hr as (Hb & Hbe & He & Hm).
  destruct (range_ok_slot b e s _ Hr Hk) as [x Hx].
  destruct (update_call b e k v s x Hr Hk Hx) as (Hr1 & Hrest & Hcur & ->).
  set (s1 := {| elems := <[Z.to_nat (b + indexer s k) := (v, snd x)]> (elems s);
                indexer := indexer s |}) in *.
  assert (Hl1 : length (elems s1) = length (elems s))
    by (unfold s1; simpl; apply length_insert).
  assert (Hlive : forall k', live b e s1 k' -> live b e s k').
  { intros k' (j & z & Hj & Hz & Hkz).
    destruct (decide (j = indexer s k)) as [->|N].
    - exists (indexer s k), x. split; [exact Hj|]. split; [exact Hx|].
      rewrite Hcur in Hz. injection Hz as <-. exact Hkz.
    - exists j, z. split; [exact Hj|]. split; [|exact Hkz].
      rewrite <- Hrest by lia. exact Hz. }
  assert (Hfin : forall s2, inside b e s1 s2 ->
                   length (elems s2) = length (elems s) /\
                   (forall it, ~ (b <= it < e) -> slot it s2 = slot it s) /\
                   cells_kept b e s s2).
  { intros s2 [(Hl & _ & Ho) Hc]. split; [congruence|]. split.
    - intros it Hit. rewrite Ho by exact Hit. apply Hrest. lia.
    - intros k' Hk'. rewrite Hc; [reflexivity|]. intros Hl'. apply Hk'.
      apply Hlive. exact Hl'. }
  destruct (comp (v, snd x) x).
  { destruct (bubble_down_inside comp b e (b + indexer s k) s1 Hr1)
      as (s2 & -> & Hin2). exists (s2, true). split; [reflexivity|].
    apply Hfin. exact Hin2. }
  destruct (comp x (v, snd x)).
  { destruct (bubble_up_inside comp b e (b + indexer s k) s1 Hr1)
      as (s2 & -> & Hin2). exists (s2, true). split; [reflexivity|].
    apply Hfin. exact Hin2. }
  exists (s1, true). split; [reflexivity|]. apply Hfin. apply inside_refl.
Qed.

Lemma update_any b e s k v i old :
  range_ok b e s -> index_ok b e s ->
  0 <= i < e - b -> slot (b + i) s = Some (old, k) ->
  exists s',
    update comp b e k v s = Ret (s', true) /\
    Permutation ((v, k) :: range b e s) ((old, k) :: range b e s') /\
    index_ok b e s' /\
    slot (b + indexer s' k) s' = Some (v, k).
Proof.
  intros Hr Hix Hi Hx. pose proof Hr as (Hb & Hbe & He & Hm).
  pose proof Hix as [HA _]. pose proof (HA i _ Hi Hx) as Hidx.
  simpl in Hidx. rewrite <- Hidx in Hi, Hx.
  destruct (update_call b e k v s _ Hr Hi Hx) as (Hr1 & Hrest & Hcur & ->).
  cbn [snd] in *.
  pose proof (index_ok_assign b e s _ _ v Hix Hi Hx) as Hix1. cbn [snd] in Hix1.
  set (s1 := {| elems := <[Z.to_nat (b + indexer s k) := (v, k)]> (elems s);
                indexer := indexer s |}) in *.
  assert (Hp1 : Permutation ((v, k) :: range b e s) ((old, k) :: range b e s1)).
  { unfold s1. rewrite range_assigned by lia.
    apply insert_Permutation_cons.
    rewrite range_lookup by lia. exact Hx. }
  assert (Hfin : forall s2, rearranged b e s1 s2 -> index_ok b e s2 ->
                   Permutation ((v, k) :: range b e s)
                               ((old, k) :: range b e s2) /\
                   index_ok b e s2 /\
                   slot (b + indexer s2 k) s2 = Some (v, k)).
  { intros s2 Hre Hix2. split.
    - rewrite Hp1. apply perm_skip. apply rearranged_range; [lia|exact Hre].
    - split; [exact Hix2|].
      assert (Hin : (v, k) ∈ range b e s2).
      { rewrite <- (rearranged_range b e s1 s2 ltac:(lia) Hre).
        apply elem_of_range; [lia|]. eauto. }
      apply elem_of_range in Hin as (j & Hj & Hz); [|lia].
      destruct Hix2 as [HA2 _]. pose proof (HA2 j _ Hj Hz) as Ej.
      cbn [snd] in Ej. rewrite Ej. exact Hz. }
  destruct (comp (v, k) (old, k)).
  { destruct (bubble_down_returns comp b e (b + indexer s k) s1 Hr1)
      as (s2 & -> & Hre & Hix2). exists s2. split; [reflexivity|].
    apply Hfin; auto. }
  destruct (comp (old, k) (v, k)).
  { destruct (bubble_up_returns comp b e (b + indexer s k) s1 Hr1)
      as (s2 & -> & Hre & Hix2). exists s2. split; [reflexivity|].
    apply Hfin; auto. }
  exists s1. split; [reflexivity|]. apply Hfin; [apply rearranged_refl|auto].
Qed.

End AnyComparator.

(** ** How many rounds the two loops take *)

Section Rounds.

Context {P K : Type} `{EqDecision K} (comp : P * K -> P * K -> bool).

Implicit Types (s : store P K) (x y : P * K) (it p q b e i j : Z) (k : K).

Lemma log2_child i m :
  0 <= i -> 2 * i + 1 <= m -> Z.log2 (i + 1) + 1 <= Z.log2 (m + 1).
Proof.
  intros Hi Hm.
  pose proof (Z.log2_double (i + 1) ltac:(lia)) as Hd.
  pose proof (Z.log2_le_mono (2 * (i + 1)) (m + 1) ltac:(lia)). lia.
Qed.

Lemma bubble_up_unfold b e it s :
  range_ok b e s -> b <= it < e ->
  bubble_up comp b e it s =
  loop (bubble_up_step comp b) (Z.to_nat (it - b) + 1) (s, it - b).
Proof.
  intros (Hb & Hbe & He & Hm) Hit. unfold MAX_SLOTS in Hm. unfold bubble_up.
  destruct (Z.ltb_spec it b); [lia|]. destruct (Z.leb_spec e it); [lia|].
  cbn [orb]. rewrite int_Ret by (unfold INT_MIN, INT_MAX; lia). reflexivity.
Qed.

Lemma bubble_down_unfold b e it s :
  range_ok b e s -> b <= it < e ->
  bubble_down comp b e it s =
  loop (bubble_down_step comp b (e - b)) (Z.to_nat (e - b - (it - b)))
    (s, it - b).
Proof.
  intros (Hb & Hbe & He & Hm) Hit. unfold MAX_SLOTS in Hm. unfold bubble_down.
  destruct (Z.ltb_spec it b); [lia|]. destruct (Z.leb_spec e it); [lia|].
  cbn [orb]. rewrite (int_Ret (it - b)) by (unfold INT_MIN, INT_MAX; lia).
  cbn [bind]. rewrite (int_Ret (e - b)) by (unfold INT_MIN, INT_MAX; lia).
  reflexivity.
Qed.

Lemma bubble_up_rounds b e s i :
  range_ok b e s -> 0 <= i < e - b ->
  exists s', loop (bubble_up_step comp b)
               (Z.to_nat (Z.log2 (i + 1)) + 1) (s, i) = Ret s'.
Proof.
  intros Hr Hi.
  destruct (loop_inv (bubble_up_step comp b)
              (fun st => range_ok b e (fst st) /\ 0 <= snd st < e - b)
              (fun _ => True)
              (fun st => Z.to_nat (Z.log2 (snd st + 1)))) with
    (fuel := (Z.to_nat (Z.log2 (i + 1)) + 1)%nat) (s := (s, i))
    as (s' & Hs' & _); [| |cbn [snd]; lia|eauto].
  2:{ cbn [fst snd]. auto. }
  intros [s1 i1] [Hr1 Hi1]. cbn [fst snd] in *. unfold bubble_up_step.
  destruct (Z.ltb_spec 0 i1) as [Hpos|Hz]; [|exact I].
  destruct (range_ok_slot b e s1 (parent i1) Hr1) as [x Hx];
    [unfold parent; lia|].
  destruct (range_ok_slot b e s1 i1 Hr1) as [y Hy]; [lia|].
  rewrite (deref_Some _ _ _ Hx), (deref_Some _ _ _ Hy). cbn [bind].
  destruct (comp x y); [|exact I].
  rewrite (swap_both_bind _ _ _ _ _ _ Hx Hy). cbn [fst snd].
  assert (Hsw' : rearranged b e s1 (swapped (b + parent i1) (b + i1) s1)).
  { eapply rearranged_swapped; try eassumption; unfold parent; lia. }
  split.
  - split; [|unfold parent; lia].
    eapply range_ok_rearranged; eassumption.
  - pose proof (log2_child (parent i1) i1 ltac:(unfold parent; lia)
                  ltac:(unfold parent; lia)).
    pose proof (Z.log2_nonneg (parent i1 + 1)). lia.
Qed.

Lemma bubble_down_rounds b e s i :
  range_ok b e s -> 0 <= i < e - b ->
  exists s', loop (bubble_down_step comp b (e - b))
               (Z.to_nat (Z.log2 (e - b) - Z.log2 (i + 1)) + 1) (s, i)
             = Ret s'.
Proof.
  intros Hr Hi. pose proof Hr as (Hb & Hbe & He & Hm). unfold MAX_SLOTS in Hm.
  destruct (loop_inv (bubble_down_step comp b (e - b))
              (fun st => range_ok b e (fst st) /\ 0 <= snd st < e - b)
              (fun _ => True)
              (fun st => Z.to_nat (Z.log2 (e - b) - Z.log2 (snd st + 1)))) with
    (fuel := (Z.to_nat (Z.log2 (e - b) - Z.log2 (i + 1)) + 1)%nat)
    (s := (s, i)) as (s' & Hs' & _); [| |cbn [snd]; lia|eauto].
  2:{ cbn [fst snd]. auto. }
  intros [s1 i1] [Hr1 Hi1]. cbn [fst snd] in *. unfold bubble_down_step.
  destruct (Z.ltb_spec i1 (e - b)); [|lia].
  rewrite (int_Ret (2 * i1)) by (unfold INT_MIN, INT_MAX; lia). cbn [bind].
  rewrite (int_Ret (2 * i1 + 1)) by (unfold INT_MIN, INT_MAX; lia).
  cbn [bind].
  destruct (children_returns comp b e s1 i1 Hr1 Hi1) as (m & Hm1 & Hmi).
  pose proof (children_result comp _ _ _ _ _ Hm1) as Hbound.
  rewrite Hm1. cbn [bind].
  destruct (Z.eqb_spec m i1) as [->|Hne]; [exact I|].
  destruct (range_ok_slot b e s1 i1 Hr1 Hi1) as [x Hx].
  destruct (range_ok_slot b e s1 m Hr1) as [z Hz]; [lia|].
  rewrite (swap_both_bind _ _ _ _ _ _ Hx Hz). cbn [fst snd].
  assert (Hsw' : rearranged b e s1 (swapped (b + i1) (b + m) s1)).
  { eapply rearranged_swapped; try eassumption; lia. }
  split.
  - split; [|lia].
    eapply range_ok_rearranged; eassumption.
  - pose proof (log2_child i1 m ltac:(lia) ltac:(lia)).
    pose proof (Z.log2_le_mono (m + 1) (e - b) ltac:(lia)). lia.
Qed.

End Rounds.

(** ** Properties read off the code *)

Section Further.

Context {P K : Type} `{EqDecision K} (comp : P * K -> P * K -> bool).

Implicit Types (s : store P K) (x y : P * K) (it p q b e i j : Z) (k : K).

(** X1.  On a range that has the heap property, [bubble_up] and
    [bubble_down] from any slot, and [make], return the state they were
    given, whatever the comparator. *)
Theorem settled_heap_unchanged b e s :
  range_ok b e s -> heap_prop comp b e s ->
  (forall it, bubble_up comp b e it s = Ret s) /\
  (forall it, bubble_down comp b e it s = Ret s) /\
  make comp b e s = Ret s.
Proof.
  intros Hr Hh. split; [|split].
  - intros it. apply bubble_up_settled; assumption.
  - intros it. apply bubble_down_settled; assumption.
  - apply make_settled; assumption.
Qed.


(** X3.  Index consistency needs neither the heap property nor any
    property of the comparator: on a range inside the storage, [push] of
    an entry with a key that is not live extends it to the whole range,
    [pop] and a [pop_key] that returns [true] leave it over the range
    without its last slot, [make], [update] and a [pop_key] that returns
    [false] keep it, and after [sort] every cell holds the sentinel. *)
Theorem index_kept_any_comparator b e s :
  range_ok b e s ->
  (forall x, b < e -> index_ok b (e - 1) s -> slot (e - 1) s = Some x ->
             ~ live b (e - 1) s (snd x) ->
             exists s', push comp b e s = Ret s' /\ index_ok b e s') /\
  (index_ok b e s ->
   (b < e -> exists s', pop comp b e s = Ret s' /\ index_ok b (e - 1) s') /\
   (exists s', make comp b e s = Ret s' /\ index_ok b e s') /\
   (exists s', sort comp b e s = Ret s' /\ forall k, indexer s' k = -1) /\
   (forall k v, exists s' ok, update comp b e k v s = Ret (s', ok) /\
                              index_ok b e s') /\
   (forall k, exists s' ok,
      pop_key comp b e k s = Ret (s', ok) /\
      index_ok b (if ok then e - 1 else e) s')).
Proof.
  intros Hr. pose proof Hr as (Hb & Hbe & He & Hm). unfold MAX_SLOTS in Hm.
  split.
  - intros x Hlt Hix Hx Hfresh.
    pose proof (index_ok_grow b e s x Hix Hlt Hx Hfresh) as Hix1.
    destruct (bubble_up_returns comp b e (e - 1)
                (cell_set (snd x) (e - b - 1) s)) as (s' & Hs' & _ & Hix').
    { eapply range_ok_rearranged;
        [apply (rearranged_cell_set b e)|exact Hr]. }
    exists s'. split; [|auto]. unfold push.
    destruct (Z.leb_spec e b); [lia|].
    rewrite (deref_Some _ _ _ Hx). cbn [bind].
    rewrite int_Ret by (unfold INT_MIN, INT_MAX; lia). exact Hs'.
  - intros Hix. split; [|split; [|split; [|split]]].
    + intros Hlt.
      destruct (pop_returns comp b e s Hr) as (s' & Hs' & _ & _ & Hix').
      exists s'. split; [exact Hs'|]. apply (Hix' Hlt Hix).
    + destruct (make_inside comp b e s Hr) as (s' & Hs' & _ & Hix'). eauto.
    + destruct (sort_inside comp b e s Hr) as (s' & Hs' & _ & Hix'). eauto.
    + intros k v.
      destruct (live_dec b e s k Hb) as [(i & [old k'] & Hi & Hx & Hk)|Hn].
      * simpl in Hk. subst k'.
        destruct (update_any comp b e s k v i old Hr Hix Hi Hx)
          as (s' & Hs' & _ & Hix' & _).
        exists s', true. auto.
      * exists s, false. split; [|exact Hix]. apply update_absent. right.
        apply Hix. exact Hn.
    + intros k.
      destruct (live_dec b e s k Hb) as [(i & x & Hi & Hx & Hk)|Hn].
      * destruct (pop_key_any comp b e s k i x Hr Hix Hi Hx Hk)
          as (s' & Hs' & _ & Hix' & _).
        exists s', true. auto.
      * exists s, false. split; [|exact Hix]. apply pop_key_absent. right.
        apply Hix. exact Hn.
Qed.

(** X4.  On an index-consistent range in which key [k] is live with
    priority [old], [update(k, v)] returns [true]; the range then holds the
    entries it held with [(old, k)] replaced by [(v, k)], index consistency
    holds, and the slot the cell of [k] names holds [(v, k)].  No property
    of the comparator is needed. *)
Theorem update_sets_priority b e s k v old :
  range_ok b e s -> index_ok b e s ->
  (exists i, 0 <= i < e - b /\ slot (b + i) s = Some (old, k)) ->
  exists s',
    update comp b e k v s = Ret (s', true) /\
    Permutation ((v, k) :: range b e s) ((old, k) :: range b e s') /\
    index_ok b e s' /\
    slot (b + indexer s' k) s' = Some (v, k).
Proof.
  intros Hr Hix (i & Hi & Hx). eapply update_any; eassumption.
Qed.

(** X5.  [push] of an entry followed by [pop_key] of its key gives back a
    heap of the entries that were there: both calls return, the second
    with [true]; the range without its last slot holds the entries it held
    before the [push], with the heap property and index consistency; the
    pushed entry is back in the last slot and its key is absent. *)
Theorem push_then_pop_key b e s x :
  strict_weak comp -> range_ok b e s -> b < e ->
  heap_prop comp b (e - 1) s -> index_ok b (e - 1) s ->
  slot (e - 1) s = Some x -> ~ live b (e - 1) s (snd x) ->
  exists s1 s2,
    push comp b e s = Ret s1 /\
    pop_key comp b e (snd x) s1 = Ret (s2, true) /\
    Permutation (range b (e - 1) s) (range b (e - 1) s2) /\
    slot (e - 1) s2 = Some x /\ indexer s2 (snd x) = -1 /\
    heap_prop comp b (e - 1) s2 /\ index_ok b (e - 1) s2.
Proof.
  intros Hsw Hr Hlt Hh Hix Hx Hfresh. pose proof Hr as (Hb & Hbe & _).
  destruct (push_spec comp Hsw b e s x Hr Hlt Hh Hix Hx Hfresh)
    as (s1 & Hs1 & _ & Hre1 & Hh1 & Hix1).
  pose proof (range_ok_rearranged b e b e s s1 Hre1 Hr) as Hr1.
  pose proof (rearranged_range b e s s1 ltac:(lia) Hre1) as Hp1.
  rewrite (range_snoc b e s x) in Hp1 by (try assumption; lia).
  assert (Hin : x ∈ range b e s1).
  { rewrite <- Hp1. apply elem_of_app. right. apply list_elem_of_singleton.
    reflexivity. }
  apply elem_of_range in Hin as (i & Hi & Hxi); [|lia].
  destruct (pop_key_spec comp Hsw b e s1 (snd x) i x Hr1 Hh1 Hix1 Hi Hxi
              eq_refl)
    as (s2 & Hs2 & Hre2 & Hh2 & Hix2 & Hlast & Habs & _).
  exists s1, s2. split; [exact Hs1|]. split; [exact Hs2|].
  split; [|tauto].
  pose proof (rearranged_range b e s1 s2 ltac:(lia) Hre2) as Hp2.
  rewrite (range_snoc b e s2 x) in Hp2 by (try assumption; lia).
  rewrite <- Hp1 in Hp2. apply Permutation_app_inv_r in Hp2. exact Hp2.
Qed.

(** X6.  On an index-consistent range the flag that [update] and [pop_key]
    return tells whether the key is live: both return, with [true] exactly
    when the key has an entry in the range, whatever the comparator. *)
Theorem flags_tell_liveness b e s k v :
  range_ok b e s -> index_ok b e s ->
  (exists s' ok, update comp b e k v s = Ret (s', ok) /\
                 (ok = true <-> live b e s k)) /\
  (exists s' ok, pop_key comp b e k s = Ret (s', ok) /\
                 (ok = true <-> live b e s k)).
Proof.
  intros Hr Hix. pose proof Hr as (Hb & _).
  destruct (live_dec b e s k Hb) as [Hl|Hn].
  - pose proof Hl as (i & [old k'] & Hi & Hx & Hk). simpl in Hk. subst k'.
    destruct (update_any comp b e s k v i old Hr Hix Hi Hx) as (s1 & Hs1 & _).
    destruct (pop_key_any comp b e s k i (old, k) Hr Hix Hi Hx eq_refl)
      as (s2 & Hs2 & _).
    split; [exists s1, true|exists s2, true]; tauto.
  - assert (Hk : indexer s k = -1) by (apply Hix; exact Hn).
    split; exists s, false.
    + split; [apply update_absent; auto|]. split; [discriminate|contradiction].
    + split; [apply pop_key_absent; auto|].
      split; [discriminate|contradiction].
Qed.


(** X8.  On a heap, [pop_key] of the key of the root returns the state
    that [pop] returns. *)
Theorem pop_key_of_root_is_pop b e s r :
  strict_weak comp -> range_ok b e s -> b < e ->
  heap_prop comp b e s -> index_ok b e s -> slot b s = Some r ->
  exists s', pop comp b e s = Ret s' /\
             pop_key comp b e (snd r) s = Ret (s', true).
Proof.
  intros Hsw Hr Hlt Hh Hix Hroot. pose proof Hr as (Hb & Hbe & He & Hm).
  destruct (pop_spec comp Hsw b e s r Hr Hlt Hh Hix Hroot)
    as (s' & Hs' & Hdown & _).
  exists s'. split; [exact Hs'|].
  assert (Hroot0 : slot (b + 0) s = Some r)
    by (rewrite Z.add_0_r; exact Hroot).
  assert (Hidx : indexer s (snd r) = 0) by (apply Hix with (i := 0); [lia|auto]).
  destruct (range_ok_slot b e s (e - b - 1) Hr) as [y Hy]; [lia|].
  pose proof (root_top comp Hsw b e s r Hr Hh Hroot (e - b - 1) y
                ltac:(lia) Hy) as Hry.
  replace (b + (e - b - 1)) with (e - 1) in Hy by lia.
  destruct (pop_key_call comp b e (snd r) s r y Hr) as
    (cur & Hcur & Hcurdef & _ & _ & Hcall);
    [rewrite Hidx; lia|rewrite Hidx; exact Hroot0|exact Hy|].
  destruct (swap_out b e s 0 r y Hr Hix ltac:(lia) Hroot0 Hy)
    as (_ & _ & Hrest & Hix3 & Hre3 & _).
  rewrite Hidx, Z.add_0_r in *.
  set (s3 := cell_set (snd r) (-1) (swapped b (e - 1) s)) in *.
  rewrite Hcall.
  assert (Hrc : comp r cur = false).
  { subst cur. destruct (decide (0 = e - b - 1)); [apply (sw_irrefl _ Hsw)|].
    exact Hry. }
  destruct (comp cur r) eqn:E1; [rewrite Hdown; reflexivity|].
  rewrite Hrc. f_equal. f_equal.
  assert (Hr3 : range_ok b (e - 1) s3).
  { eapply range_ok_narrow; [eapply range_ok_rearranged; eassumption|lia]. }
  assert (Hh3 : heap_prop comp b (e - 1) s3).
  { destruct (decide (0 = e - b - 1)) as [E|N]; [intros j Hj; lia|].
    assert (Hh1 : heap_prop comp b (e - 1) s)
      by (eapply heap_prop_narrow; [exact Hh|lia]).
    apply (replaced_level comp Hsw b (e - 1) s s3 0 r cur); auto.
    - lia.
    - rewrite Z.add_0_r. exact Hroot.
    - rewrite Z.add_0_r. exact Hcur.
    - intros j Hj Hne. apply Hrest; lia. }
  rewrite (bubble_down_settled comp b (e - 1) b s3 Hr3 Hh3) in Hdown.
  congruence.
Qed.

(** X9.  [make] followed by [sort] sorts any range whose keys are indexed
    consistently: both return, the range ends as a permutation of its
    entries in which no entry is dominated by an earlier one, the most
    dominant last; the storage outside it is untouched and every cell
    holds the sentinel. *)
Theorem make_then_sort b e s :
  strict_weak comp -> range_ok b e s -> index_ok b e s ->
  exists s1 s2,
    make comp b e s = Ret s1 /\ sort comp b e s1 = Ret s2 /\
    Permutation (range b e s) (range b e s2) /\
    (forall i j x y, 0 <= i < j -> j < e - b ->
                     slot (b + i) s2 = Some x -> slot (b + j) s2 = Some y ->
                     comp y x = false) /\
    (forall it, ~ (b <= it < e) -> slot it s2 = slot it s) /\
    (forall k, indexer s2 k = -1).
Proof.
  intros Hsw Hr Hix. pose proof Hr as (Hb & Hbe & _).
  assert (Hmk : exists s1, make comp b e s = Ret s1 /\ rearranged b e s s1 /\
                           index_ok b e s1 /\ heap_prop comp b e s1).
  { destruct (Z.lt_ge_cases b e) as [Hlt|Hge].
    - destruct (make_spec comp Hsw b e s Hr Hlt) as (s1 & H1 & H2 & H3 & H4).
      exists s1. auto.
    - exists s. split; [|split; [apply rearranged_refl|split; [exact Hix|]]].
      + unfold make. destruct (Z.leb_spec e b); [reflexivity|lia].
      + intros j Hj. lia. }
  destruct Hmk as (s1 & Hs1 & Hre1 & Hix1 & Hh1).
  pose proof (range_ok_rearranged b e b e s s1 Hre1 Hr) as Hr1.
  destruct (sort_spec comp Hsw b e s1 Hr1 Hh1 Hix1)
    as (s2 & Hs2 & Hre2 & Ho & Ha).
  exists s1, s2. split; [exact Hs1|]. split; [exact Hs2|].
  pose proof (rearranged_trans _ _ _ _ _ Hre1 Hre2) as Hre.
  split; [apply rearranged_range; [lia|exact Hre]|].
  split; [exact Ho|]. split; [apply Hre|exact Ha].
Qed.

(** X10.  After [make] on a non-empty range the first slot holds one of
    the entries of the range that no entry of the range dominates. *)
Theorem make_puts_top_first b e s :
  strict_weak comp -> range_ok b e s -> b < e ->
  exists s' top,
    make comp b e s = Ret s' /\ slot b s' = Some top /\
    In top (range b e s) /\
    forall x, In x (range b e s) -> comp top x = false.
Proof.
  intros Hsw Hr Hlt. pose proof Hr as (Hb & Hbe & _).
  destruct (make_spec comp Hsw b e s Hr Hlt) as (s' & Hs' & Hre & _ & Hh).
  pose proof (range_ok_rearranged b e b e s s' Hre Hr) as Hr'.
  pose proof (rearranged_range b e s s' ltac:(lia) Hre) as Hp.
  destruct (range_ok_slot b e s' 0 Hr') as [top Htop]; [lia|].
  exists s', top. split; [exact Hs'|].
  split; [rewrite Z.add_0_r in Htop; exact Htop|]. split.
  - apply list_elem_of_In. rewrite Hp. apply elem_of_range; [lia|].
    exists 0. split; [lia|exact Htop].
  - intros x Hx. apply list_elem_of_In in Hx. rewrite Hp in Hx.
    apply elem_of_range in Hx as (j & Hj & Hxj); [|lia].
    rewrite Z.add_0_r in Htop.
    eapply (root_top comp Hsw b e s' top Hr' Hh Htop j); eassumption.
Qed.

(** X11.  The loops are logarithmic: from slot [i] of a range of [n]
    slots, [bubble_up] returns what its loop returns within
    [log2 (i + 1) + 1] rounds and [bubble_down] what its loop returns
    within [log2 n - log2 (i + 1) + 1] rounds, the last round being the
    one that leaves the loop; whatever the comparator. *)
Theorem sift_rounds_logarithmic b e it s :
  range_ok b e s -> b <= it < e ->
  (exists s',
     bubble_up comp b e it s = Ret s' /\
     loop (bubble_up_step comp b)
       (Z.to_nat (Z.log2 (it - b + 1)) + 1) (s, it - b) = Ret s') /\
  (exists s',
     bubble_down comp b e it s = Ret s' /\
     loop (bubble_down_step comp b (e - b))
       (Z.to_nat (Z.log2 (e - b) - Z.log2 (it - b + 1)) + 1) (s, it - b)
     = Ret s').
Proof.
  intros Hr Hit. split.
  - destruct (bubble_up_rounds comp b e s (it - b) Hr ltac:(lia)) as (v & Hv).
    destruct (bubble_up_returns comp b e it s Hr) as (s' & Hs' & _).
    exists s'. split; [exact Hs'|].
    rewrite (bubble_up_unfold comp b e it s Hr Hit) in Hs'.
    rewrite (loop_fuel_agree _ _ _ _ _ _ Hs' Hv). exact Hv.
  - destruct (bubble_down_rounds comp b e s (it - b) Hr ltac:(lia))
      as (v & Hv).
    destruct (bubble_down_returns comp b e it s Hr) as (s' & Hs' & _).
    exists s'. split; [exact Hs'|].
    rewrite (bubble_down_unfold comp b e it s Hr Hit) in Hs'.
    rewrite (loop_fuel_agree _ _ _ _ _ _ Hs' Hv). exact Hv.
Qed.

End Further.

(** ** The slots a sift can reach, and calls that trust a cell *)

Section Reach.

Context {P K : Type} `{EqDecision K} (comp : P * K -> P * K -> bool).

Implicit Types (s : store P K) (x y : P * K) (it p q b e i j : Z) (k : K).

Lemma sift_outside b e it s :
  it < b \/ e <= it ->
  bubble_up comp b e it s = Ret s /\ bubble_down comp b e it s = Ret s.
Proof.
  intros Hit. unfold bubble_up, bubble_down.
  destruct (Z.ltb_spec it b); [split; reflexivity|].
  destruct (Z.leb_spec e it); [split; reflexivity|lia].
Qed.

Lemma bubble_up_clip b e it s :
  b <= it < e -> bubble_up comp b e it s = bubble_up comp b (it + 1) it s.
Proof.
  intros Hit. unfold bubble_up.
  destruct (Z.ltb_spec it b); [lia|].
  destruct (Z.leb_spec e it); [lia|].
  destruct (Z.leb_spec (it + 1) it); [lia|]. reflexivity.
Qed.

Lemma bubble_down_from b e it s :
  range_ok b e s -> b <= it < e ->
  exists s', bubble_down comp b e it s = Ret s' /\ inside it e s s'.
Proof.
  intros Hr Hit. pose proof Hr as (Hb & Hbe & He & Hm). unfold MAX_SLOTS in Hm.
  unfold bubble_down.
  destruct (Z.ltb_spec it b); [lia|]. destruct (Z.leb_spec e it); [lia|].
  cbn [orb].
  rewrite (int_Ret (it - b)) by (unfold INT_MIN, INT_MAX; lia). cbn [bind].
  rewrite (int_Ret (e - b)) by (unfold INT_MIN, INT_MAX; lia). cbn [bind].
  apply (loop_inv (bubble_down_step comp b (e - b))
           (fun st => range_ok b e (fst st) /\ inside it e s (fst st) /\
                      it - b <= snd st < e - b)
           (fun s' => inside it e s s')
           (fun st => Z.to_nat (e - b - snd st - 1)));
    [|cbn [fst snd]; split; [exact Hr|split; [apply inside_refl|lia]]
     |cbn [snd]; lia].
  intros [s1 i] (Hr1 & Hin & Hi). cbn [fst snd] in *.
  unfold bubble_down_step. destruct (Z.ltb_spec i (e - b)); [|lia].
  rewrite (int_Ret (2 * i)) by (unfold INT_MIN, INT_MAX; lia). cbn [bind].
  rewrite (int_Ret (2 * i + 1)) by (unfold INT_MIN, INT_MAX; lia). cbn [bind].
  destruct (children_returns comp b e s1 i Hr1 ltac:(lia)) as (m & -> & Hmi).
  cbn [bind].
  destruct (Z.eqb_spec m i) as [->|Hne]; [exact Hin|].
  destruct (range_ok_slot b e s1 i Hr1 ltac:(lia)) as [x Hx].
  destruct (range_ok_slot b e s1 m Hr1) as [z Hz]; [lia|].
  rewrite (swap_both_bind _ _ _ _ _ _ Hx Hz). cbn [fst snd].
  assert (Hsw' : inside it e s1 (swapped (b + i) (b + m) s1)).
  { replace (b + i) with (it + (b + i - it)) in * by lia.
    replace (b + m) with (it + (b + m - it)) in * by lia.
    apply (inside_swapped it e s1 _ _ x z); try assumption; lia. }
  split; [|lia].
  split; [eapply range_ok_inside; eassumption|].
  split; [|lia]. eapply inside_trans; [lia|eassumption|eassumption].
Qed.

Lemma swapped_same p s x :
  slot p s = Some x ->
  elems (swapped p p s) = elems s /\
  forall k, indexer (swapped p p s) k = indexer s k.
Proof.
  intros Hx. split.
  - unfold swapped. rewrite Hx. cbn [elems].
    unfold slot in Hx. destruct (Z.leb_spec 0 p); [|discriminate].
    rewrite list_insert_insert_eq. apply list_insert_id. exact Hx.
  - intros k. rewrite (index_swapped k p p s x x Hx Hx).
    destruct (decide (k = snd x)) as [->|]; reflexivity.
Qed.


Lemma update_any_live b e s k v i old :
  range_ok b e s -> index_ok b e s ->
  0 <= i < e - b -> slot (b + i) s = Some (old, k) ->
  exists s' i',
    update comp b e k v s = Ret (s', true) /\
    Permutation ((v, k) :: range b e s) ((old, k) :: range b e s') /\
    range_ok b e s' /\ index_ok b e s' /\
    0 <= i' < e - b /\ slot (b + i') s' = Some (v, k).
Proof.
  intros Hr Hix Hi Hx. pose proof Hr as (Hb & Hbe & He & Hm).
  destruct (update_any comp b e s k v i old Hr Hix Hi Hx)
    as (s' & Hs' & Hp & Hix' & _).
  assert (Hidx : indexer s k = i) by (apply (proj1 Hix i (old, k)); auto).
  destruct (update_inside comp b e k v s Hr ltac:(lia))
    as (r & Hr' & Hlen & _).
  rewrite Hs' in Hr'. injection Hr' as <-. cbn [fst] in Hlen.
  exists s'.
  assert (Hin : (v, k) ∈ range b e s').
  { assert (Hc : (v, k) ∈ (old, k) :: range b e s').
    { rewrite <- Hp. apply list_elem_of_here. }
    apply elem_of_cons in Hc as [Hc|Hc]; [|exact Hc].
    rewrite Hc in Hp. apply Permutation_cons_inv in Hp. rewrite <- Hp.
    apply elem_of_range; [assumption|]. exists i. rewrite Hc. auto. }
  apply elem_of_range in Hin as (i' & Hi' & Hx'); [|assumption].
  exists i'. split; [exact Hs'|]. split; [exact Hp|].
  split; [|auto]. unfold range_ok. rewrite Hlen. auto.
Qed.

End Reach.

Section Back.

Context {P K : Type} `{EqDecision K} (comp : P * K -> P * K -> bool).
Hypothesis Hsw : strict_weak comp.

Implicit Types (s : store P K) (x y : P * K) (it p q b e i j : Z) (k : K).

(** [push] on a range whose last slot holds an entry taken out by [pop]
    or [pop_key]. *)
Lemma push_back b e s s1 x :
  range_ok b e s -> b < e -> rearranged b e s s1 ->
  heap_prop comp b (e - 1) s1 -> index_ok b (e - 1) s1 ->
  slot (e - 1) s1 = Some x -> indexer s1 (snd x) = -1 ->
  exists s2,
    push comp b e s1 = Ret s2 /\
    Permutation (range b e s) (range b e s2) /\
    heap_prop comp b e s2 /\ index_ok b e s2.
Proof.
  intros Hr Hlt Hre Hh Hix Hx Habs. pose proof Hr as (Hb & Hbe & _).
  pose proof (range_ok_rearranged b e b e s s1 Hre Hr) as Hr1.
  destruct (push_spec comp Hsw b e s1 x Hr1 Hlt Hh Hix Hx
              (absent_not_live b (e - 1) s1 (snd x) Hix Habs))
    as (s2 & Hs2 & _ & Hre2 & Hh2 & Hix2).
  exists s2. split; [exact Hs2|]. split; [|auto].
  apply rearranged_range; [lia|]. eapply rearranged_trans; eassumption.
Qed.

End Back.

(** ** Further properties read off the code *)

Section Edges.

Context {P K : Type} `{EqDecision K} (comp : P * K -> P * K -> bool).

Implicit Types (s : store P K) (x y : P * K) (it p q b e i j : Z) (k : K).

(** X12.  A sift is one-sided: [bubble_up] from [it] changes the storage
    only in the slots from [begin] through [it], [bubble_down] from [it]
    only in the slots from [it] on, and each only the cells of keys with an
    entry there; whatever the comparator and the entries. *)
Theorem sift_one_sided b e it s :
  range_ok b e s -> b <= it < e ->
  (exists s', bubble_up comp b e it s = Ret s' /\ inside b (it + 1) s s') /\
  (exists s', bubble_down comp b e it s = Ret s' /\ inside it e s s').
Proof.
  intros Hr Hit. split.
  - rewrite (bubble_up_clip comp b e it s Hit).
    apply bubble_up_inside. eapply range_ok_narrow; [exact Hr|lia].
  - apply bubble_down_from; assumption.
Qed.

(** X13.  [update] and [pop_key] trust the cell of the key.  When it holds
    neither the sentinel nor a slot of the range, they read the slot it
    names: outside the storage that is undefined behaviour; inside the
    storage [update] overwrites the priority of that slot and [pop_key]
    swaps it with the last slot of the range and clears the cell of the
    key it found there, both return [true], and no sift moves
    anything. *)
Theorem stale_cell_trusted b e s k :
  range_ok b e s -> b < e ->
  indexer s k <> -1 -> ~ (0 <= indexer s k < e - b) ->
  match slot (b + indexer s k) s with
  | None =>
      (forall v, update comp b e k v s = Undef) /\
      pop_key comp b e k s = Undef
  | Some old =>
      (forall v,
         update comp b e k v s =
         Ret ({| elems := <[Z.to_nat (b + indexer s k) := (v, snd old)]>
                            (elems s);
                 indexer := indexer s |}, true)) /\
      pop_key comp b e k s =
      Ret (cell_set (snd old) (-1) (swapped (b + indexer s k) (e - 1) s),
           true)
  end.
Proof.
  intros Hr Hlt Hne Hout. pose proof Hr as (Hb & Hbe & He & Hm).
  destruct (slot (b + indexer s k) s) as [old|] eqn:Hold.
  - split.
    + intros v. unfold update.
      destruct (Z.leb_spec e b); [lia|].
      destruct (Z.eqb_spec (indexer s k) (-1)); [contradiction|]. cbv zeta.
      rewrite (deref_Some _ _ _ Hold). cbn [bind].
      pose proof (slot_Some _ _ _ Hold) as Hin.
      rewrite (assign_Ret _ _ _ Hin). cbn [bind].
      set (s1 := {| elems := _; indexer := _ |}).
      assert (Hcur : slot (b + indexer s k) s1 = Some (v, snd old)).
      { unfold s1. rewrite (slot_insert _ _ _ _ _ (indexer s)) by exact Hin.
        destruct (decide (b + indexer s k = b + indexer s k));
          [reflexivity|congruence]. }
      rewrite (deref_Some _ _ _ Hcur). cbn [bind].
      destruct (sift_outside comp b e (b + indexer s k) s1 ltac:(lia))
        as [-> ->].
      destruct (comp (v, snd old) old); [reflexivity|].
      destruct (comp old (v, snd old)); reflexivity.
    + unfold pop_key.
      destruct (Z.leb_spec e b); [lia|].
      destruct (Z.eqb_spec (indexer s k) (-1)); [contradiction|]. cbv zeta.
      rewrite (deref_Some _ _ _ Hold). cbn [bind].
      destruct (range_ok_slot b e s (e - b - 1) Hr) as [y Hy]; [lia|].
      replace (b + (e - b - 1)) with (e - 1) in Hy by lia.
      rewrite (swap_both_bind _ _ _ _ _ _ Hold Hy).
      assert (Hl : slot (e - 1) (swapped (b + indexer s k) (e - 1) s)
                   = Some old).
      { rewrite (slot_swapped _ _ _ _ _ _ Hold Hy).
        destruct (decide (e - 1 = e - 1)); [reflexivity|congruence]. }
      rewrite (deref_Some _ _ _ Hl). cbn [bind].
      set (s3 := cell_set (snd old) (-1) _).
      assert (Hcur : slot (b + indexer s k) s3 = Some y).
      { unfold s3. rewrite slot_cell_set, (slot_swapped _ _ _ _ _ _ Hold Hy).
        destruct (decide (b + indexer s k = e - 1)); [lia|].
        destruct (decide (b + indexer s k = b + indexer s k));
          [reflexivity|congruence]. }
      rewrite (deref_Some _ _ _ Hcur). cbn [bind].
      destruct (sift_outside comp b (e - 1) (b + indexer s k) s3 ltac:(lia))
        as [-> ->].
      destruct (comp y old); [reflexivity|].
      destruct (comp old y); reflexivity.
  - split.
    + intros v. unfold update.
      destruct (Z.leb_spec e b); [lia|].
      destruct (Z.eqb_spec (indexer s k) (-1)); [contradiction|]. cbv zeta.
      unfold deref. rewrite Hold. reflexivity.
    + unfold pop_key.
      destruct (Z.leb_spec e b); [lia|].
      destruct (Z.eqb_spec (indexer s k) (-1)); [contradiction|]. cbv zeta.
      unfold deref. rewrite Hold. reflexivity.
Qed.

(** X14.  The two calls the source notes as working just fine: [pop_key]
    of a key whose cell names the last slot of the range, and [pop] on a
    range of one slot, move no entry; they only put the sentinel in the
    cell of the key of the entry in that slot.  No property of the
    comparator is needed, not even irreflexivity. *)
Theorem last_slot_left_in_place b e s x :
  range_ok b e s -> b < e -> slot (e - 1) s = Some x ->
  (forall k, indexer s k = e - b - 1 ->
     exists s',
       pop_key comp b e k s = Ret (s', true) /\ elems s' = elems s /\
       forall k', indexer s' k' =
                  if decide (k' = snd x) then -1 else indexer s k') /\
  (e = b + 1 ->
     exists s',
       pop comp b e s = Ret s' /\ elems s' = elems s /\
       forall k', indexer s' k' =
                  if decide (k' = snd x) then -1 else indexer s k').
Proof.
  intros Hr Hlt Hx. pose proof Hr as (Hb & Hbe & He & Hm).
  destruct (swapped_same (e - 1) s x Hx) as [Hel Hidx].
  assert (Hfin : elems (cell_set (snd x) (-1) (swapped (e - 1) (e - 1) s))
                 = elems s /\
                 forall k', indexer (cell_set (snd x) (-1)
                                       (swapped (e - 1) (e - 1) s)) k' =
                            if decide (k' = snd x) then -1 else indexer s k').
  { split; [exact Hel|]. intros k'. rewrite index_cell_set.
    destruct (decide (k' = snd x)); [reflexivity|apply Hidx]. }
  assert (Hl : slot (e - 1) (swapped (e - 1) (e - 1) s) = Some x).
  { rewrite (slot_swapped _ _ _ _ _ _ Hx Hx).
    destruct (decide (e - 1 = e - 1)); [reflexivity|congruence]. }
  split.
  - intros k Hk. unfold pop_key.
    destruct (Z.leb_spec e b); [lia|].
    destruct (Z.eqb_spec (indexer s k) (-1)); [lia|]. cbv zeta.
    rewrite Hk. replace (b + (e - b - 1)) with (e - 1) by lia.
    rewrite (deref_Some _ _ _ Hx). cbn [bind].
    rewrite (swap_both_bind _ _ _ _ _ _ Hx Hx).
    rewrite (deref_Some _ _ _ Hl). cbn [bind].
    set (s3 := cell_set (snd x) (-1) _) in *.
    assert (Hcur : slot (e - 1) s3 = Some x)
      by (unfold s3; rewrite slot_cell_set; exact Hl).
    rewrite (deref_Some _ _ _ Hcur). cbn [bind].
    destruct (sift_outside comp b (e - 1) (e - 1) s3 ltac:(lia)) as [-> ->].
    exists s3. split; [|exact Hfin].
    destruct (comp x x); reflexivity.
  - intros ->. replace (b + 1 - 1) with b in * by lia. unfold pop.
    destruct (Z.leb_spec (b + 1) b); [lia|]. cbv zeta.
    replace (b + 1 - 1) with b by lia.
    rewrite (swap_both_bind _ _ _ _ _ _ Hx Hx).
    rewrite (deref_Some _ _ _ Hl). cbn [bind].
    set (s3 := cell_set (snd x) (-1) _) in *.
    destruct (sift_outside comp b b b s3 ltac:(lia)) as [_ ->].
    exists s3. split; [reflexivity|exact Hfin].
Qed.

(** X15.  What [pop] or [pop_key] takes out of a heap, [push] on the same
    range puts back: after the two calls the range holds the entries it
    held, with the heap property and index consistency. *)
Theorem taken_out_pushed_back b e s :
  strict_weak comp -> range_ok b e s -> b < e ->
  heap_prop comp b e s -> index_ok b e s ->
  (exists s1 s2,
     pop comp b e s = Ret s1 /\ push comp b e s1 = Ret s2 /\
     Permutation (range b e s) (range b e s2) /\
     heap_prop comp b e s2 /\ index_ok b e s2) /\
  (forall k, live b e s k ->
     exists s1 s2,
       pop_key comp b e k s = Ret (s1, true) /\ push comp b e s1 = Ret s2 /\
       Permutation (range b e s) (range b e s2) /\
       heap_prop comp b e s2 /\ index_ok b e s2).
Proof.
  intros Hsw Hr Hlt Hh Hix. split.
  - destruct (range_ok_slot b e s 0 Hr) as [r Hroot]; [lia|].
    rewrite Z.add_0_r in Hroot.
    destruct (pop_spec comp Hsw b e s r Hr Hlt Hh Hix Hroot)
      as (s1 & Hs1 & _ & Hre1 & Hh1 & Hix1 & Hlast & Habs & _).
    destruct (push_back comp Hsw b e s s1 r Hr Hlt Hre1 Hh1 Hix1 Hlast Habs)
      as (s2 & Hs2 & Hrest).
    exists s1, s2. auto.
  - intros k (i & x & Hi & Hx & Hk).
    destruct (pop_key_spec comp Hsw b e s k i x Hr Hh Hix Hi Hx Hk)
      as (s1 & Hs1 & Hre1 & Hh1 & Hix1 & Hlast & Habs & _).
    rewrite <- Hk in Habs.
    destruct (push_back comp Hsw b e s s1 x Hr Hlt Hre1 Hh1 Hix1 Hlast Habs)
      as (s2 & Hs2 & Hrest).
    exists s1, s2. auto.
Qed.

(** X16.  Of two [update]s of one key the second one decides: on an
    index-consistent range where the key is live, [update(k, v)] followed
    by [update(k, w)] leaves the entries in the range that [update(k, w)]
    alone leaves, whatever the comparator. *)
Theorem update_overwrites b e s k v w :
  range_ok b e s -> index_ok b e s -> live b e s k ->
  exists s1 s2 s3,
    update comp b e k v s = Ret (s1, true) /\
    update comp b e k w s1 = Ret (s2, true) /\
    update comp b e k w s = Ret (s3, true) /\
    Permutation (range b e s2) (range b e s3).
Proof.
  intros Hr Hix (i & [old k'] & Hi & Hx & Hk). simpl in Hk. subst k'.
  destruct (update_any_live comp b e s k v i old Hr Hix Hi Hx)
    as (s1 & i1 & Hs1 & Hp1 & Hr1 & Hix1 & Hi1 & Hx1).
  destruct (update_any comp b e s1 k w i1 v Hr1 Hix1 Hi1 Hx1)
    as (s2 & Hs2 & Hp2 & _).
  destruct (update_any comp b e s k w i old Hr Hix Hi Hx)
    as (s3 & Hs3 & Hp3 & _).
  exists s1, s2, s3. split; [exact Hs1|]. split; [exact Hs2|].
  split; [exact Hs3|].
  apply (Permutation_cons_inv (a := (v, k))).
  apply (Permutation_cons_inv (a := (old, k))).
  rewrite <- Hp2, (perm_swap (w, k) (old, k)), <- Hp1.
  rewrite (perm_swap (v, k) (w, k)), Hp3. apply perm_swap.
Qed.

(** X17.  The scan of the two children in [bubble_down] leaves in [m], as
    the source notes, the most dominant among slot [i] and its children:
    [m] is [i], [2 i + 1] or [2 i + 2], a slot of the range, and its entry
    is dominated by the entry of none of these slots. *)
Theorem children_scan_picks b e s i :
  strict_weak comp -> range_ok b e s -> 0 <= i < e - b ->
  exists m z,
    loop (children_step comp b (e - b) i s) 3 (2 * i + 1, i) = Ret m /\
    (m = i \/ m = 2 * i + 1 \/ m = 2 * i + 2) /\ 0 <= m < e - b /\
    slot (b + m) s = Some z /\
    forall c y, c = i \/ c = 2 * i + 1 \/ c = 2 * i + 2 ->
                slot (b + c) s = Some y -> c < e - b -> comp z y = false.
Proof.
  intros Hsw Hr Hi.
  destruct (children_loop_spec comp Hsw b e s i Hr Hi) as (m & Hm & Hpick).
  destruct (range_ok_slot b e s i Hr Hi) as [x Hx].
  exists m. destruct Hpick as [[-> Hall]|(Hmr & Hpm & x' & z & Hx' & Hz & Hxz & Ho)].
  - exists x. split; [exact Hm|]. split; [auto|]. split; [exact Hi|].
    split; [exact Hx|]. intros c y Hc Hy Hlt.
    destruct (decide (c = i)) as [->|Hne].
    + assert (y = x) by congruence. subst y. apply (sw_irrefl _ Hsw).
    + apply (Hall c); [lia|unfold parent; lia|exact Hx|exact Hy].
  - assert (x' = x) by congruence. subst x'.
    exists z. split; [exact Hm|]. split; [unfold parent in Hpm; lia|].
    split; [lia|]. split; [exact Hz|]. intros c y Hc Hy Hlt.
    destruct (decide (c = i)) as [->|Hne].
    + assert (y = x) by congruence. subst y. eapply sw_asym; eassumption.
    + destruct (decide (c = m)) as [->|Hnm].
      * assert (y = z) by congruence. subst y. apply (sw_irrefl _ Hsw).
      * apply (Ho c y); [lia|unfold parent; lia|exact Hnm|exact Hy].
Qed.

End Edges.

(** ** Two runs side by side *)

Section Bind.

Context {A A' B B' : Type}.

Lemma res_rel_bind (Q : A -> A' -> Prop) (Q' : B -> B' -> Prop)
    (c : res A) (c' : res A') (k : A -> res B) (k' : A' -> res B') :
  res_rel Q c c' -> (forall a a', Q a a' -> res_rel Q' (k a) (k' a')) ->
  res_rel Q' (x <- c ;; k x) (x <- c' ;; k' x).
Proof.
  intros Hc Hk. destruct c, c'; cbn [bind res_rel] in *; try contradiction;
    auto.
Qed.

Lemma res_rel_eq (c c' : res A) : res_rel eq c c' -> c = c'.
Proof.
  destruct c, c'; cbn [res_rel]; intros Hc; try contradiction;
    congruence.
Qed.

End Bind.

Section Related.

Context {A A' B B' : Type}.

(** Two loops whose rounds keep the states related end the same way. *)
Lemma loop_rel (step : A -> res (A + B)) (step' : A' -> res (A' + B'))
    (R : A -> A' -> Prop) (Q : B -> B' -> Prop) :
  (forall s s', R s s' ->
     res_rel (fun r r' => match r, r' with
                          | inl t, inl t' => R t t'
                          | inr v, inr v' => Q v v'
                          | _, _ => False
                          end) (step s) (step' s')) ->
  forall fuel s s', R s s' ->
    res_rel Q (loop step fuel s) (loop step' fuel s').
Proof.
  intros Hstep fuel. induction fuel as [|f IH]; intros s s' Hs; [exact I|].
  cbn [loop]. eapply res_rel_bind; [apply Hstep; exact Hs|].
  intros [t|v] [t'|v']; cbn beta iota; try contradiction.
  - apply IH.
  - auto.
Qed.

End Related.

(** ** The entries do not depend on the cells *)

Section Blind.

Context {P K : Type} `{EqDecision K} (comp : P * K -> P * K -> bool).

Implicit Types (s t : store P K) (x y : P * K) (it p q b e i j : Z) (k : K).

Lemma slot_same it s t : elems s = elems t -> slot it s = slot it t.
Proof. intros E. unfold slot. rewrite E. reflexivity. Qed.

Lemma deref_same it s t : elems s = elems t -> deref it s = deref it t.
Proof. intros E. unfold deref. rewrite (slot_same it s t E). reflexivity. Qed.

Lemma assign_same it x s t :
  elems s = elems t -> same_entries (assign it x s) (assign it x t).
Proof.
  intros E. unfold assign. rewrite E.
  destruct ((0 <=? it) && (it <? Z.of_nat (length (elems t))));
    cbn; reflexivity.
Qed.

Lemma swap_at_same p q s t :
  elems s = elems t -> same_entries (swap_at p q s) (swap_at p q t).
Proof.
  intros E. unfold swap_at.
  rewrite (deref_same p s t E), (deref_same q s t E).
  destruct (deref p t) as [x| |]; cbn [bind]; try exact I.
  destruct (deref q t) as [y| |]; cbn [bind]; try exact I.
  eapply res_rel_bind; [apply assign_same; exact E|].
  intros a a' Ha. apply assign_same. exact Ha.
Qed.

Lemma swap_cells_at_same p q s t :
  elems s = elems t ->
  same_entries (swap_cells_at p q s) (swap_cells_at p q t).
Proof.
  intros E. unfold swap_cells_at.
  rewrite (deref_same p s t E), (deref_same q s t E).
  destruct (deref p t) as [x| |]; cbn [bind]; try exact I.
  destruct (deref q t) as [y| |]; cbn [bind]; try exact I.
  exact E.
Qed.

Lemma swap_both_same {B B' : Type} (Q : B -> B' -> Prop) p q s t
    (k : store P K -> res B) (k' : store P K -> res B') :
  elems s = elems t ->
  (forall a a', elems a = elems a' -> res_rel Q (k a) (k' a')) ->
  res_rel Q (s1 <- swap_at p q s ;; s2 <- swap_cells_at p q s1 ;; k s2)
            (s1 <- swap_at p q t ;; s2 <- swap_cells_at p q s1 ;; k' s2).
Proof.
  intros E Hk.
  eapply res_rel_bind; [apply swap_at_same; exact E|].
  intros a a' Ha.
  eapply res_rel_bind; [apply swap_cells_at_same; exact Ha|]. exact Hk.
Qed.

Lemma bubble_up_same b e it s t :
  elems s = elems t ->
  same_entries (bubble_up comp b e it s) (bubble_up comp b e it t).
Proof.
  intros E. unfold bubble_up.
  destruct ((it <? b) || (e <=? it)); [exact E|].
  destruct (int (it - b)) as [i| |]; cbn [bind]; try exact I.
  apply (loop_rel _ _ (fun st st' => elems (fst st) = elems (fst st') /\
                                     snd st = snd st')
           (fun a a' => elems a = elems a')); [|split; [exact E|reflexivity]].
  intros [s1 i1] [t1 i1'] [E1 Ei]. cbn [fst snd] in *. subst i1'.
  unfold bubble_up_step. destruct (0 <? i1); [|exact E1].
  rewrite (deref_same _ s1 t1 E1), (deref_same (b + i1) s1 t1 E1).
  destruct (deref (b + parent i1) t1) as [x| |]; cbn [bind]; try exact I.
  destruct (deref (b + i1) t1) as [y| |]; cbn [bind]; try exact I.
  destruct (comp x y); [|exact E1].
  apply swap_both_same; [exact E1|]. intros a a' Ha. split; [exact Ha|].
  reflexivity.
Qed.

Lemma children_same b n i s t cm :
  elems s = elems t ->
  loop (children_step comp b n i s) 3 cm =
  loop (children_step comp b n i t) 3 cm.
Proof.
  intros E. apply res_rel_eq.
  apply (loop_rel _ _ eq eq); [|reflexivity].
  intros [c m] ? <-. unfold children_step.
  rewrite (deref_same (b + m) s t E), (deref_same (b + c) s t E).
  match goal with |- res_rel _ ?a ?a => destruct a as [[r|r]| |] end;
    cbn [res_rel]; auto.
Qed.

Lemma bubble_down_same b e it s t :
  elems s = elems t ->
  same_entries (bubble_down comp b e it s) (bubble_down comp b e it t).
Proof.
  intros E. unfold bubble_down.
  destruct ((it <? b) || (e <=? it)); [exact E|].
  destruct (int (it - b)) as [i| |]; cbn [bind]; try exact I.
  destruct (int (e - b)) as [n| |]; cbn [bind]; try exact I.
  apply (loop_rel _ _ (fun st st' => elems (fst st) = elems (fst st') /\
                                     snd st = snd st')
           (fun a a' => elems a = elems a')); [|split; [exact E|reflexivity]].
  intros [s1 i1] [t1 i1'] [E1 Ei]. cbn [fst snd] in *. subst i1'.
  unfold bubble_down_step. destruct (i1 <? n); [|exact E1].
  destruct (int (2 * i1)) as [d| |]; cbn [bind]; try exact I.
  destruct (int (d + 1)) as [c| |]; cbn [bind]; try exact I.
  rewrite (children_same b n i1 s1 t1 (c, i1) E1).
  destruct (loop (children_step comp b n i1 t1) 3 (c, i1)) as [m| |];
    cbn [bind]; try exact I.
  destruct (m =? i1); [exact E1|].
  apply swap_both_same; [exact E1|]. intros a a' Ha. split; [exact Ha|].
  reflexivity.
Qed.

Lemma push_same b e s t :
  elems s = elems t -> same_entries (push comp b e s) (push comp b e t).
Proof.
  intros E. unfold push. destruct (e <=? b); [exact E|].
  rewrite (deref_same _ s t E).
  destruct (deref (e - 1) t) as [x| |]; cbn [bind]; try exact I.
  destruct (int (e - b - 1)) as [v| |]; cbn [bind]; try exact I.
  apply bubble_up_same. exact E.
Qed.

Lemma pop_same b e s t :
  elems s = elems t -> same_entries (pop comp b e s) (pop comp b e t).
Proof.
  intros E. unfold pop. destruct (e <=? b); [exact E|]. cbv zeta.
  apply swap_both_same; [exact E|]. intros a a' Ha.
  rewrite (deref_same _ a a' Ha).
  destruct (deref (e - 1) a') as [y| |]; cbn [bind]; try exact I.
  apply bubble_down_same. exact Ha.
Qed.

Lemma make_same b e s t :
  elems s = elems t -> same_entries (make comp b e s) (make comp b e t).
Proof.
  intros E. unfold make. destruct (e <=? b); [exact E|].
  apply (loop_rel _ _ (fun st st' => elems (fst st) = elems (fst st') /\
                                     snd st = snd st')
           (fun a a' => elems a = elems a')); [|split; [exact E|reflexivity]].
  intros [s1 i1] [t1 i1'] [E1 Ei]. cbn [fst snd] in *. subst i1'.
  unfold make_step. destruct (b <=? i1); [|exact E1].
  eapply res_rel_bind; [apply bubble_down_same; exact E1|].
  intros a a' Ha. split; [exact Ha|reflexivity].
Qed.

Lemma sort_same b e s t :
  elems s = elems t -> same_entries (sort comp b e s) (sort comp b e t).
Proof.
  intros E. unfold sort.
  apply (loop_rel _ _ (fun st st' => elems (fst st) = elems (fst st') /\
                                     snd st = snd st')
           (fun a a' => elems a = elems a')); [|split; [exact E|reflexivity]].
  intros [s1 i1] [t1 i1'] [E1 Ei]. cbn [fst snd] in *. subst i1'.
  unfold sort_step. destruct (b <? i1); [|exact E1].
  eapply res_rel_bind; [apply pop_same; exact E1|].
  intros a a' Ha. split; [exact Ha|reflexivity].
Qed.

(** X18.  The operations that take no key never read a cell: run on two
    states with the same entries and any cells, each of [bubble_up],
    [bubble_down], [push], [pop], [make] and [sort] ends the same way, and
    with the same entries when it returns. *)
Theorem entries_ignore_cells b e s t :
  elems s = elems t ->
  (forall it,
     same_entries (bubble_up comp b e it s) (bubble_up comp b e it t)) /\
  (forall it,
     same_entries (bubble_down comp b e it s) (bubble_down comp b e it t)) /\
  same_entries (push comp b e s) (push comp b e t) /\
  same_entries (pop comp b e s) (pop comp b e t) /\
  same_entries (make comp b e s) (make comp b e t) /\
  same_entries (sort comp b e s) (sort comp b e t).
Proof.
  intros E.
  split; [intros it; apply bubble_up_same; exact E|].
  split; [intros it; apply bubble_down_same; exact E|].
  split; [apply push_same; exact E|].
  split; [apply pop_same; exact E|].
  split; [apply make_same; exact E|apply sort_same; exact E].
Qed.

End Blind.

(** ** [make] after [make] *)

Section Twice.

Context {P K : Type} `{EqDecision K} (comp : P * K -> P * K -> bool).

Implicit Types (s : store P K) (b e : Z).

(** X19.  [make] is idempotent: the state a first [make] returns, a second
    [make] returns unchanged. *)
Theorem make_idempotent b e s :
  strict_weak comp -> range_ok b e s ->
  exists s', make comp b e s = Ret s' /\ make comp b e s' = Ret s'.
Proof.
  intros Hsw Hr. destruct (Z.lt_ge_cases b e) as [Hlt|Hge].
  - destruct (make_spec comp Hsw b e s Hr Hlt) as (s' & Hs' & Hre & _ & Hh).
    exists s'. split; [exact Hs'|]. apply make_settled; [|exact Hh].
    eapply range_ok_rearranged; eassumption.
  - exists s. assert (E : make comp b e s = Ret s).
    { unfold make. destruct (Z.leb_spec e b); [reflexivity|lia]. }
    auto.
Qed.

End Twice.

(** ** The further properties on the running instance *)

Lemma heap3_front : range_ok 0 2 heap3.
Proof. unfold range_ok, MAX_SLOTS. simpl. lia. Qed.



Lemma settled_heap_unchanged_witness :
  (forall it, bubble_up lessp 0 3 it heap3 = Ret heap3) /\
  (forall it, bubble_down lessp 0 3 it heap3 = Ret heap3) /\
  make lessp 0 3 heap3 = Ret heap3.
Proof.
  exact (settled_heap_unchanged lessp 0 3 heap3 heap3_range heap3_heap).
Defined.


Lemma index_kept_any_comparator_witness :
  (exists s', push less_pair 0 4 heap3_new = Ret s' /\ index_ok 0 4 s') /\
  (exists s', make less_pair 0 5 raw5 = Ret s' /\ index_ok 0 5 s') /\
  (exists s', sort less_pair 0 5 raw5 = Ret s' /\
              forall k, indexer s' k = -1).
Proof.
  split.
  - apply (proj1 (index_kept_any_comparator less_pair 0 4 heap3_new
                    heap3_new_range) (1, 3%nat)).
    + lia.
    + exact heap3_new_index.
    + reflexivity.
    + exact heap3_new_fresh.
  - pose proof (proj2 (index_kept_any_comparator less_pair 0 5 raw5
                         raw5_range) raw5_index)
      as (_ & Hmake & Hsort & _).
    split; [exact Hmake|exact Hsort].
Defined.

Lemma update_sets_priority_witness :
  exists s',
    update lessp 0 3 1%nat 9 heap3 = Ret (s', true) /\
    Permutation ((9, 1%nat) :: range 0 3 heap3)
                ((3, 1%nat) :: range 0 3 s') /\
    index_ok 0 3 s' /\
    slot (0 + indexer s' 1%nat) s' = Some (9, 1%nat).
Proof.
  apply (update_sets_priority lessp 0 3 heap3 1%nat 9 3 heap3_range
           heap3_index).
  exists 1. split; [lia|reflexivity].
Defined.

Lemma push_then_pop_key_witness :
  exists s1 s2,
    push lessp 0 4 heap3_new = Ret s1 /\
    pop_key lessp 0 4 (snd (1, 3%nat)) s1 = Ret (s2, true) /\
    Permutation (range 0 (4 - 1) heap3_new) (range 0 (4 - 1) s2) /\
    slot (4 - 1) s2 = Some (1, 3%nat) /\
    indexer s2 (snd (1, 3%nat)) = -1 /\
    heap_prop lessp 0 (4 - 1) s2 /\ index_ok 0 (4 - 1) s2.
Proof.
  apply (push_then_pop_key lessp 0 4 heap3_new (1, 3%nat) lessp_strict_weak
           heap3_new_range).
  - lia.
  - exact heap3_new_heap.
  - exact heap3_new_index.
  - reflexivity.
  - exact heap3_new_fresh.
Defined.

Lemma flags_tell_liveness_witness :
  (exists s' ok, update lessp 0 3 1%nat 0 heap3 = Ret (s', ok) /\
                 (ok = true <-> live 0 3 heap3 1%nat)) /\
  (exists s' ok, pop_key lessp 0 3 1%nat heap3 = Ret (s', ok) /\
                 (ok = true <-> live 0 3 heap3 1%nat)).
Proof.
  exact (flags_tell_liveness lessp 0 3 heap3 1%nat 0 heap3_range heap3_index).
Defined.


Lemma pop_key_of_root_is_pop_witness :
  exists s', pop lessp 0 3 heap3 = Ret s' /\
             pop_key lessp 0 3 (snd (8, 2%nat)) heap3 = Ret (s', true).
Proof.
  apply (pop_key_of_root_is_pop lessp 0 3 heap3 (8, 2%nat) lessp_strict_weak
           heap3_range).
  - lia.
  - exact heap3_heap.
  - exact heap3_index.
  - reflexivity.
Defined.

Lemma make_then_sort_witness :
  exists s1 s2,
    make lessp 0 5 raw5 = Ret s1 /\ sort lessp 0 5 s1 = Ret s2 /\
    Permutation (range 0 5 raw5) (range 0 5 s2) /\
    (forall i j x y, 0 <= i < j -> j < 5 - 0 ->
                     slot (0 + i) s2 = Some x -> slot (0 + j) s2 = Some y ->
                     lessp y x = false) /\
    (forall it, ~ (0 <= it < 5) -> slot it s2 = slot it raw5) /\
    (forall k, indexer s2 k = -1).
Proof.
  exact (make_then_sort lessp 0 5 raw5 lessp_strict_weak raw5_range
           raw5_index).
Defined.

Lemma make_puts_top_first_witness :
  exists s' top,
    make lessp 0 5 raw5 = Ret s' /\ slot 0 s' = Some top /\
    In top (range 0 5 raw5) /\
    forall x, In x (range 0 5 raw5) -> lessp top x = false.
Proof.
  apply (make_puts_top_first lessp 0 5 raw5 lessp_strict_weak raw5_range).
  lia.
Defined.

Lemma sift_rounds_logarithmic_witness :
  (exists s',
     bubble_up lessp 0 5 4 raw5 = Ret s' /\
     loop (bubble_up_step lessp 0)
       (Z.to_nat (Z.log2 (4 - 0 + 1)) + 1) (raw5, 4 - 0) = Ret s') /\
  (exists s',
     bubble_down lessp 0 5 4 raw5 = Ret s' /\
     loop (bubble_down_step lessp 0 (5 - 0))
       (Z.to_nat (Z.log2 (5 - 0) - Z.log2 (4 - 0 + 1)) + 1) (raw5, 4 - 0)
     = Ret s').
Proof.
  apply (sift_rounds_logarithmic lessp 0 5 4 raw5 raw5_range). lia.
Defined.

Lemma sift_one_sided_witness :
  (exists s', bubble_up lessp 0 5 2 raw5 = Ret s' /\
              inside 0 (2 + 1) raw5 s') /\
  (exists s', bubble_down lessp 0 5 2 raw5 = Ret s' /\ inside 2 5 raw5 s').
Proof.
  apply (sift_one_sided lessp 0 5 2 raw5 raw5_range). lia.
Defined.

Lemma stale_cell_trusted_witness :
  (forall v,
     update lessp 0 2 0%nat v heap3 =
     Ret ({| elems := <[Z.to_nat 2 := (v, 0%nat)]> (elems heap3);
             indexer := indexer heap3 |}, true)) /\
  pop_key lessp 0 2 0%nat heap3 =
  Ret (cell_set 0%nat (-1) (swapped 2 (2 - 1) heap3), true).
Proof.
  apply (stale_cell_trusted lessp 0 2 heap3 0%nat heap3_front).
  - lia.
  - simpl. lia.
  - simpl. lia.
Defined.

Lemma last_slot_left_in_place_witness :
  exists s',
    pop_key lessp 0 3 0%nat heap3 = Ret (s', true) /\
    elems s' = elems heap3 /\
    forall k', indexer s' k' =
               if decide (k' = snd (5, 0%nat)) then -1 else indexer heap3 k'.
Proof.
  apply (last_slot_left_in_place lessp 0 3 heap3 (5, 0%nat) heap3_range).
  - lia.
  - reflexivity.
  - reflexivity.
Defined.

Lemma taken_out_pushed_back_witness :
  exists s1 s2,
    pop_key lessp 0 3 1%nat heap3 = Ret (s1, true) /\
    push lessp 0 3 s1 = Ret s2 /\
    Permutation (range 0 3 heap3) (range 0 3 s2) /\
    heap_prop lessp 0 3 s2 /\ index_ok 0 3 s2.
Proof.
  apply (taken_out_pushed_back lessp 0 3 heap3 lessp_strict_weak heap3_range).
  - lia.
  - exact heap3_heap.
  - exact heap3_index.
  - exact heap3_live_1.
Defined.

Lemma update_overwrites_witness :
  exists s1 s2 s3,
    update lessp 0 3 1%nat 9 heap3 = Ret (s1, true) /\
    update lessp 0 3 1%nat 0 s1 = Ret (s2, true) /\
    update lessp 0 3 1%nat 0 heap3 = Ret (s3, true) /\
    Permutation (range 0 3 s2) (range 0 3 s3).
Proof.
  exact (update_overwrites lessp 0 3 heap3 1%nat 9 0 heap3_range heap3_index
           heap3_live_1).
Defined.

Lemma children_scan_picks_witness :
  exists m z,
    loop (children_step lessp 0 (5 - 0) 0 raw5) 3 (2 * 0 + 1, 0) = Ret m /\
    (m = 0 \/ m = 2 * 0 + 1 \/ m = 2 * 0 + 2) /\ 0 <= m < 5 - 0 /\
    slot (0 + m) raw5 = Some z /\
    forall c y, c = 0 \/ c = 2 * 0 + 1 \/ c = 2 * 0 + 2 ->
                slot (0 + c) raw5 = Some y -> c < 5 - 0 -> lessp z y = false.
Proof.
  apply (children_scan_picks lessp 0 5 raw5 0 lessp_strict_weak raw5_range).
  lia.
Defined.

Lemma entries_ignore_cells_witness :
  same_entries (make lessp 0 5 raw5) (make lessp 0 5 (cell_set 0%nat 7 raw5))
  /\
  same_entries (sort lessp 0 5 raw5) (sort lessp 0 5 (cell_set 0%nat 7 raw5)).
Proof.
  pose proof (entries_ignore_cells lessp 0 5 raw5 (cell_set 0%nat 7 raw5)
                eq_refl) as (_ & _ & _ & _ & Hmake & Hsort).
  split; [exact Hmake|exact Hsort].
Defined.

Lemma make_idempotent_witness :
  exists s', make lessp 0 5 raw5 = Ret s' /\ make lessp 0 5 s' = Ret s'.
Proof.
  exact (make_idempotent lessp 0 5 raw5 lessp_strict_weak raw5_range).
Defined.
